(** * HEFW migration script: a shallow embedding of [index.ts]

    The script walks a legacy snapshot (guilds, their projects, their
    submissions), creates each entity in PayloadCMS over HTTP, resolves
    media through a local cache, and keeps its progress in three global
    accumulators ([mapping], [failed], [missing]).

    The embedding is a state-and-exception monad over a [World] that holds
    the three accumulators, the image file system, the data files and a
    log of the remote calls issued so far.  Library functions the script
    calls ([new URL], [decodeURIComponent], [encodeURI], axios, unified,
    [Date]) are fields of an environment record [Env]. *)

From Stdlib Require Import Ascii String.
From stdpp Require Import gmap strings list pretty.

Open Scope string_scope.
Open Scope list_scope.

(** ** Legacy data (the interfaces of [index.ts]) *)

Definition Buffer := list Byte.byte.

Inductive MediaType := image | video | text.
Inductive SubType := picture | artwork.
Inductive ProjectStatus := ongoing | past.
Inductive CreditType := credit_artwork | credit_code | credit_music | credit_organization.

#[global] Instance MediaType_eq_dec : EqDecision MediaType.
Proof. solve_decision. Defined.

Record IGuild := {
  g_id : string;
  g_name : string;
  g_description : string;
  g_image : string;
  g_invite : string;
  g_debutDate : string;          (* debutDate.$date.$numberLong *)
  g_color : option string;
}.

Record ISubmission := {
  s_oid : string;                (* _id.$oid *)
  s_project : Z;
  s_author : option string;
  s_srcIcon : option string;
  s_type : MediaType;
  s_subtype : option SubType;
  s_src : option string;
  s_message : option string;
}.

Record IMedia := {
  md_oid : string;
  md_type : MediaType;
  md_src : option string;
  md_message : option string;
}.

Record ILink := {
  l_oid : string;
  l_name : string;
  l_link : string;
}.

Record ICredit := {
  c_type : CreditType;
  c_user : string;
  c_pfp : string;
  c_github : option string;
  c_twitter : option string;
  c_youtube : option string;
}.

Record IProject := {
  p_id : Z;
  p_status : ProjectStatus;
  p_guild : string;
  p_media : option (list IMedia);
  p_title : string;
  p_shortDescription : string;
  p_description : string;
  p_links : option (list ILink);
  p_date : string;               (* date.$date.$numberLong *)
  p_flags : option (list string);
  p_ogImage : option string;
  p_backgroundMusic : option string;
  p_credits : option (list ICredit);
}.

(** [successfullyProcessed] is an [any[]]: it receives guild ids and
    submission ids (strings) and project ids (numbers).  [includes]
    compares with SameValueZero, so a number never equals a string. *)
Inductive LegacyId := IdS (s : string) | IdN (n : Z).

#[global] Instance LegacyId_eq_dec : EqDecision LegacyId.
Proof. solve_decision. Defined.

Record IMapping := {
  m_guilds : gmap string string;
  m_projects : gmap Z string;
  successfullyProcessed : list LegacyId;
}.

(** The three snapshot files read at startup. *)
Record Snapshot := {
  guilds : list IGuild;
  projects : list IProject;
  submissions : list ISubmission;
}.

(** ** Payloads sent to PayloadCMS *)

Record NewSubmission := {
  ns_project : option string;    (* mapping.projects[submission.project], possibly undefined *)
  ns_type : MediaType;
  ns_author : string;
  ns_subtype : option SubType;
  ns_message : option string;
  ns_url : option string;
  ns_srcIcon : option string;
  ns_media : option string;
}.

Inductive DevValue :=
| RawValue (s : string)
| JsonCredits (c : list ICredit)     (* JSON.stringify(project.credits) *)
| JsonFlags (f : list string).       (* JSON.stringify(project.flags) *)

Record PayloadProjectMedia := {
  pm_type : MediaType;
  pm_media : option string;
  pm_url : option string;
}.

Record NewProject := {
  np_image : string;
  np_organizer : option string;  (* mapping.guilds[project.guild], possibly undefined *)
  np_shortDescription : string;
  np_slug : string;
  np_status : ProjectStatus;
  np_title : string;
  np_links : option (list (string * string));
  np_description : string;
  np_date : string;
  np_devprops : list (string * DevValue);
  np_ogImage : option string;
  np_media : list PayloadProjectMedia;
}.

Record NewGuild := {
  ng_name : string;
  ng_description : string;
  ng_debutDate : string;
  ng_invite : string;
  ng_icon : string;
}.

(** ** Remote calls and their log *)

(** A creation request does not carry the legacy id of a guild or of a
    submission; the log keeps it next to the body so that properties about
    "the creation call for legacy id x" can be stated.
    [PostMedia endpoint filename file] is the POST to [endpoint] of a form
    to which [file] was appended with the option [filename], as the script
    passes it to [formData.append]; what the form library makes of the
    option when it writes the part header is not recorded. *)
Inductive Call :=
| Get (url : string)
| PostMedia (endpoint : string) (filename : string) (file : Buffer)
| PostGuild (legacy : string) (body : NewGuild)
| PostProject (legacy : Z) (body : NewProject)
| PostSubmission (legacy : string) (body : NewSubmission).

Record Event := { ev_call : Call; ev_ok : bool }.

Record URL := { host : string; pathname : string }.

Inductive Exn :=
| InvalidURL            (* TypeError thrown by new URL *)
| URIError              (* decodeURIComponent / encodeURI *)
| RangeError            (* Invalid time value in toISOString *)
| ProcessorError        (* unified().process *)
| ENOENT | EISDIR | EPERM
| EEXIST
| AxiosError
| ConfigError.          (* 'Check environment variables!' *)

Definition exn_name (e : Exn) : string :=
  match e with
  | InvalidURL => "TypeError: Invalid URL"
  | URIError => "URIError: URI malformed"
  | RangeError => "RangeError: Invalid time value"
  | ProcessorError => "Error: unified"
  | ENOENT => "Error: ENOENT"
  | EISDIR => "Error: EISDIR"
  | EPERM => "Error: EPERM"
  | EEXIST => "Error: EEXIST"
  | AxiosError => "AxiosError"
  | ConfigError => "Error: Check environment variables!"
  end.

(** Library functions and the remote side.  [None] stands for a thrown
    exception (a rejected promise for the HTTP calls).  The HTTP answers
    may depend on everything that was requested before. *)
Record Env := {
  parseURL : string -> option URL;
  decodeURIComponent : string -> option string;
  encodeURI : string -> option string;
  toISOString : string -> option string;      (* new Date(Number.parseInt(s, 10)).toISOString() *)
  processMarkdown : string -> option string;  (* unified().use(markdown).use(slate, ...).process *)
  http_get : list Event -> string -> option Buffer;
  http_post : list Event -> Call -> option string;   (* the id of response.data.doc *)
  DEFAULT_MEDIA : string;
}.

(** ** The world the script runs in *)

Inductive Node := File (b : Buffer) | Dir.

(** The files under [./data] hold JSON; they are kept as the values that
    [JSON.stringify] serialises and [JSON.parse] gives back. *)
Record Disk := {
  idmap_json : IMapping;
  missing_json : list ISubmission;
  failed_json : list string;
  idmap_auto_json : IMapping;
  missing_auto_json : list ISubmission;
}.

Record World := {
  mapping : IMapping;
  failed : list string;
  missing : list ISubmission;
  fs : gmap string Node;          (* ./images/..., keyed by path *)
  disk : Disk;                    (* ./data/... *)
  trace : list Event;             (* remote calls, oldest first *)
  console : list string;
}.

Definition set_mapping (m : IMapping) (w : World) : World :=
  {| mapping := m; failed := failed w; missing := missing w; fs := fs w;
     disk := disk w; trace := trace w; console := console w |}.
Definition set_failed (f : list string) (w : World) : World :=
  {| mapping := mapping w; failed := f; missing := missing w; fs := fs w;
     disk := disk w; trace := trace w; console := console w |}.
Definition set_missing (m : list ISubmission) (w : World) : World :=
  {| mapping := mapping w; failed := failed w; missing := m; fs := fs w;
     disk := disk w; trace := trace w; console := console w |}.
Definition set_fs (f : gmap string Node) (w : World) : World :=
  {| mapping := mapping w; failed := failed w; missing := missing w; fs := f;
     disk := disk w; trace := trace w; console := console w |}.
Definition set_disk (d : Disk) (w : World) : World :=
  {| mapping := mapping w; failed := failed w; missing := missing w; fs := fs w;
     disk := d; trace := trace w; console := console w |}.
Definition set_trace (t : list Event) (w : World) : World :=
  {| mapping := mapping w; failed := failed w; missing := missing w; fs := fs w;
     disk := disk w; trace := t; console := console w |}.
Definition set_console (c : list string) (w : World) : World :=
  {| mapping := mapping w; failed := failed w; missing := missing w; fs := fs w;
     disk := disk w; trace := trace w; console := c |}.

(** ** State and exception monad *)

Inductive Result (A : Type) := Ok (a : A) | Throw (e : Exn).
Arguments Ok {A} a.
Arguments Throw {A} e.

Definition M (A : Type) := World -> Result A * World.

Definition ret {A} (a : A) : M A := fun w => (Ok a, w).
Definition throw {A} (e : Exn) : M A := fun w => (Throw e, w).
Definition bind {A B} (m : M A) (k : A -> M B) : M B :=
  fun w => match m w with
           | (Ok a, w') => k a w'
           | (Throw e, w') => (Throw e, w')
           end.
Definition try_catch {A} (m : M A) (h : Exn -> M A) : M A :=
  fun w => match m w with
           | (Ok a, w') => (Ok a, w')
           | (Throw e, w') => h e w'
           end.
Definition get_world : M World := fun w => (Ok w, w).
Definition modify (f : World -> World) : M unit := fun w => (Ok tt, f w).
Definition lift {A} (e : Exn) (o : option A) : M A :=
  match o with Some a => ret a | None => throw e end.

Declare Scope m_scope.
Delimit Scope m_scope with M.
Notation "x <- m ;; k" := (bind m (fun x => k))
  (at level 100, m at next level, right associativity) : m_scope.
Notation "m ;; k" := (bind m (fun _ => k))
  (at level 100, right associativity) : m_scope.
Open Scope m_scope.

(** [for (const x of xs) await f(x)]: the first exception leaves the loop. *)
Fixpoint for_each {A} (f : A -> M unit) (xs : list A) : M unit :=
  match xs with
  | [] => ret tt
  | x :: rest => f x ;; for_each f rest
  end.

(** ** Small JavaScript helpers *)

(** A string in a condition: [undefined] and [''] are falsy. *)
Definition truthy (o : option string) : option string :=
  match o with
  | Some s => if decide (s = "") then None else Some s
  | None => None
  end.

(** [x!] handed to a function that takes a string: [undefined] is
    converted to the string ["undefined"]. *)
Definition bang (o : option string) : string := default "undefined" o.

Definition includes {A} `{EqDecision A} (x : A) (l : list A) : bool :=
  bool_decide (x ∈ l).

(** [pathSplit[pathSplit.length - 1]] for [pathSplit = s.split('/')]. *)
Fixpoint lastSegmentFrom (cur s : string) : string :=
  match s with
  | EmptyString => cur
  | String c r =>
      if Ascii.eqb c "/"%char then lastSegmentFrom "" r
      else lastSegmentFrom (cur +:+ String c "") r
  end.
Definition lastSegment (s : string) : string := lastSegmentFrom "" s.

(** [s.replace(/#/g, '-')] *)
Fixpoint replaceHash (s : string) : string :=
  match s with
  | EmptyString => EmptyString
  | String c r => String (if Ascii.eqb c "#"%char then "-"%char else c) (replaceHash r)
  end.

Definition LEGACY_HOST : string := "s3.fr-par.scw.cloud".

Definition cachePath (folder filename : string) : string :=
  "./images/cache/" +:+ folder +:+ "/" +:+ filename.
Definition cacheDir (folder : string) : string :=
  "./images/cache/" +:+ folder.
Definition origPath (folder filename : string) : string :=
  "./images/orig/" +:+ folder +:+ "/" +:+ filename.

(** ** node:fs on the image tree

    The tree is a map from the path strings the script builds to nodes.
    A path string is a key as it stands: it is not resolved, so a string
    that ends in a slash or in a dot segment is a key of its own, and a
    write does not look at the node of the parent directory.  The map
    follows node:fs for paths whose last component names an entry of its
    directory and whose directory is not a regular file. *)

Definition existsSync (p : string) : M bool :=
  fun w => (Ok (bool_decide (is_Some (fs w !! p))), w).

Definition readFileSync (p : string) : M Buffer :=
  fun w => match fs w !! p with
           | Some (File b) => (Ok b, w)
           | Some Dir => (Throw EISDIR, w)
           | None => (Throw ENOENT, w)
           end.

Definition unlinkSync (p : string) : M unit :=
  fun w => match fs w !! p with
           | Some (File _) => (Ok tt, set_fs (delete p (fs w)) w)
           | Some Dir => (Throw EPERM, w)
           | None => (Throw ENOENT, w)
           end.

Definition writeFileSync (p : string) (file : Buffer) : M unit :=
  fun w => match fs w !! p with
           | Some Dir => (Throw EISDIR, w)
           | _ => (Ok tt, set_fs (<[p := File file]> (fs w)) w)
           end.

Definition mkdirSync (p : string) : M unit :=
  fun w => match fs w !! p with
           | Some (File _) => (Throw EEXIST, w)
           | Some Dir => (Ok tt, w)
           | None => (Ok tt, set_fs (<[p := Dir]> (fs w)) w)
           end.

Definition console_log (line : string) : M unit :=
  modify (fun w => set_console (console w ++ [line]) w).

(** [console.error(prefix, e)] *)
Definition console_error (line : string) (e : Exn) : M unit :=
  console_log (line +:+ exn_name e).

(** A block that may [return] from the enclosing function yields [None];
    otherwise it yields the value the function goes on with. *)
Definition or_return {A} (m : M (option A)) (k : A -> M unit) : M unit :=
  r <- m ;;
  match r with
  | None => ret tt
  | Some a => k a
  end.

Section Migration.

Context (env : Env) (snap : Snapshot).

Definition newURL (s : string) : M URL := lift InvalidURL (parseURL env s).
Definition decodeURI_M (s : string) : M string := lift URIError (decodeURIComponent env s).
Definition encodeURI_M (s : string) : M string := lift URIError (encodeURI env s).

Definition axios_get (url : string) : M Buffer :=
  fun w => match http_get env (trace w) url with
           | Some data => (Ok data, set_trace (trace w ++ [{| ev_call := Get url; ev_ok := true |}]) w)
           | None => (Throw AxiosError, set_trace (trace w ++ [{| ev_call := Get url; ev_ok := false |}]) w)
           end.

Definition axios_post (c : Call) : M string :=
  fun w => match http_post env (trace w) c with
           | Some id => (Ok id, set_trace (trace w ++ [{| ev_call := c; ev_ok := true |}]) w)
           | None => (Throw AxiosError, set_trace (trace w ++ [{| ev_call := c; ev_ok := false |}]) w)
           end.

(** ** Image cache (lines 208-260 of the source) *)

Definition cacheImage (folder filename : string) (file : Buffer) : M unit :=
  e <- existsSync (cacheDir folder) ;;
  (if negb e then mkdirSync (cacheDir folder) else ret tt) ;;
  writeFileSync (cachePath folder filename) file.

Definition findImageInCache (folder filename : string) (isFailed : bool)
  : M (option Buffer) :=
  inCache <- existsSync (cachePath folder filename) ;;
  if inCache then
    if isFailed then
      unlinkSync (cachePath folder filename) ;; ret None
    else
      file <- readFileSync (cachePath folder filename) ;; ret (Some file)
  else
  inOrig <- existsSync (origPath folder filename) ;;
  if inOrig then
    if isFailed then
      unlinkSync (cachePath folder filename) ;; ret None
    else
      file <- readFileSync (origPath folder filename) ;;
      cacheImage folder filename file ;;
      ret (Some file)
  else
  decoded <- decodeURI_M filename ;;
  inOrigDecoded <- existsSync (origPath folder decoded) ;;
  if inOrigDecoded then
    if isFailed then
      unlinkSync (cachePath folder filename) ;; ret None
    else
      file <- readFileSync (origPath folder decoded) ;;
      cacheImage folder filename file ;;
      ret (Some file)
  else ret None.

Definition findCacheOrFetch (folder url : string) (isFailed : bool) : M Buffer :=
  imageUrl <- newURL url ;;
  let filename := lastSegment (pathname imageUrl) in
  cachedFile <- findImageInCache folder filename isFailed ;;
  match cachedFile with
  | Some file => ret file
  | None =>
      encoded <- encodeURI_M url ;;
      data <- axios_get encoded ;;
      cacheImage folder filename data ;;
      ret data
  end.

(** ** Media upload

    The same five lines are written out at every upload site of the
    source: fetch through the cache, append the file to a form under the
    decoded last path segment with [#] replaced, post the form. *)

Definition uploadFile (endpoint : string) (imageUrl : URL) (imageBuffer : Buffer)
  : M string :=
  name <- decodeURI_M (lastSegment (pathname imageUrl)) ;;
  axios_post (PostMedia endpoint (replaceHash name) imageBuffer).

Definition fetchAndUpload (endpoint folder url : string) (imageUrl : URL)
    (isFailed : bool) : M string :=
  imageBuffer <- findCacheOrFetch folder url isFailed ;;
  uploadFile endpoint imageUrl imageBuffer.

Definition SUBMISSION_MEDIA : string := "/api/submission-media".
Definition MEDIA : string := "/api/media".

(** ** migrateSubmission (lines 262-383) *)

Definition with_url (u : string) (n : NewSubmission) : NewSubmission :=
  {| ns_project := ns_project n; ns_type := ns_type n; ns_author := ns_author n;
     ns_subtype := ns_subtype n; ns_message := ns_message n;
     ns_url := Some u; ns_srcIcon := ns_srcIcon n; ns_media := ns_media n |}.
Definition with_srcIcon (i : string) (n : NewSubmission) : NewSubmission :=
  {| ns_project := ns_project n; ns_type := ns_type n; ns_author := ns_author n;
     ns_subtype := ns_subtype n; ns_message := ns_message n;
     ns_url := ns_url n; ns_srcIcon := Some i; ns_media := ns_media n |}.
Definition with_media (i : string) (n : NewSubmission) : NewSubmission :=
  {| ns_project := ns_project n; ns_type := ns_type n; ns_author := ns_author n;
     ns_subtype := ns_subtype n; ns_message := ns_message n;
     ns_url := ns_url n; ns_srcIcon := ns_srcIcon n; ns_media := Some i |}.

Definition push_missing (s : ISubmission) : M unit :=
  modify (fun w => set_missing (missing w ++ [s]) w).
Definition push_failed (oid : string) : M unit :=
  modify (fun w => set_failed (failed w ++ [oid]) w).
Definition push_processed (x : LegacyId) : M unit :=
  modify (fun w => set_mapping
    {| m_guilds := m_guilds (mapping w); m_projects := m_projects (mapping w);
       successfullyProcessed := successfullyProcessed (mapping w) ++ [x] |} w).

(** lines 265-274 *)
Definition initialSubmission (submission : ISubmission) (w : World) : NewSubmission :=
  {| ns_project := m_projects (mapping w) !! s_project submission;
     ns_type := s_type submission;
     ns_author := default "Anonymous" (s_author submission);
     ns_subtype := s_subtype submission;
     ns_message := truthy (s_message submission);
     ns_url := None; ns_srcIcon := None; ns_media := None |}.

(** lines 275-285 *)
Definition videoStep (submission : ISubmission) (newSubmission : NewSubmission)
  : M (option NewSubmission) :=
  match truthy (s_src submission) with
  | Some src =>
      if decide (s_type submission = video) then
        videoUrl <- newURL src ;;
        if decide (host videoUrl = LEGACY_HOST) then
          push_missing submission ;;
          console_log ("Missing video for " +:+ s_oid submission) ;;
          ret None
        else ret (Some (with_url src newSubmission))
      else ret (Some newSubmission)
  | None => ret (Some newSubmission)
  end.

(** The body of the [try] of lines 291-311. *)
Definition iconUpload (submission : ISubmission) (icon : string) (imageUrl : URL)
  : M string :=
  w <- get_world ;;
  fetchAndUpload SUBMISSION_MEDIA (pretty (s_project submission)) icon imageUrl
    (includes (s_oid submission) (failed w)).

(** lines 287-317 *)
Definition iconStep (submission : ISubmission) (newSubmission : NewSubmission)
  : M (option NewSubmission) :=
  match truthy (s_srcIcon submission) with
  | Some icon =>
      imageUrl <- newURL icon ;;
      if decide (host imageUrl ≠ LEGACY_HOST) then
        try_catch
          (id <- iconUpload submission icon imageUrl ;;
           ret (Some (with_srcIcon id newSubmission)))
          (fun e =>
             console_error "Error fetching submission author icon: " e ;;
             ret None)
      else ret (Some newSubmission)
  | None => ret (Some newSubmission)
  end.

(** The body of the [try] of lines 325-365. *)
Definition imageUpload (submission : ISubmission) (imageUrl : URL)
    (newSubmission : NewSubmission) : M (option NewSubmission) :=
  if decide (host imageUrl ≠ LEGACY_HOST) then
    w <- get_world ;;
    id <- fetchAndUpload SUBMISSION_MEDIA (pretty (s_project submission))
            (bang (s_src submission)) imageUrl
            (includes (s_oid submission) (failed w)) ;;
    ret (Some (with_media id newSubmission))
  else
    imageBuffer <- findImageInCache (pretty (s_project submission))
                     (lastSegment (pathname imageUrl)) false ;;
    match imageBuffer with
    | None =>
        console_log ("Nothing found for submission: " +:+ s_oid submission) ;;
        push_missing submission ;;
        ret None
    | Some file =>
        id <- uploadFile SUBMISSION_MEDIA imageUrl file ;;
        ret (Some (with_media id newSubmission))
    end.

(** lines 318-372 *)
Definition imageStep (submission : ISubmission) (newSubmission : NewSubmission)
  : M (option NewSubmission) :=
  if decide (s_type submission = image) then
    imageUrl <- newURL (bang (s_src submission)) ;;
    try_catch
      (imageUpload submission imageUrl newSubmission)
      (fun e =>
         console_log ("Below error is for: " +:+ s_oid submission) ;;
         console_error "Error fetching submission image: " e ;;
         push_failed (s_oid submission) ;;
         ret None)
  else ret (Some newSubmission).

(** lines 374-382 *)
Definition createStep (submission : ISubmission) (newSubmission : NewSubmission)
  : M unit :=
  or_return
    (try_catch
       (axios_post (PostSubmission (s_oid submission) newSubmission) ;; ret (Some tt))
       (fun e =>
          console_log ("Submission creation failed for: " +:+ s_oid submission) ;;
          console_error "" e ;;
          push_failed (s_oid submission) ;;
          ret None))
    (fun _ => push_processed (IdS (s_oid submission))).

Definition migrateSubmission (submission : ISubmission) : M unit :=
  w <- get_world ;;
  if includes (IdS (s_oid submission)) (successfullyProcessed (mapping w)) then ret tt
  else
    or_return (videoStep submission (initialSubmission submission w)) (fun newSubmission =>
    or_return (iconStep submission newSubmission) (fun newSubmission =>
    or_return (imageStep submission newSubmission) (fun newSubmission =>
    createStep submission newSubmission))).

(** ** migrateProject (lines 385-524) *)

Definition with_ogImage (i : string) (n : NewProject) : NewProject :=
  {| np_image := np_image n; np_organizer := np_organizer n;
     np_shortDescription := np_shortDescription n; np_slug := np_slug n;
     np_status := np_status n; np_title := np_title n; np_links := np_links n;
     np_description := np_description n; np_date := np_date n;
     np_devprops := np_devprops n; np_ogImage := Some i; np_media := np_media n |}.
Definition with_project_media (m : list PayloadProjectMedia) (n : NewProject) : NewProject :=
  {| np_image := np_image n; np_organizer := np_organizer n;
     np_shortDescription := np_shortDescription n; np_slug := np_slug n;
     np_status := np_status n; np_title := np_title n; np_links := np_links n;
     np_description := np_description n; np_date := np_date n;
     np_devprops := np_devprops n; np_ogImage := np_ogImage n; np_media := m |}.

(** lines 416-424 *)
Definition devprops (project : IProject) : list (string * DevValue) :=
  match truthy (p_backgroundMusic project) with
  | Some music => [("backgroundMusic", RawValue music)]
  | None => []
  end ++
  match p_credits project with
  | Some credits => [("credits", JsonCredits credits)]
  | None => []
  end ++
  match p_flags project with
  | Some flags => [("flags", JsonFlags flags)]
  | None => []
  end.

(** lines 401-414 *)
Definition initialProject (project : IProject) (description date : string) (w : World)
  : NewProject :=
  {| np_image := DEFAULT_MEDIA env;
     np_organizer := m_guilds (mapping w) !! p_guild project;
     np_shortDescription := p_shortDescription project;
     np_slug := pretty (p_id project);
     np_status := p_status project;
     np_title := p_title project;
     np_links := (fun links => map (fun link => (l_name link, l_link link)) links)
                   <$> p_links project;
     np_description := description;
     np_date := date;
     np_devprops := devprops project;
     np_ogImage := None;
     np_media := [] |}.

(** lines 426-456 *)
Definition ogImageStep (project : IProject) (newProject : NewProject)
  : M (option NewProject) :=
  match truthy (p_ogImage project) with
  | Some og =>
      imageUrl <- newURL og ;;
      if decide (host imageUrl ≠ LEGACY_HOST) then
        try_catch
          (id <- fetchAndUpload MEDIA (pretty (p_id project)) og imageUrl false ;;
           ret (Some (with_ogImage id newProject)))
          (fun e => console_error "Error fetching project icon: " e ;; ret None)
      else ret (Some newProject)
  | None => ret (Some newProject)
  end.

(** One task of [mediaTasks] (lines 464-508). *)
Definition mediaTask (project : IProject) (media : IMedia)
  : M (option PayloadProjectMedia) :=
  match md_type media with
  | video => ret (Some {| pm_type := video; pm_media := None; pm_url := md_src media |})
  | image =>
      imageUrl <- newURL (bang (md_src media)) ;;
      if decide (host imageUrl ≠ LEGACY_HOST) then
        try_catch
          (id <- fetchAndUpload MEDIA (pretty (p_id project)) (bang (md_src media))
                   imageUrl false ;;
           ret (Some {| pm_type := image; pm_media := Some id; pm_url := None |}))
          (fun e => console_error "Error fetching project icon: " e ;; ret None)
      else ret None
  | text => ret None
  end.

(** [await Promise.all(project.media?.map(task) ?? [])].  The tasks are
    run here one after the other in list order; a task that throws (its
    URL does not parse) rejects the whole batch.  The source starts every
    task before it awaits any: how the requests of different tasks
    interleave, and what the other tasks still issue once one has
    rejected, is left out, and the statements about a batch speak of its
    results and of the class of its requests only. *)
Fixpoint all_tasks {A B} (task : A -> M B) (xs : list A) : M (list B) :=
  match xs with
  | [] => ret []
  | x :: rest =>
      y <- task x ;;
      ys <- all_tasks task rest ;;
      ret (y :: ys)
  end.

(** lines 512-516: [post(...).catch(console.error)] followed by the test
    of [PayloadProject?.data]. *)
Definition post_or_log (c : Call) : M (option string) :=
  try_catch (id <- axios_post c ;; ret (Some id))
            (fun e => console_error "" e ;; ret None).

Definition set_project_id (legacy : Z) (id : string) : M unit :=
  modify (fun w => set_mapping
    {| m_guilds := m_guilds (mapping w);
       m_projects := <[legacy := id]> (m_projects (mapping w));
       successfullyProcessed := successfullyProcessed (mapping w) |} w).

Definition set_guild_id (legacy : string) (id : string) : M unit :=
  modify (fun w => set_mapping
    {| m_guilds := <[legacy := id]> (m_guilds (mapping w));
       m_projects := m_projects (mapping w);
       successfullyProcessed := successfullyProcessed (mapping w) |} w).

Definition qualifyingSubmissions (project : IProject) : list ISubmission :=
  filter (fun submission => s_project submission = p_id project) (submissions snap).

Definition migrateProject (project : IProject) : M unit :=
  w <- get_world ;;
  if includes (IdN (p_id project)) (successfullyProcessed (mapping w)) then
    for_each migrateSubmission (qualifyingSubmissions project) ;;
    console_log ("Migrated all submissions for: " +:+ p_title project)
  else
    description <- lift ProcessorError (processMarkdown env (p_description project)) ;;
    date <- lift RangeError (toISOString env (p_date project)) ;;
    w <- get_world ;;
    or_return (ogImageStep project (initialProject project description date w))
    (fun newProject =>
    media <- all_tasks (mediaTask project) (default [] (p_media project)) ;;
    let newProject := with_project_media (omap id media) newProject in
    or_return
      (PayloadProject <- post_or_log (PostProject (p_id project) newProject) ;;
       match PayloadProject with
       | None =>
           console_log ("Failed to create project " +:+ pretty (p_id project)
                        +:+ " in PayloadCMS") ;;
           ret None
       | Some id => ret (Some id)
       end)
    (fun id =>
    set_project_id (p_id project) id ;;
    push_processed (IdN (p_id project)) ;;
    for_each migrateSubmission (qualifyingSubmissions project) ;;
    console_log ("Migrated all submissions for: " +:+ p_title project))).

(** ** migrateGuild (lines 526-590) *)

Definition with_icon (i : string) (n : NewGuild) : NewGuild :=
  {| ng_name := ng_name n; ng_description := ng_description n;
     ng_debutDate := ng_debutDate n; ng_invite := ng_invite n; ng_icon := i |}.

Definition qualifyingProjects (guild : IGuild) : list IProject :=
  filter (fun project => p_guild project = g_id guild) (projects snap).

Definition migrateProjects (guild : IGuild) : M unit :=
  for_each (fun project =>
              migrateProject project ;;
              console_log ("Migrated project " +:+ p_title project))
           (qualifyingProjects guild).

(** lines 549-575 *)
Definition guildIconStep (guild : IGuild) (imageUrl : URL) (newGuild : NewGuild)
  : M (option NewGuild) :=
  if decide (host imageUrl ≠ LEGACY_HOST) then
    try_catch
      (id <- fetchAndUpload MEDIA "guilds" (g_image guild) imageUrl false ;;
       ret (Some (with_icon id newGuild)))
      (fun e => console_error "Error fetching guild icon: " e ;; ret None)
  else ret (Some newGuild).

Definition migrateGuild (guild : IGuild) : M unit :=
  w <- get_world ;;
  if includes (IdS (g_id guild)) (successfullyProcessed (mapping w)) then
    migrateProjects guild
  else
    imageUrl <- newURL (g_image guild) ;;
    debutDate <- lift RangeError (toISOString env (g_debutDate guild)) ;;
    let newGuild :=
      {| ng_name := g_name guild; ng_description := g_description guild;
         ng_debutDate := debutDate; ng_invite := g_invite guild;
         ng_icon := DEFAULT_MEDIA env |} in
    or_return (guildIconStep guild imageUrl newGuild) (fun newGuild =>
    or_return
      (PayloadGuild <- post_or_log (PostGuild (g_id guild) newGuild) ;;
       match PayloadGuild with
       | None =>
           console_log ("Failed to create guild " +:+ g_id guild +:+ " in PayloadCMS") ;;
           ret None
       | Some id => ret (Some id)
       end)
    (fun id =>
    set_guild_id (g_id guild) id ;;
    push_processed (IdS (g_id guild)) ;;
    migrateProjects guild)).

(** ** Flushing and the process life cycle (lines 592-644) *)

(** The two [writeFileSync] calls and the log line shared by the anonymous
    ['exit'] listener and by [exitHandler]. *)
Definition writeIdmapAndMissing (w : World) : World :=
  set_console (console w ++ ["Written id map to disk"])
    (set_disk {| idmap_json := mapping w;
                 missing_json := missing w;
                 failed_json := failed_json (disk w);
                 idmap_auto_json := idmap_auto_json (disk w);
                 missing_auto_json := missing_auto_json (disk w) |} w).

(** Emission of ['exit']: the anonymous listener of line 592, then
    [exitHandler] registered at line 606, whose own [process.exit()] ends
    the process at once since it is already exiting. *)
Definition emitExit (w : World) : World :=
  writeIdmapAndMissing (writeIdmapAndMissing w).

(** [exitHandler] as the listener of SIGINT, SIGUSR1, SIGUSR2 and
    uncaughtException: it writes, then [process.exit()] emits ['exit']. *)
Definition exitHandler (w : World) : World :=
  emitExit (writeIdmapAndMissing w).

(** One tick of the [setInterval] callback of [main]. *)
Definition autoSave (w : World) : World :=
  set_disk {| idmap_json := idmap_json (disk w);
              missing_json := missing_json (disk w);
              failed_json := failed_json (disk w);
              idmap_auto_json := mapping w;
              missing_auto_json := missing w |} w.

(** lines 632-635 *)
Definition writeAll : M unit :=
  modify (fun w =>
    set_disk {| idmap_json := mapping w;
                missing_json := missing w;
                failed_json := failed w;
                idmap_auto_json := idmap_auto_json (disk w);
                missing_auto_json := missing_auto_json (disk w) |} w) ;;
  console_log "Written id map to disk".

Definition main : M unit :=
  console_log "Starting migration" ;;
  for_each (fun guild =>
              migrateGuild guild ;;
              console_log ("Migrated guild " +:+ g_name guild))
           (guilds snap) ;;
  console_log "Done!" ;;
  writeAll.

(** The walk of [main] over the first [k] guilds only: the world the
    process is in while it awaits the first remote call of the guild that
    comes next, when that guild changes nothing before that call. *)
Definition walkedGuilds (k : nat) : M unit :=
  console_log "Starting migration" ;;
  for_each (fun guild =>
              migrateGuild guild ;;
              console_log ("Migrated guild " +:+ g_name guild))
           (take k (guilds snap)).

(** [void main()] to the end of the process.  When [main] returns, the
    event loop drains and ['exit'] is emitted.  When [main] rejects, the
    rejection is unhandled and reaches the uncaughtException listener
    (on a Node version that only warns, the process drains and emits
    ['exit'] instead; the same files are written either way). *)
Definition runProcess (w : World) : Result unit * World :=
  match main w with
  | (Ok tt, w') => (Ok tt, emitExit w')
  | (Throw e, w') => (Throw e, exitHandler w')
  end.

(** A signal that arrives while the walk is at world [w]. *)
Definition interrupt (w : World) : World := exitHandler w.

End Migration.

(** Lines 49-55 and 193-198: the environment check and the loading of the
    accumulators from the data files. *)
Record Config := {
  CMS_URL : option string;
  API_KEY : option string;
  BYPASS_KEY : option string;
  DEFAULT_MEDIA_var : option string;
}.

Definition checkEnv (c : Config) : bool :=
  bool_decide (is_Some (truthy (CMS_URL c)) ∧ is_Some (truthy (API_KEY c))
               ∧ is_Some (truthy (BYPASS_KEY c)) ∧ is_Some (truthy (DEFAULT_MEDIA_var c))).

Definition load (w : World) : World :=
  {| mapping := idmap_json (disk w);
     failed := failed_json (disk w);
     missing := [];
     fs := fs w; disk := disk w; trace := trace w; console := [] |}.

(** One invocation of the script on what the previous one left behind. *)
Definition script (c : Config) (env : Env) (snap : Snapshot) (w : World)
  : Result unit * World :=
  if checkEnv c then runProcess env snap (load w) else (Throw ConfigError, w).

(** * A concrete environment for the examples *)

Module Sample.

(** [new URL] on strings of the form [scheme://host/path] without query or
    fragment, which is what the examples use.  A string without a scheme,
    such as ["not a url"] or ["undefined"], is rejected, as the real
    parser rejects a relative reference given without a base. *)
Definition simpleURL (s : string) : option URL :=
  match String.index 0 "://" s with
  | Some (S n) =>
      let rest := String.substring (S n + 3) (String.length s - (S n + 3)) s in
      match String.index 0 "/" rest with
      | Some 0 => None
      | Some k =>
          Some {| host := String.substring 0 k rest;
                  pathname := String.substring k (String.length rest - k) rest |}
      | None =>
          if decide (rest = "") then None
          else Some {| host := rest; pathname := "/" |}
      end
  | _ => None
  end.

(** [decodeURIComponent] and [encodeURI] on strings without [%] and with
    URL-safe ASCII characters only, where both are the identity. *)
Definition noPercent (s : string) : option string :=
  match String.index 0 "%" s with
  | Some _ => None
  | None => Some s
  end.

(** The one date of the example snapshot. *)
Definition exampleDate (s : string) : option string :=
  if decide (s = "1609459200000") then Some "2021-01-01T00:00:00.000Z" else None.

Definition exampleEnv (get : list Event -> string -> option Buffer)
    (post : list Event -> Call -> option string) : Env :=
  {| parseURL := simpleURL;
     decodeURIComponent := noPercent;
     encodeURI := noPercent;
     toISOString := exampleDate;
     processMarkdown := Some;
     http_get := get;
     http_post := post;
     DEFAULT_MEDIA := "default-media-id" |}.

Definition emptyMapping : IMapping :=
  {| m_guilds := ∅; m_projects := ∅; successfullyProcessed := [] |}.

Definition emptyDisk : Disk :=
  {| idmap_json := emptyMapping; missing_json := []; failed_json := [];
     idmap_auto_json := emptyMapping; missing_auto_json := [] |}.

(** The state of a first run: [idmap.empty.json], an empty [failed.json],
    no image on disk. *)
Definition freshWorld : World :=
  {| mapping := emptyMapping; failed := []; missing := [];
     fs := ∅; disk := emptyDisk; trace := []; console := [] |}.

(** A remote side that accepts everything and one that rejects the
    creation of submissions only. *)
Definition getNothing : list Event -> string -> option Buffer := fun _ _ => None.
Definition getBytes (b : Buffer) : list Event -> string -> option Buffer :=
  fun _ _ => Some b.
Definition postAccepts : list Event -> Call -> option string :=
  fun t _ => Some ("doc" +:+ pretty (length t)).
Definition postRejectsSubmissions : list Event -> Call -> option string :=
  fun t c => match c with
             | PostSubmission _ _ => None
             | _ => Some ("doc" +:+ pretty (length t))
             end.

Definition textSubmission : ISubmission :=
  {| s_oid := "64a0"; s_project := 7; s_author := Some "Ina"; s_srcIcon := None;
     s_type := text; s_subtype := None; s_src := None;
     s_message := Some "otsu" |}.

(** Accepts everything but the first creation of a submission: the one
    attempted while fewer than three calls have been made. *)
Definition postFlaky : list Event -> Call -> option string :=
  fun t c => match c with
             | PostSubmission _ _ =>
                 if decide (length t < 3)%nat then None
                 else Some ("doc" +:+ pretty (length t))
             | _ => Some ("doc" +:+ pretty (length t))
             end.
Definition postRejectsProjects : list Event -> Call -> option string :=
  fun t c => match c with
             | PostProject _ _ => None
             | _ => Some ("doc" +:+ pretty (length t))
             end.

Definition guild1 : IGuild :=
  {| g_id := "g1"; g_name := "Guild One"; g_description := "first";
     g_image := "https://s3.fr-par.scw.cloud/hefw/g1.png";
     g_invite := "abc"; g_debutDate := "1609459200000"; g_color := None |}.

(** A guild whose icon is not a URL. *)
Definition guild0 : IGuild :=
  {| g_id := "g0"; g_name := "Guild Zero"; g_description := "broken icon";
     g_image := "not a url";
     g_invite := "xyz"; g_debutDate := "1609459200000"; g_color := None |}.

Definition project7 : IProject :=
  {| p_id := 7; p_status := past; p_guild := "g1"; p_media := None;
     p_title := "Seven"; p_shortDescription := "short"; p_description := "long";
     p_links := None; p_date := "1609459200000"; p_flags := None;
     p_ogImage := None; p_backgroundMusic := None; p_credits := None |}.

(** An image submission without [src]. *)
Definition imageWithoutSrc : ISubmission :=
  {| s_oid := "64a9"; s_project := 7; s_author := None; s_srcIcon := None;
     s_type := image; s_subtype := Some artwork; s_src := None;
     s_message := None |}.

Definition legacyImage : ISubmission :=
  {| s_oid := "64a1"; s_project := 7; s_author := None; s_srcIcon := None;
     s_type := image; s_subtype := Some artwork;
     s_src := Some "https://s3.fr-par.scw.cloud/hefw/a.png";
     s_message := None |}.

Definition remoteImage : ISubmission :=
  {| s_oid := "64a2"; s_project := 7; s_author := None; s_srcIcon := None;
     s_type := image; s_subtype := Some picture;
     s_src := Some "https://cdn.example.org/pics/b.png";
     s_message := None |}.

Definition legacyVideo : ISubmission :=
  {| s_oid := "64a3"; s_project := 7; s_author := None; s_srcIcon := None;
     s_type := video; s_subtype := None;
     s_src := Some "https://s3.fr-par.scw.cloud/hefw/v.mp4";
     s_message := None |}.

(** A video hosted off the legacy host. *)
Definition remoteVideo : ISubmission :=
  {| s_oid := "64a5"; s_project := 7; s_author := Some "Gura"; s_srcIcon := None;
     s_type := video; s_subtype := None;
     s_src := Some "https://video.example.org/watch/v1";
     s_message := None |}.

Definition textWithIcon : ISubmission :=
  {| s_oid := "64a4"; s_project := 7; s_author := Some "Kiara";
     s_srcIcon := Some "https://cdn.example.org/icons/i.png";
     s_type := text; s_subtype := None; s_src := None;
     s_message := Some "kikkeriki" |}.

Definition snapshot1 : Snapshot :=
  {| guilds := [guild1]; projects := [project7]; submissions := [textSubmission] |}.

(** The guild with the broken icon comes first. *)
Definition snapshot2 : Snapshot :=
  {| guilds := [guild0; guild1]; projects := [project7];
     submissions := [textSubmission] |}.

(** The image without [src] comes before its sibling. *)
Definition snapshot3 : Snapshot :=
  {| guilds := [guild1]; projects := [project7];
     submissions := [imageWithoutSrc; textSubmission] |}.

Definition config : Config :=
  {| CMS_URL := Some "http://localhost:3000"; API_KEY := Some "key";
     BYPASS_KEY := Some "bypass"; DEFAULT_MEDIA_var := Some "default-media-id" |}.

(** ** Environments *)

Definition rejectingEnv : Env := exampleEnv getNothing postRejectsSubmissions.
Definition acceptingEnv : Env := exampleEnv getNothing postAccepts.
Definition flakyEnv : Env := exampleEnv getNothing postFlaky.
Definition projectRejectingEnv : Env := exampleEnv getNothing postRejectsProjects.

Definition stale : Buffer := [Byte.x01; Byte.x02].
Definition fresh : Buffer := [Byte.x03; Byte.x04].

(** Every GET answers [fresh]. *)
Definition fetchingEnv : Env := exampleEnv (getBytes fresh) postAccepts.

(** ** Worlds *)

(** Only the originals directory holds [a.png] of project 7. *)
Definition origOnlyWorld : World :=
  set_fs {[ origPath "7" "a.png" := File stale ]} freshWorld.

(** [legacyImage] and [remoteImage] are in the Failed set and both have a
    stale file in the cache of project 7. *)
Definition staleWorld : World :=
  set_failed ["64a1"; "64a2"]
    (set_fs {[ cachePath "7" "a.png" := File stale;
               cachePath "7" "b.png" := File stale ]} freshWorld).

(** What an earlier run left behind: guild [g1] and project 7 are created
    and processed, the submission [64a1] is in [failed.json] (its upload
    or its creation was rejected), and its image is in the cache. *)
Definition resumedDisk : Disk :=
  {| idmap_json :=
       {| m_guilds := {[ "g1" := "doc0" ]};
          m_projects := {[ 7%Z := "doc1" ]};
          successfullyProcessed := [IdS "g1"; IdN 7] |};
     missing_json := [];
     failed_json := ["64a1"];
     idmap_auto_json := emptyMapping;
     missing_auto_json := [] |}.

Definition resumedWorld : World :=
  {| mapping := emptyMapping; failed := []; missing := [];
     fs := {[ cachePath "7" "a.png" := File stale ]};
     disk := resumedDisk; trace := []; console := [] |}.

(** ** More snapshots *)

(** A guild whose icon has to be fetched. *)
Definition guild2 : IGuild :=
  {| g_id := "g2"; g_name := "Guild Two"; g_description := "second";
     g_image := "https://cdn.example.org/icons/g2.png";
     g_invite := "def"; g_debutDate := "1609459200000"; g_color := None |}.

Definition snapshot4 : Snapshot :=
  {| guilds := [guild1; guild2]; projects := [project7];
     submissions := [textSubmission] |}.

Definition snapshot5 : Snapshot :=
  {| guilds := [guild1]; projects := [project7]; submissions := [legacyImage] |}.

(** The world of a first run over [snapshot4] once [guild1] is walked, the
    creation of its submission having been rejected: the GET of the icon
    of [guild2] is awaited. *)
Definition midWalk : World :=
  (walkedGuilds rejectingEnv snapshot4 1 (load freshWorld)).2.

(** ** Requests *)

Definition acceptedSubmission : Event :=
  {| ev_call :=
       PostSubmission "64a0"
         {| ns_project := Some "doc1"; ns_type := text; ns_author := "Ina";
            ns_subtype := None; ns_message := Some "otsu"; ns_url := None;
            ns_srcIcon := None; ns_media := None |};
     ev_ok := true |}.

Definition project7Body : NewProject :=
  with_project_media []
    (initialProject projectRejectingEnv project7 "long" "2021-01-01T00:00:00.000Z"
       freshWorld).

End Sample.

(** * Vocabulary of the statements *)

(** ** Relations between the world before and after *)

(** Every run of [m] takes a world to one related to it by [R], whatever
    the result. *)
Definition stays {A} (R : relation World) (m : M A) : Prop :=
  forall w, R w (m w).2.

(** The accumulators and the data files are untouched. *)
Definition Stores (w w' : World) : Prop :=
  mapping w' = mapping w /\ failed w' = failed w /\
  missing w' = missing w /\ disk w' = disk w.

(** The log of remote calls grew by events that all satisfy [P]. *)
Definition Ext (P : Event -> Prop) (w w' : World) : Prop :=
  exists evs, trace w' = trace w ++ evs /\ Forall P evs.

Definition Quiet (P : Event -> Prop) (w w' : World) : Prop :=
  Stores w w' /\ Ext P w w'.

(** The mapping and the data files are untouched; [failed] and [missing]
    may have grown. *)
Definition Pre (P : Event -> Prop) (w w' : World) : Prop :=
  mapping w' = mapping w /\ disk w' = disk w /\ Ext P w w'.

(** ** Classes of remote calls *)

Definition is_media (e : Event) : Prop :=
  match ev_call e with Get _ | PostMedia _ _ _ => True | _ => False end.

(** The legacy id an entity-creation call is issued for. *)
Definition created_id (c : Call) : option LegacyId :=
  match c with
  | PostGuild legacy _ => Some (IdS legacy)
  | PostProject legacy _ => Some (IdN legacy)
  | PostSubmission legacy _ => Some (IdS legacy)
  | Get _ | PostMedia _ _ _ => None
  end.

(** Requests of the project blocks: GETs and uploads to [/api/media]. *)
Definition project_media (e : Event) : Prop :=
  match ev_call e with
  | Get _ => True
  | PostMedia endpoint _ _ => endpoint = MEDIA
  | _ => False
  end.

(** Requests that a walk over submissions can cause. *)
Definition submission_traffic (e : Event) : Prop :=
  match ev_call e with
  | Get _ | PostSubmission _ _ => True
  | PostMedia endpoint _ _ => endpoint = SUBMISSION_MEDIA
  | PostGuild _ _ | PostProject _ _ => False
  end.

(** ** The processed list along the walk *)

Definition processed (w : World) : list LegacyId :=
  successfullyProcessed (mapping w).

(** The processed list only grew, and every entity-creation call issued
    in between was for an id that was not processed before; an accepted
    one is for an id that is processed afterwards. *)
Definition Walk (w w' : World) : Prop :=
  (forall x, x ∈ processed w -> x ∈ processed w') /\
  exists evs, trace w' = trace w ++ evs /\
    forall e x, In e evs -> created_id (ev_call e) = Some x ->
                (x ∉ processed w) /\ (ev_ok e = true -> x ∈ processed w').

Section Vocabulary.

Context (env : Env) (snap : Snapshot).

(** The lookup misses: nothing in the cache, nothing in the originals
    under the raw or the decoded name. *)
Definition lookup_misses (folder filename : string) (w : World) : Prop :=
  fs w !! cachePath folder filename = None /\
  fs w !! origPath folder filename = None /\
  exists decoded, decodeURIComponent env filename = Some decoded /\
                  fs w !! origPath folder decoded = None.

(** The requests of the author-icon block contained in a class [P]. *)
Definition icon_requests (submission : ISubmission) (P : Event -> Prop) : Prop :=
  (forall icon u enc b, truthy (s_srcIcon submission) = Some icon ->
                        parseURL env icon = Some u ->
                        host u <> LEGACY_HOST ->
                        encodeURI env icon = Some enc ->
                        P {| ev_call := Get enc; ev_ok := b |}) /\
  (forall name file b,
     P {| ev_call := PostMedia SUBMISSION_MEDIA name file; ev_ok := b |}).

(** The requests of the main-image block contained in a class [P]: a GET
    only off the legacy host. *)
Definition image_requests (submission : ISubmission) (P : Event -> Prop) : Prop :=
  (forall u enc b, s_type submission = image ->
                   parseURL env (bang (s_src submission)) = Some u ->
                   host u <> LEGACY_HOST ->
                   encodeURI env (bang (s_src submission)) = Some enc ->
                   P {| ev_call := Get enc; ev_ok := b |}) /\
  (forall name file b,
     P {| ev_call := PostMedia SUBMISSION_MEDIA name file; ev_ok := b |}).

(** A GET is for the author icon of [s], which is off the legacy host; any
    other call is a media upload or the creation of the submission. *)
Definition only_icon_get (s : ISubmission) (e : Event) : Prop :=
  match ev_call e with
  | Get url => exists icon u, truthy (s_srcIcon s) = Some icon /\
                              parseURL env icon = Some u /\
                              host u <> LEGACY_HOST /\
                              encodeURI env icon = Some url
  | PostMedia _ _ _ | PostSubmission _ _ => True
  | PostGuild _ _ | PostProject _ _ => False
  end.

(** The video block lets the submission through: it is not a video with a
    source, or its source is not on the legacy host. *)
Definition video_passes (s : ISubmission) : Prop :=
  match truthy (s_src s) with
  | Some src =>
      s_type s = video ->
      exists v, parseURL env src = Some v /\ host v <> LEGACY_HOST
  | None => True
  end.

(** The ways a call of [migrateSubmission] can go. *)
Inductive submission_outcome (s : ISubmission) (w : World)
  : Result unit -> World -> Prop :=
| skipped_processed :
    IdS (s_oid s) ∈ successfullyProcessed (mapping w) ->
    submission_outcome s w (Ok tt) w
| stopped_early r w' :
    IdS (s_oid s) ∉ successfullyProcessed (mapping w) ->
    Pre is_media w w' ->
    submission_outcome s w r w'
| creation_accepted n1 w1 n w' :
    IdS (s_oid s) ∉ successfullyProcessed (mapping w) ->
    videoStep env s (initialSubmission s w) w = (Ok (Some n1), w) ->
    ns_url n = ns_url n1 ->
    Quiet is_media w w1 ->
    trace w' = trace w1 ++ [{| ev_call := PostSubmission (s_oid s) n; ev_ok := true |}] ->
    successfullyProcessed (mapping w') =
      successfullyProcessed (mapping w1) ++ [IdS (s_oid s)] ->
    m_guilds (mapping w') = m_guilds (mapping w1) ->
    m_projects (mapping w') = m_projects (mapping w1) ->
    failed w' = failed w1 -> missing w' = missing w1 -> disk w' = disk w1 ->
    submission_outcome s w (Ok tt) w'
| creation_rejected n1 w1 n w' :
    IdS (s_oid s) ∉ successfullyProcessed (mapping w) ->
    videoStep env s (initialSubmission s w) w = (Ok (Some n1), w) ->
    ns_url n = ns_url n1 ->
    Quiet is_media w w1 ->
    trace w' = trace w1 ++ [{| ev_call := PostSubmission (s_oid s) n; ev_ok := false |}] ->
    mapping w' = mapping w1 ->
    failed w' = failed w1 ++ [s_oid s] -> missing w' = missing w1 ->
    disk w' = disk w1 ->
    submission_outcome s w (Ok tt) w'.

(** The loop over the submissions of a project and the log line after it
    (lines 389-392 and 520-523). *)
Definition walkSubmissions (p : IProject) : M unit :=
  for_each (migrateSubmission env) (qualifyingSubmissions snap p) ;;
  console_log ("Migrated all submissions for: " +:+ p_title p).

(** The ways a call of [migrateProject] can go. *)
Inductive project_outcome (p : IProject) (w : World) : Result unit -> World -> Prop :=
| project_walked r w' :
    IdN (p_id p) ∈ successfullyProcessed (mapping w) ->
    walkSubmissions p w = (r, w') ->
    project_outcome p w r w'
| project_stopped r w' :
    IdN (p_id p) ∉ successfullyProcessed (mapping w) ->
    Quiet project_media w w' ->
    project_outcome p w r w'
| project_rejected w1 n w' :
    IdN (p_id p) ∉ successfullyProcessed (mapping w) ->
    Quiet project_media w w1 ->
    trace w' = trace w1 ++ [{| ev_call := PostProject (p_id p) n; ev_ok := false |}] ->
    Stores w1 w' ->
    project_outcome p w (Ok tt) w'
| project_accepted w1 n id w2 r w' :
    IdN (p_id p) ∉ successfullyProcessed (mapping w) ->
    Quiet project_media w w1 ->
    trace w2 = trace w1 ++ [{| ev_call := PostProject (p_id p) n; ev_ok := true |}] ->
    mapping w2 =
      {| m_guilds := m_guilds (mapping w1);
         m_projects := <[p_id p := id]> (m_projects (mapping w1));
         successfullyProcessed := successfullyProcessed (mapping w1) ++ [IdN (p_id p)] |} ->
    failed w2 = failed w1 -> missing w2 = missing w1 -> disk w2 = disk w1 ->
    walkSubmissions p w2 = (r, w') ->
    project_outcome p w r w'.

End Vocabulary.

(** * Vocabulary of the further properties *)

(** The character [c] occurs in [s]. *)
Fixpoint has_char (c : ascii) (s : string) : bool :=
  match s with
  | EmptyString => false
  | String d r => Ascii.eqb d c || has_char c r
  end.

(** The fields a creation request takes over from the legacy record are
    the same in [n] and [n']. *)
Definition same_base (n n' : NewSubmission) : Prop :=
  ns_project n = ns_project n' /\ ns_type n = ns_type n' /\
  ns_author n = ns_author n' /\ ns_subtype n = ns_subtype n' /\
  ns_message n = ns_message n'.

(** The accumulators only grow: the lists are extended at their end, the
    two id maps keep their keys, the request log is extended. *)
Definition Grow (w w' : World) : Prop :=
  failed w `prefix_of` failed w' /\
  missing w `prefix_of` missing w' /\
  successfullyProcessed (mapping w) `prefix_of` successfullyProcessed (mapping w') /\
  dom (m_guilds (mapping w)) ⊆@{gset string} dom (m_guilds (mapping w')) /\
  dom (m_projects (mapping w)) ⊆@{gset Z} dom (m_projects (mapping w')) /\
  trace w `prefix_of` trace w'.

(** Every project id in the processed list has an entry in
    [mapping.projects]. *)
Definition ProjInv (w : World) : Prop :=
  forall n, IdN n ∈ successfullyProcessed (mapping w) ->
            is_Some (m_projects (mapping w) !! n).

(** A request that creates a submission names a project. *)
Definition has_project (e : Event) : Prop :=
  match ev_call e with
  | PostSubmission _ n => is_Some (ns_project n)
  | _ => True
  end.

(** From a world where the invariant holds and project [pid] is
    processed, to one where both still hold, by requests that name a
    project. *)
Definition LinkedTo (pid : Z) (w w' : World) : Prop :=
  ProjInv w /\ IdN pid ∈ successfullyProcessed (mapping w) ->
  (ProjInv w' /\ IdN pid ∈ successfullyProcessed (mapping w')) /\
  Ext has_project w w'.

Definition Linked (w w' : World) : Prop :=
  ProjInv w -> ProjInv w' /\ Ext has_project w w'.

(** Any request but the creation of a guild. *)
Definition not_guild_creation (e : Event) : Prop :=
  match ev_call e with PostGuild _ _ => False | _ => True end.


(** The data files are as they were. *)
Definition SameDisk (w w' : World) : Prop := disk w' = disk w.


(** * Further example data *)

Module Cases.

Import Sample.




(** A remote side that rejects the creation of guilds only. *)
Definition postRejectsGuilds : list Event -> Call -> option string :=
  fun t c => match c with
             | PostGuild _ _ => None
             | _ => Some ("doc" +:+ pretty (length t))
             end.

Definition guildRejectingEnv : Env := exampleEnv getNothing postRejectsGuilds.

(** The accumulators of a resumed run once the data files are loaded. *)
Definition resumedStart : World := load resumedWorld.

Definition textBody : NewSubmission :=
  {| ns_project := Some "doc1"; ns_type := text; ns_author := "Ina";
     ns_subtype := None; ns_message := Some "otsu"; ns_url := None;
     ns_srcIcon := None; ns_media := None |}.

Definition guild1Body : NewGuild :=
  {| ng_name := "Guild One"; ng_description := "first";
     ng_debutDate := "2021-01-01T00:00:00.000Z"; ng_invite := "abc";
     ng_icon := "default-media-id" |}.

Definition clip1 : IMedia :=
  {| md_oid := "m1"; md_type := video;
     md_src := Some "https://youtu.be/one"; md_message := None |}.


Definition picture1 : IMedia :=
  {| md_oid := "m3"; md_type := image;
     md_src := Some "https://cdn.example.org/pics/p.png"; md_message := None |}.

(** The guild with the broken icon comes last. *)
Definition snapshot6 : Snapshot :=
  {| guilds := [guild1; guild0]; projects := [project7];
     submissions := [textSubmission] |}.

End Cases.

(** * Reasoning about monadic code *)

Section Frames.

(** ** Inversion of the monad's combinators *)

Lemma bind_inv {A B} (m : M A) (k : A -> M B) w r w' :
  bind m k w = (r, w') ->
  (exists a w1, m w = (Ok a, w1) /\ k a w1 = (r, w')) \/
  (exists e, m w = (Throw e, w') /\ r = Throw e).
Proof.
  unfold bind. destruct (m w) as [[a|e] w1]; intros H.
  - left. eauto.
  - right. inversion H; subst. eauto.
Qed.

Lemma try_catch_inv {A} (m : M A) (h : Exn -> M A) w r w' :
  try_catch m h w = (r, w') ->
  (exists a, m w = (Ok a, w') /\ r = Ok a) \/
  (exists e w1, m w = (Throw e, w1) /\ h e w1 = (r, w')).
Proof.
  unfold try_catch. destruct (m w) as [[a|e] w1]; intros H.
  - left. inversion H; subst. eauto.
  - right. eauto.
Qed.

Lemma or_return_inv {A} (m : M (option A)) (k : A -> M unit) w r w' :
  or_return m k w = (r, w') ->
  (exists a w1, m w = (Ok (Some a), w1) /\ k a w1 = (r, w')) \/
  (m w = (Ok None, w') /\ r = Ok tt) \/
  (exists e, m w = (Throw e, w') /\ r = Throw e).
Proof.
  unfold or_return. intros H. apply bind_inv in H as [(a & w1 & Hm & Hk)|(e & Hm & ->)].
  - destruct a as [a|].
    + left. eauto.
    + right. left. inversion Hk; subst. auto.
  - right. right. eauto.
Qed.

Lemma lift_inv {A} (e : Exn) (o : option A) w r w' :
  lift e o w = (r, w') ->
  w' = w /\ ((exists a, o = Some a /\ r = Ok a) \/ (o = None /\ r = Throw e)).
Proof.
  destruct o; cbn; intros H; inversion H; subst; eauto.
Qed.

(** ** Running a [bind] forward *)

Lemma bind_ok {A B} (m : M A) (k : A -> M B) w a w1 :
  m w = (Ok a, w1) -> bind m k w = k a w1.
Proof. unfold bind. now intros ->. Qed.

Lemma bind_thrown {A B} (m : M A) (k : A -> M B) w e w1 :
  m w = (Throw e, w1) -> bind m k w = (Throw e, w1).
Proof. unfold bind. now intros ->. Qed.

Lemma bind_lift_some {A B} (e : Exn) (o : option A) (k : A -> M B) w a :
  o = Some a -> bind (lift e o) k w = k a w.
Proof. now intros ->. Qed.

Lemma bind_lift_none {A B} (e : Exn) (o : option A) (k : A -> M B) w :
  o = None -> bind (lift e o) k w = (Throw e, w).
Proof. now intros ->. Qed.

Lemma or_return_some {A} (m : M (option A)) (k : A -> M unit) w a w1 :
  m w = (Ok (Some a), w1) -> or_return m k w = k a w1.
Proof. unfold or_return, bind. now intros ->. Qed.

Lemma or_return_none {A} (m : M (option A)) (k : A -> M unit) w w1 :
  m w = (Ok None, w1) -> or_return m k w = (Ok tt, w1).
Proof. unfold or_return, bind. now intros ->. Qed.

Lemma or_return_thrown {A} (m : M (option A)) (k : A -> M unit) w e w1 :
  m w = (Throw e, w1) -> or_return m k w = (Throw e, w1).
Proof. unfold or_return, bind. now intros ->. Qed.

Lemma try_catch_ok {A} (m : M A) (h : Exn -> M A) w a w1 :
  m w = (Ok a, w1) -> try_catch m h w = (Ok a, w1).
Proof. unfold try_catch. now intros ->. Qed.

Lemma try_catch_thrown {A} (m : M A) (h : Exn -> M A) w e w1 :
  m w = (Throw e, w1) -> try_catch m h w = h e w1.
Proof. unfold try_catch. now intros ->. Qed.

Lemma bind_get_world {B} (k : World -> M B) w :
  bind get_world k w = k w w.
Proof. reflexivity. Qed.

Lemma bind_modify {B} (f : World -> World) (k : unit -> M B) w :
  bind (modify f) k w = k tt (f w).
Proof. reflexivity. Qed.

Lemma bind_console_log {B} line (k : unit -> M B) w :
  bind (console_log line) k w = k tt (set_console (console w ++ [line]) w).
Proof. reflexivity. Qed.

(** ** Relations between the world before and after *)

Lemma stays_run {A} (R : relation World) (m : M A) w r w' :
  stays R m -> m w = (r, w') -> R w w'.
Proof. intros H E. specialize (H w). now rewrite E in H. Qed.

Section Stays.

Context (R : relation World) `{!PreOrder R}.

Lemma stays_ret {A} (a : A) : stays R (ret a).
Proof. intros w. reflexivity. Qed.

Lemma stays_throw {A} (e : Exn) : stays R (@throw A e).
Proof. intros w. reflexivity. Qed.

Lemma stays_lift {A} (e : Exn) (o : option A) : stays R (lift e o).
Proof. destruct o; [apply stays_ret | apply stays_throw]. Qed.

Lemma stays_get_world : stays R get_world.
Proof. intros w. reflexivity. Qed.

Lemma stays_bind {A B} (m : M A) (k : A -> M B) :
  stays R m -> (forall a, stays R (k a)) -> stays R (bind m k).
Proof.
  intros Hm Hk w. unfold bind. specialize (Hm w).
  destruct (m w) as [[a|e] w1]; cbn in *; [|done].
  etrans; [exact Hm | apply Hk].
Qed.

Lemma stays_try_catch {A} (m : M A) (h : Exn -> M A) :
  stays R m -> (forall e, stays R (h e)) -> stays R (try_catch m h).
Proof.
  intros Hm Hh w. unfold try_catch. specialize (Hm w).
  destruct (m w) as [[a|e] w1]; cbn in *; [done|].
  etrans; [exact Hm | apply Hh].
Qed.

Lemma stays_or_return {A} (m : M (option A)) (k : A -> M unit) :
  stays R m -> (forall a, stays R (k a)) -> stays R (or_return m k).
Proof.
  intros Hm Hk. apply stays_bind; [done|]. intros [a|]; [apply Hk | apply stays_ret].
Qed.

Lemma stays_for_each {A} (f : A -> M unit) (xs : list A) :
  (forall x, stays R (f x)) -> stays R (for_each f xs).
Proof.
  intros Hf. induction xs as [|x xs IH]; cbn.
  - apply stays_ret.
  - apply stays_bind; [apply Hf | intros _; exact IH].
Qed.

Lemma stays_all_tasks {A B} (f : A -> M B) (xs : list A) :
  (forall x, stays R (f x)) -> stays R (all_tasks f xs).
Proof.
  intros Hf. induction xs as [|x xs IH]; cbn.
  - apply stays_ret.
  - apply stays_bind; [apply Hf | intros y].
    apply stays_bind; [exact IH | intros ys; apply stays_ret].
Qed.

Lemma stays_bind_lift {A B} (e : Exn) (o : option A) (k : A -> M B) :
  (forall a, o = Some a -> stays R (k a)) -> stays R (bind (lift e o) k).
Proof.
  intros Hk. destruct o as [a|]; cbn.
  - intros w. apply (Hk a eq_refl).
  - intros w. reflexivity.
Qed.

Lemma stays_modify (f : World -> World) :
  (forall w, R w (f w)) -> stays R (modify f).
Proof. intros H w. apply H. Qed.

End Stays.

Lemma stays_mono {A} (R R' : relation World) (m : M A) :
  (forall w w', R w w' -> R' w w') -> stays R m -> stays R' m.
Proof. intros H Hm w. apply H, Hm. Qed.

#[global] Instance Stores_preorder : PreOrder Stores.
Proof.
  split.
  - intros w. repeat split.
  - intros w1 w2 w3 (a & b & c & d) (a' & b' & c' & d').
    repeat split; congruence.
Qed.

#[global] Instance Ext_preorder P : PreOrder (Ext P).
Proof.
  split.
  - intros w. exists []. split; [now rewrite app_nil_r | constructor].
  - intros w1 w2 w3 (e1 & H1 & F1) (e2 & H2 & F2).
    exists (e1 ++ e2). split.
    + rewrite H2, H1. now rewrite app_assoc.
    + apply Forall_app; auto.
Qed.

#[global] Instance Quiet_preorder P : PreOrder (Quiet P).
Proof.
  split.
  - intros w. split; reflexivity.
  - intros w1 w2 w3 [S1 E1] [S2 E2]. split; etrans; eauto.
Qed.

Lemma Ext_mono (P Q : Event -> Prop) w w' :
  (forall e, P e -> Q e) -> Ext P w w' -> Ext Q w w'.
Proof.
  intros H (evs & E & F). exists evs. split; [done|].
  eapply Forall_impl; eauto.
Qed.

Lemma Quiet_mono (P Q : Event -> Prop) w w' :
  (forall e, P e -> Q e) -> Quiet P w w' -> Quiet Q w w'.
Proof. intros H [S E]. split; [done|]. eapply Ext_mono; eauto. Qed.

Lemma Ext_events P w w' evs :
  Ext P w w' -> trace w' = trace w ++ evs -> Forall P evs.
Proof.
  intros (evs' & E & F) E'. rewrite E in E'.
  apply app_inv_head in E'. now subst.
Qed.

Lemma Ext_same P w w' : trace w' = trace w -> Ext P w w'.
Proof. intros E. exists []. split; [now rewrite app_nil_r | constructor]. Qed.

Lemma Quiet_same P w w' :
  Stores w w' -> trace w' = trace w -> Quiet P w w'.
Proof.
  intros S E. split; [done|]. exists []. split; [now rewrite app_nil_r | constructor].
Qed.

Lemma Quiet_one P w w' e :
  Stores w w' -> trace w' = trace w ++ [e] -> P e -> Quiet P w w'.
Proof.
  intros S E HP. split; [done|]. exists [e]. split; [done | repeat constructor; done].
Qed.

End Frames.

(** * The image cache and the uploads leave the accumulators alone

    Each lemma holds for every class [P] of events that contains the
    events the operation can emit. *)

Section CacheFrames.

Context (env : Env) (P : Event -> Prop).

Lemma stays_existsSync p : stays (Quiet P) (existsSync p).
Proof. intros w. reflexivity. Qed.

Lemma stays_readFileSync p : stays (Quiet P) (readFileSync p).
Proof.
  intros w. unfold readFileSync. destruct (fs w !! p) as [[b|]|]; reflexivity.
Qed.

Lemma stays_unlinkSync p : stays (Quiet P) (unlinkSync p).
Proof.
  intros w. unfold unlinkSync.
  destruct (fs w !! p) as [[b|]|]; try reflexivity. now apply Quiet_same.
Qed.

Lemma stays_writeFileSync p file : stays (Quiet P) (writeFileSync p file).
Proof.
  intros w. unfold writeFileSync.
  destruct (fs w !! p) as [[b|]|]; try reflexivity; now apply Quiet_same.
Qed.

Lemma stays_mkdirSync p : stays (Quiet P) (mkdirSync p).
Proof.
  intros w. unfold mkdirSync.
  destruct (fs w !! p) as [[b|]|]; try reflexivity; now apply Quiet_same.
Qed.

Lemma stays_console_log line : stays (Quiet P) (console_log line).
Proof. intros w. now apply Quiet_same. Qed.

Lemma stays_console_error line e : stays (Quiet P) (console_error line e).
Proof. apply stays_console_log. Qed.

Lemma stays_axios_get url :
  (forall b, P {| ev_call := Get url; ev_ok := b |}) ->
  stays (Quiet P) (axios_get env url).
Proof.
  intros HP w. unfold axios_get.
  destruct (http_get env (trace w) url); cbn; eapply Quiet_one; done.
Qed.

Lemma stays_axios_post c :
  (forall b, P {| ev_call := c; ev_ok := b |}) ->
  stays (Quiet P) (axios_post env c).
Proof.
  intros HP w. unfold axios_post.
  destruct (http_post env (trace w) c); cbn; eapply Quiet_one; done.
Qed.

End CacheFrames.

(** One structural step of a [stays] goal. *)
Ltac stays_step :=
  first
    [ apply stays_ret; typeclasses eauto
    | apply stays_throw; typeclasses eauto
    | apply stays_lift; typeclasses eauto
    | apply stays_get_world; typeclasses eauto
    | apply stays_existsSync | apply stays_readFileSync | apply stays_unlinkSync
    | apply stays_writeFileSync | apply stays_mkdirSync
    | apply stays_console_log | apply stays_console_error
    | apply stays_bind_lift; [typeclasses eauto|intros ? ?]
    | apply stays_bind; [typeclasses eauto| |intros ?]
    | apply stays_try_catch; [typeclasses eauto| |intros ?]
    | apply stays_or_return; [typeclasses eauto| |intros ?]
    | apply stays_for_each; [typeclasses eauto|intros ?]
    | apply stays_all_tasks; [typeclasses eauto|intros ?]
    | match goal with
      | |- stays _ (if ?b then _ else _) => destruct b eqn:?
      | |- stays _ (match ?x with _ => _ end) => destruct x eqn:?
      end ].

Section MediaFrames.

Context (env : Env) (P : Event -> Prop).

Lemma stays_cacheImage folder filename file :
  stays (Quiet P) (cacheImage folder filename file).
Proof. unfold cacheImage. repeat stays_step. Qed.

Lemma stays_findImageInCache folder filename isFailed :
  stays (Quiet P) (findImageInCache env folder filename isFailed).
Proof.
  unfold findImageInCache, decodeURI_M.
  repeat (apply stays_cacheImage || stays_step).
Qed.

(** The only request of [findCacheOrFetch] is a GET of the encoded URL. *)
Lemma stays_findCacheOrFetch folder url isFailed :
  (forall enc b, encodeURI env url = Some enc ->
                 P {| ev_call := Get enc; ev_ok := b |}) ->
  stays (Quiet P) (findCacheOrFetch env folder url isFailed).
Proof.
  intros HP. unfold findCacheOrFetch, newURL, encodeURI_M.
  repeat (apply stays_cacheImage || apply stays_findImageInCache
          || (apply stays_axios_get; eauto) || stays_step).
Qed.

Lemma stays_uploadFile endpoint imageUrl imageBuffer :
  (forall name file b, P {| ev_call := PostMedia endpoint name file; ev_ok := b |}) ->
  stays (Quiet P) (uploadFile env endpoint imageUrl imageBuffer).
Proof.
  intros HP. unfold uploadFile, decodeURI_M.
  repeat ((apply stays_axios_post; intros; apply HP) || stays_step).
Qed.

Lemma stays_fetchAndUpload endpoint folder url imageUrl isFailed :
  (forall enc b, encodeURI env url = Some enc ->
                 P {| ev_call := Get enc; ev_ok := b |}) ->
  (forall name file b, P {| ev_call := PostMedia endpoint name file; ev_ok := b |}) ->
  stays (Quiet P) (fetchAndUpload env endpoint folder url imageUrl isFailed).
Proof.
  intros HG HP. unfold fetchAndUpload.
  stays_step; [now apply stays_findCacheOrFetch|].
  now apply stays_uploadFile.
Qed.

End MediaFrames.

(** * The image cache *)

Section Cache.

Context (env : Env).

Lemma string_app_nil_r (s : string) : s +:+ "" = s.
Proof.
  induction s as [|c s IH]; [done|].
  change (String c (s +:+ "") = String c s). now rewrite IH.
Qed.

Lemma cacheDir_not_cachePath folder filename :
  cacheDir folder <> cachePath folder filename.
Proof.
  unfold cacheDir, cachePath. intros H.
  apply String.app_inj in H.
  rewrite <- (string_app_nil_r folder) in H at 1.
  apply String.app_inj in H. cbv in H. discriminate.
Qed.

Lemma bind_existsSync {A} p (k : bool -> M A) w :
  bind (existsSync p) k w = k (bool_decide (is_Some (fs w !! p))) w.
Proof. reflexivity. Qed.

Lemma existsSync_absent p w :
  fs w !! p = None -> bool_decide (is_Some (fs w !! p)) = false.
Proof. intros ->. apply bool_decide_eq_false. intros [x Hx]. discriminate. Qed.

Lemma existsSync_present p w n :
  fs w !! p = Some n -> bool_decide (is_Some (fs w !! p)) = true.
Proof. intros ->. apply bool_decide_eq_true. eauto. Qed.

Lemma unlinkSync_absent p w :
  fs w !! p = None -> unlinkSync p w = (Throw ENOENT, w).
Proof. unfold unlinkSync. now intros ->. Qed.

(** Writing the fetched bytes succeeds once the cache entry is a file or
    is absent, and leaves them at the cache path. *)
Lemma cacheImage_writes folder filename file w :
  fs w !! cachePath folder filename <> Some Dir ->
  exists w', cacheImage folder filename file w = (Ok tt, w') /\
             fs w' !! cachePath folder filename = Some (File file) /\
             Stores w w' /\ trace w' = trace w.
Proof.
  intros Hnd. unfold cacheImage. rewrite bind_existsSync.
  assert ((exists n, fs w !! cacheDir folder = Some n) \/ fs w !! cacheDir folder = None)
    as [[n Ed]|Ed] by (destruct (fs w !! cacheDir folder); eauto).
  - rewrite (existsSync_present _ _ _ Ed). cbn.
    unfold bind, ret, writeFileSync.
    destruct (fs w !! cachePath folder filename) as [[b|]|] eqn:Ec; try done;
      eexists; (split; [reflexivity|]); cbn; rewrite lookup_insert_eq; repeat split.
  - rewrite (existsSync_absent _ _ Ed). cbn.
    unfold bind, mkdirSync, writeFileSync. rewrite Ed. cbn.
    rewrite lookup_insert_ne by apply cacheDir_not_cachePath.
    destruct (fs w !! cachePath folder filename) as [[b|]|] eqn:Ec; try done;
      eexists; (split; [reflexivity|]); cbn; rewrite lookup_insert_eq; repeat split.
Qed.

Lemma findImageInCache_forced_hit folder filename stale w :
  fs w !! cachePath folder filename = Some (File stale) ->
  findImageInCache env folder filename true w =
    (Ok None, set_fs (delete (cachePath folder filename) (fs w)) w).
Proof.
  intros Hc. unfold findImageInCache. rewrite bind_existsSync.
  rewrite (existsSync_present _ _ _ Hc). cbv beta iota.
  unfold bind, unlinkSync. now rewrite Hc.
Qed.


Lemma findImageInCache_miss folder filename isFailed w :
  lookup_misses env folder filename w ->
  findImageInCache env folder filename isFailed w = (Ok None, w).
Proof.
  intros (Hc & Ho & d & Hd & Hod). unfold findImageInCache.
  rewrite bind_existsSync, (existsSync_absent _ _ Hc). cbv beta iota.
  rewrite bind_existsSync, (existsSync_absent _ _ Ho). cbv beta iota.
  unfold decodeURI_M. rewrite Hd. cbn [lift]. unfold bind at 1, ret at 1.
  rewrite bind_existsSync, (existsSync_absent _ _ Hod). reflexivity.
Qed.

(** ** C10 *)

(** C10: a lookup with the force-invalidation flag set, for a file that
    is absent from the cache directory but present in the originals
    directory under the raw or the URL-decoded name, throws: it unlinks
    the cache path, which does not exist.  Nothing is returned and the
    world is left as it was. *)
Theorem findImageInCache_forced_orig_only_throws folder filename w :
  fs w !! cachePath folder filename = None ->
  (is_Some (fs w !! origPath folder filename) \/
   exists decoded, decodeURIComponent env filename = Some decoded /\
                   is_Some (fs w !! origPath folder decoded)) ->
  findImageInCache env folder filename true w = (Throw ENOENT, w).
Proof.
  intros Hc Horig. unfold findImageInCache.
  rewrite bind_existsSync, (existsSync_absent _ _ Hc). cbv beta iota.
  rewrite bind_existsSync.
  destruct (fs w !! origPath folder filename) as [n|] eqn:Ho.
  - rewrite bool_decide_eq_true_2 by eauto. cbv beta iota.
    unfold bind. now rewrite (unlinkSync_absent _ _ Hc).
  - rewrite bool_decide_eq_false_2 by (intros [x Hx]; discriminate). cbv beta iota.
    destruct Horig as [[x Hx]|(d & Hd & [n Hn])]; [discriminate|].
    unfold decodeURI_M. rewrite Hd. cbn [lift]. unfold bind at 1, ret at 1.
    rewrite bind_existsSync, (existsSync_present _ _ _ Hn). cbv beta iota.
    unfold bind. now rewrite (unlinkSync_absent _ _ Hc).
Qed.

(** ** Forced invalidation followed by a remote fetch *)

Lemma axios_get_some url data w :
  http_get env (trace w) url = Some data ->
  axios_get env url w =
    (Ok data, set_trace (trace w ++ [{| ev_call := Get url; ev_ok := true |}]) w).
Proof. unfold axios_get. now intros ->. Qed.

Lemma axios_get_none url w :
  http_get env (trace w) url = None ->
  axios_get env url w =
    (Throw AxiosError, set_trace (trace w ++ [{| ev_call := Get url; ev_ok := false |}]) w).
Proof. unfold axios_get. now intros ->. Qed.

Lemma axios_post_some c id w :
  http_post env (trace w) c = Some id ->
  axios_post env c w =
    (Ok id, set_trace (trace w ++ [{| ev_call := c; ev_ok := true |}]) w).
Proof. unfold axios_post. now intros ->. Qed.

Lemma axios_post_none c w :
  http_post env (trace w) c = None ->
  axios_post env c w =
    (Throw AxiosError, set_trace (trace w ++ [{| ev_call := c; ev_ok := false |}]) w).
Proof. unfold axios_post. now intros ->. Qed.

Lemma findCacheOrFetch_forced folder url u stale enc w :
  parseURL env url = Some u ->
  fs w !! cachePath folder (lastSegment (pathname u)) = Some (File stale) ->
  encodeURI env url = Some enc ->
  let path := cachePath folder (lastSegment (pathname u)) in
  let w1 := set_fs (delete path (fs w)) w in
  match http_get env (trace w) enc with
  | None =>
      findCacheOrFetch env folder url true w =
        (Throw AxiosError,
         set_trace (trace w ++ [{| ev_call := Get enc; ev_ok := false |}]) w1)
  | Some data =>
      exists w2,
        findCacheOrFetch env folder url true w = (Ok data, w2) /\
        fs w2 !! path = Some (File data) /\
        trace w2 = trace w ++ [{| ev_call := Get enc; ev_ok := true |}] /\
        Stores w w2
  end.
Proof.
  intros Hu Hc He path w1.
  unfold findCacheOrFetch, newURL, encodeURI_M.
  rewrite (bind_lift_some _ _ _ _ _ Hu). cbv zeta.
  rewrite (bind_ok _ _ _ _ _ (findImageInCache_forced_hit _ _ _ _ Hc)).
  fold path. fold w1.
  rewrite (bind_lift_some _ _ _ _ _ He).
  destruct (http_get env (trace w) enc) as [data|] eqn:Hg.
  2: { now rewrite (bind_thrown _ _ _ _ _ (axios_get_none enc w1 Hg)). }
  rewrite (bind_ok _ _ _ _ _ (axios_get_some enc data w1 Hg)).
  set (w1' := set_trace _ w1).
  destruct (cacheImage_writes folder (lastSegment (pathname u)) data w1')
    as (w2 & Hw & Hfs & Hst & Htr).
  { cbn. fold path. rewrite lookup_delete_eq. discriminate. }
  exists w2. rewrite (bind_ok _ _ _ _ _ Hw). repeat split; try done; apply Hst.
Qed.

End Cache.

#[global] Instance Pre_preorder P : PreOrder (Pre P).
Proof.
  split.
  - intros w. repeat split. reflexivity.
  - intros w1 w2 w3 (a & b & c) (a' & b' & c').
    repeat split; [congruence..|]. etrans; eauto.
Qed.

Lemma Quiet_Pre P w w' : Quiet P w w' -> Pre P w w'.
Proof. intros [(a & b & c & d) E]. repeat split; done. Qed.

Lemma stays_quiet_pre {A} P (m : M A) : stays (Quiet P) m -> stays (Pre P) m.
Proof. apply stays_mono, Quiet_Pre. Qed.

Lemma stays_push_missing P s : stays (Pre P) (push_missing s).
Proof. intros w. repeat split. now apply Ext_same. Qed.

Lemma stays_push_failed P oid : stays (Pre P) (push_failed oid).
Proof. intros w. repeat split. now apply Ext_same. Qed.

(** * The steps of migrateSubmission *)

Section SubmissionSteps.

Context (env : Env) (submission : ISubmission) (P : Event -> Prop).

Lemma stays_videoStep newSubmission :
  stays (Pre P) (videoStep env submission newSubmission).
Proof.
  unfold videoStep, newURL.
  repeat (apply stays_push_missing
          || (apply stays_quiet_pre; apply stays_console_log)
          || stays_step).
Qed.

Lemma videoStep_some newSubmission w n w' :
  videoStep env submission newSubmission w = (Ok (Some n), w') ->
  w' = w /\ ns_srcIcon n = ns_srcIcon newSubmission /\
  ns_media n = ns_media newSubmission /\
  (n = newSubmission \/
   exists src, truthy (s_src submission) = Some src /\ s_type submission = video /\
               n = with_url src newSubmission).
Proof.
  unfold videoStep, newURL.
  destruct (truthy (s_src submission)) as [src|] eqn:Hs.
  2: { intros H; inversion H; subst. auto. }
  destruct (decide (s_type submission = video)) as [Hv|Hv].
  2: { intros H; inversion H; subst. auto. }
  intros H. apply bind_inv in H as [(u & w1 & Hu & H)|(? & _ & ?)]; [|done].
  apply lift_inv in Hu as [-> _].
  destruct (decide (host u = LEGACY_HOST)).
  - apply bind_inv in H as [(? & ? & _ & H)|(? & _ & ?)]; [|done].
    apply bind_inv in H as [(? & ? & _ & H)|(? & _ & ?)]; [|done].
    inversion H.
  - inversion H; subst. repeat split; eauto.
Qed.

Lemma stays_iconUpload icon imageUrl :
  truthy (s_srcIcon submission) = Some icon ->
  parseURL env icon = Some imageUrl ->
  host imageUrl <> LEGACY_HOST ->
  icon_requests env submission P ->
  stays (Quiet P) (iconUpload env submission icon imageUrl).
Proof.
  intros Hi Hu Hh [HG HP]. unfold iconUpload.
  stays_step; [stays_step|]. apply stays_fetchAndUpload; eauto.
Qed.

Lemma stays_iconStep newSubmission :
  icon_requests env submission P ->
  stays (Quiet P) (iconStep env submission newSubmission).
Proof.
  intros HR. unfold iconStep, newURL.
  repeat ((eapply stays_iconUpload; eassumption) || stays_step).
Qed.

Lemma iconStep_some newSubmission w n w' :
  iconStep env submission newSubmission w = (Ok (Some n), w') ->
  ns_url n = ns_url newSubmission /\ ns_media n = ns_media newSubmission.
Proof.
  unfold iconStep, newURL.
  destruct (truthy (s_srcIcon submission)) as [icon|].
  2: { intros H; inversion H; subst. auto. }
  intros H. apply bind_inv in H as [(u & w1 & Hu & H)|(? & _ & ?)]; [|done].
  destruct (decide (host u <> LEGACY_HOST)).
  2: { inversion H; subst. auto. }
  apply try_catch_inv in H as [(a & H & Ha)|(? & w2 & _ & H)].
  - apply bind_inv in H as [(id & w2 & _ & H)|(? & _ & ?)]; [|done].
    inversion H; subst. inversion Ha; subst. auto.
  - apply bind_inv in H as [(? & ? & _ & H)|(? & _ & ?)]; [|done].
    inversion H.
Qed.

Lemma stays_imageUpload imageUrl newSubmission :
  s_type submission = image ->
  parseURL env (bang (s_src submission)) = Some imageUrl ->
  image_requests env submission P ->
  stays (Pre P) (imageUpload env submission imageUrl newSubmission).
Proof.
  intros Hty Hu [HG HP]. unfold imageUpload.
  destruct (decide (host imageUrl <> LEGACY_HOST)) as [Hh|Hh].
  - apply stays_quiet_pre.
    repeat ((apply stays_fetchAndUpload; eauto) || stays_step).
  - stays_step; [apply stays_quiet_pre, stays_findImageInCache|].
    repeat (apply stays_push_missing
            || (apply stays_quiet_pre;
                first [apply stays_console_log | apply stays_uploadFile; eauto])
            || stays_step).
Qed.

Lemma stays_imageStep newSubmission :
  image_requests env submission P ->
  stays (Pre P) (imageStep env submission newSubmission).
Proof.
  intros HR. unfold imageStep, newURL.
  repeat (apply stays_push_failed
          || (eapply stays_imageUpload; eassumption)
          || (apply stays_quiet_pre;
              first [apply stays_console_log | apply stays_console_error])
          || stays_step).
Qed.

Lemma imageUpload_some imageUrl newSubmission w n w' :
  s_type submission = image ->
  parseURL env (bang (s_src submission)) = Some imageUrl ->
  image_requests env submission P ->
  imageUpload env submission imageUrl newSubmission w = (Ok (Some n), w') ->
  Quiet P w w' /\ ns_url n = ns_url newSubmission.
Proof.
  intros Hty Hu [HG HP]. unfold imageUpload.
  destruct (decide (host imageUrl <> LEGACY_HOST)) as [Hh|Hh].
  - rewrite bind_get_world. intros H.
    apply bind_inv in H as [(id & w1 & Hf & H)|(? & _ & ?)]; [|done].
    inversion H; subst. split; [|done].
    eapply stays_run; [|exact Hf]. apply stays_fetchAndUpload; eauto.
  - intros H.
    apply bind_inv in H as [(buf & w1 & Hf & H)|(? & _ & ?)]; [|done].
    assert (Quiet P w w1) as Q1
      by (eapply stays_run; [apply stays_findImageInCache | exact Hf]).
    destruct buf as [file|].
    + apply bind_inv in H as [(id & w2 & Hp & H)|(? & _ & ?)]; [|done].
      inversion H; subst. split; [|done]. etrans; [exact Q1|].
      eapply stays_run; [|exact Hp]. apply stays_uploadFile; eauto.
    + rewrite bind_console_log in H. unfold push_missing in H.
      rewrite bind_modify in H. inversion H.
Qed.

Lemma imageStep_some newSubmission w n w' :
  image_requests env submission P ->
  imageStep env submission newSubmission w = (Ok (Some n), w') ->
  Quiet P w w' /\ ns_url n = ns_url newSubmission.
Proof.
  intros HR. unfold imageStep, newURL.
  destruct (decide (s_type submission = image)).
  2: { intros H; inversion H; subst. split; reflexivity. }
  intros H. apply bind_inv in H as [(u & w1 & Hu & H)|(? & _ & ?)]; [|done].
  apply lift_inv in Hu as [-> [(u' & Hu & [= <-])|[_ ?]]]; [|done].
  apply try_catch_inv in H as [(a & H & [= <-])|(? & w2 & _ & H)].
  - eapply imageUpload_some; eauto.
  - rewrite bind_console_log in H. unfold console_error in H.
    rewrite bind_console_log in H. unfold push_failed in H.
    rewrite bind_modify in H. inversion H.
Qed.

End SubmissionSteps.

(** * migrateSubmission as a whole *)

Section Submission.

Context (env : Env).

Lemma includes_true {A} `{EqDecision A} (x : A) l : includes x l = true <-> x ∈ l.
Proof. unfold includes. apply bool_decide_eq_true. Qed.

Lemma includes_false {A} `{EqDecision A} (x : A) l : includes x l = false <-> x ∉ l.
Proof. unfold includes. apply bool_decide_eq_false. Qed.

Lemma icon_requests_media s : icon_requests env s is_media.
Proof. split; intros; exact I. Qed.

Lemma image_requests_media s : image_requests env s is_media.
Proof. split; intros; exact I. Qed.

(** What the creation block does, by the answer of the remote side. *)
Lemma createStep_created s n w id :
  http_post env (trace w) (PostSubmission (s_oid s) n) = Some id ->
  exists w',
    createStep env s n w = (Ok tt, w') /\
    trace w' = trace w ++ [{| ev_call := PostSubmission (s_oid s) n; ev_ok := true |}] /\
    successfullyProcessed (mapping w') =
      successfullyProcessed (mapping w) ++ [IdS (s_oid s)] /\
    m_guilds (mapping w') = m_guilds (mapping w) /\
    m_projects (mapping w') = m_projects (mapping w) /\
    failed w' = failed w /\ missing w' = missing w /\
    disk w' = disk w /\ fs w' = fs w.
Proof.
  intros Hp. eexists. split.
  - unfold createStep, or_return, try_catch.
    unfold bind at 1. unfold bind at 1.
    rewrite (axios_post_some env _ _ _ Hp). reflexivity.
  - cbn. repeat split.
Qed.

Lemma createStep_rejected s n w :
  http_post env (trace w) (PostSubmission (s_oid s) n) = None ->
  exists w',
    createStep env s n w = (Ok tt, w') /\
    trace w' = trace w ++ [{| ev_call := PostSubmission (s_oid s) n; ev_ok := false |}] /\
    mapping w' = mapping w /\
    failed w' = failed w ++ [s_oid s] /\ missing w' = missing w /\
    disk w' = disk w /\ fs w' = fs w.
Proof.
  intros Hp. eexists. split.
  - unfold createStep, or_return, try_catch.
    unfold bind at 1. unfold bind at 1.
    rewrite (axios_post_none env _ _ Hp). reflexivity.
  - cbn. repeat split.
Qed.

Lemma migrateSubmission_outcome s w r w' :
  migrateSubmission env s w = (r, w') -> submission_outcome env s w r w'.
Proof.
  unfold migrateSubmission. rewrite bind_get_world.
  destruct (includes _ _) eqn:Hinc.
  { intros [= <- <-]. apply skipped_processed. now apply includes_true. }
  apply includes_false in Hinc. intros H.
  apply or_return_inv in H as [(n1 & w1 & Hv & H)|[[Hv ->]|(e & Hv & ->)]].
  2,3: apply stopped_early; [done|];
       eapply stays_run; [apply stays_videoStep | exact Hv].
  pose proof (videoStep_some _ _ _ _ _ _ Hv) as (-> & _).
  apply or_return_inv in H as [(n2 & w2 & Hi & H)|[[Hi ->]|(e & Hi & ->)]].
  2,3: apply stopped_early; [done|]; apply Quiet_Pre;
       eapply stays_run; [apply stays_iconStep, icon_requests_media | exact Hi].
  assert (Quiet is_media w w2) as Q2
    by (eapply stays_run; [apply stays_iconStep, icon_requests_media | exact Hi]).
  apply or_return_inv in H as [(n3 & w3 & Hm & H)|[[Hm ->]|(e & Hm & ->)]].
  2,3: apply stopped_early; [done|]; etrans; [apply Quiet_Pre, Q2|];
       eapply stays_run; [apply stays_imageStep, image_requests_media | exact Hm].
  apply iconStep_some in Hi as [Hu2 _].
  apply (imageStep_some env s is_media) in Hm as [Q3 Hu3];
    [|apply image_requests_media].
  assert (Quiet is_media w w3) as Q by (etrans; eauto).
  assert (ns_url n3 = ns_url n1) as Hurl by congruence.
  destruct (http_post env (trace w3) (PostSubmission (s_oid s) n3)) as [id|] eqn:Hp.
  - destruct (createStep_created s n3 w3 id Hp)
      as (w4 & Hc & Ht & Hsp & Hg & Hpj & Hf & Hmi & Hd & _).
    rewrite Hc in H. injection H as <- <-.
    eapply creation_accepted; eauto.
  - destruct (createStep_rejected s n3 w3 Hp)
      as (w4 & Hc & Ht & Hmp & Hf & Hmi & Hd & _).
    rewrite Hc in H. injection H as <- <-.
    eapply creation_rejected; eauto.
Qed.

End Submission.


(** * Which remote calls a submission can cause *)

Lemma Pre_Ext P w w' : Pre P w w' -> Ext P w w'.
Proof. now intros (_ & _ & E). Qed.

Lemma Quiet_Ext P w w' : Quiet P w w' -> Ext P w w'.
Proof. now intros [_ E]. Qed.

Lemma stays_pre_ext {A} P (m : M A) : stays (Pre P) m -> stays (Ext P) m.
Proof. apply stays_mono, Pre_Ext. Qed.

Lemma stays_quiet_ext {A} P (m : M A) : stays (Quiet P) m -> stays (Ext P) m.
Proof. apply stays_mono, Quiet_Ext. Qed.

Lemma stays_push_processed P x : stays (Ext P) (push_processed x).
Proof. intros w. now apply Ext_same. Qed.

Lemma Ext_In P w w' evs e :
  Ext P w w' -> trace w' = trace w ++ evs -> In e evs -> P e.
Proof.
  intros HE Ht Hin. pose proof (Ext_events _ _ _ _ HE Ht) as F.
  rewrite Forall_forall in F. apply F. now apply list_elem_of_In.
Qed.

Section SubmissionEvents.

Context (env : Env) (s : ISubmission) (P : Event -> Prop).

Lemma stays_createStep n :
  (forall b, P {| ev_call := PostSubmission (s_oid s) n; ev_ok := b |}) ->
  stays (Ext P) (createStep env s n).
Proof.
  intros HP. unfold createStep.
  repeat (apply stays_push_processed
          || (apply stays_pre_ext, stays_push_failed)
          || (apply stays_quiet_ext;
              first [apply stays_axios_post; exact HP
                    | apply stays_console_log | apply stays_console_error])
          || stays_step).
Qed.

Lemma stays_migrateSubmission :
  icon_requests env s P -> image_requests env s P ->
  (forall n b, P {| ev_call := PostSubmission (s_oid s) n; ev_ok := b |}) ->
  stays (Ext P) (migrateSubmission env s).
Proof.
  intros HI HM HC. unfold migrateSubmission.
  repeat ((apply stays_pre_ext; first [apply stays_videoStep | now apply stays_imageStep])
          || (apply stays_quiet_ext; now apply stays_iconStep)
          || (apply stays_createStep; intros; apply HC)
          || stays_step).
Qed.

End SubmissionEvents.

Lemma icon_requests_only_icon_get env s : icon_requests env s (only_icon_get env s).
Proof. split; intros; cbn; eauto 10. Qed.

(** Event lists that extend the same log. *)
Lemma trace_split (w w1 w' : World) (evs pre : list Event) e :
  trace w1 = trace w ++ pre ->
  trace w' = trace w1 ++ [e] ->
  trace w' = trace w ++ evs ->
  evs = pre ++ [e].
Proof.
  intros H1 H2 H3. rewrite H1, <- app_assoc in H2. rewrite H2 in H3.
  now apply app_inv_head in H3.
Qed.

(** * Claims about migrateSubmission *)

Section SubmissionClaims.

Context (env : Env).

(** C3, as amended: when the POST that creates a submission is rejected,
    [migrateSubmission] returns normally, the legacy id is appended to the
    Failed set, and the mapping (with its processed list) and the Missing
    list are left as they were, so the next run attempts the submission
    again. *)
Theorem rejected_creation_marks_failed s w r w' evs n :
  migrateSubmission env s w = (r, w') ->
  trace w' = trace w ++ evs ->
  In {| ev_call := PostSubmission (s_oid s) n; ev_ok := false |} evs ->
  r = Ok tt /\
  failed w' = failed w ++ [s_oid s] /\
  mapping w' = mapping w /\
  missing w' = missing w /\
  IdS (s_oid s) ∉ successfullyProcessed (mapping w').
Proof.
  intros Hrun Ht Hin. apply migrateSubmission_outcome in Hrun.
  destruct Hrun as [Hp | r w' Hnp Hpre | n1 w1 n' w' Hnp _ _ HQ Ht'
                   | n1 w1 n' w' Hnp _ _ HQ Ht' Hm Hf Hmi Hd].
  - rewrite <- (app_nil_r (trace w)) in Ht at 1.
    apply app_inv_head in Ht. subst. destruct Hin.
  - exfalso. apply (Ext_In _ _ _ _ _ (Pre_Ext _ _ _ Hpre) Ht Hin).
  - exfalso. destruct HQ as [_ (pre & Hpre & F)].
    rewrite (trace_split _ _ _ _ _ _ Hpre Ht' Ht) in Hin.
    apply in_app_or in Hin as [Hin|[Hin|[]]]; [|discriminate].
    rewrite Forall_forall in F. apply (F _ (proj2 (list_elem_of_In _ _) Hin)).
  - destruct HQ as [(Sm & Sf & Smi & Sd) _].
    repeat split; try congruence.
Qed.

Lemma videoStep_passes s n w :
  video_passes env s ->
  exists n', videoStep env s n w = (Ok (Some n'), w).
Proof.
  unfold video_passes, videoStep, newURL.
  destruct (truthy (s_src s)) as [src|]; [|eauto].
  destruct (decide (s_type s = video)) as [Hv|Hv]; [|eauto].
  intros H. destruct (H Hv) as (v & Hp & Hh).
  rewrite (bind_lift_some _ _ _ _ _ Hp).
  destruct (decide (host v = LEGACY_HOST)); [done|eauto].
Qed.

Lemma videoStep_not_video s n w :
  s_type s <> video -> videoStep env s n w = (Ok (Some n), w).
Proof.
  intros Hv. unfold videoStep.
  destruct (truthy (s_src s)) as [src|]; [|done].
  destruct (decide (s_type s = video)); done.
Qed.

Lemma iconStep_thrown s n w icon u e w1 :
  truthy (s_srcIcon s) = Some icon ->
  parseURL env icon = Some u ->
  host u <> LEGACY_HOST ->
  iconUpload env s icon u w = (Throw e, w1) ->
  iconStep env s n w =
    (Ok None,
     set_console (console w1 ++ ["Error fetching submission author icon: " +:+ exn_name e]) w1).
Proof.
  intros Hi Hu Hh Hup. unfold iconStep, newURL. rewrite Hi.
  rewrite (bind_lift_some _ _ _ _ _ Hu).
  destruct (decide (host u <> LEGACY_HOST)); [|done].
  erewrite try_catch_thrown by (erewrite bind_thrown; [reflexivity|exact Hup]).
  reflexivity.
Qed.

(** C9: a submission that is not yet processed, passes the video block and
    has an author icon off the legacy host whose fetch or upload throws:
    [migrateSubmission] returns normally, issues no entity-creation call,
    and leaves the Failed set, the Missing list and the mapping (hence the
    processed list) as they were, so the id is still unprocessed on the
    next run. *)
Theorem icon_failure_skips_silently s w icon u e w1 :
  IdS (s_oid s) ∉ successfullyProcessed (mapping w) ->
  video_passes env s ->
  truthy (s_srcIcon s) = Some icon ->
  parseURL env icon = Some u ->
  host u <> LEGACY_HOST ->
  iconUpload env s icon u w = (Throw e, w1) ->
  exists w',
    migrateSubmission env s w = (Ok tt, w') /\
    failed w' = failed w /\
    missing w' = missing w /\
    mapping w' = mapping w /\
    (IdS (s_oid s) ∉ successfullyProcessed (mapping w')) /\
    (exists evs, trace w' = trace w ++ evs /\
                 Forall (fun ev => created_id (ev_call ev) = None) evs).
Proof.
  intros Hnp Hv Hi Hu Hh Hup.
  destruct (videoStep_passes s (initialSubmission s w) w Hv) as (n1 & Hvs).
  eexists. split.
  - unfold migrateSubmission. rewrite bind_get_world.
    rewrite (proj2 (includes_false _ _) Hnp).
    rewrite (or_return_some _ _ _ _ _ Hvs).
    apply or_return_none. eapply iconStep_thrown; eauto.
  - assert (Quiet is_media w w1) as [(Sm & Sf & Smi & Sd) (evs & Ht & F)].
    { eapply stays_run; [|exact Hup].
      apply stays_iconUpload; [exact Hi | exact Hu | exact Hh | apply icon_requests_media]. }
    cbn. repeat split; try congruence.
    exists evs. split; [done|].
    eapply Forall_impl; [exact F|].
    intros [[] b]; cbn; done.
Qed.

Lemma videoStep_legacy s n w src u :
  s_type s = video -> truthy (s_src s) = Some src ->
  parseURL env src = Some u -> host u = LEGACY_HOST ->
  videoStep env s n w =
    (Ok None,
     set_console (console w ++ ["Missing video for " +:+ s_oid s])
       (set_missing (missing w ++ [s]) w)).
Proof.
  intros Hty Hs Hu Hh. unfold videoStep, newURL. rewrite Hs.
  destruct (decide (s_type s = video)); [|done].
  rewrite (bind_lift_some _ _ _ _ _ Hu).
  destruct (decide (host u = LEGACY_HOST)); [|done]. reflexivity.
Qed.

Lemma videoStep_carries s n w src u :
  s_type s = video -> truthy (s_src s) = Some src ->
  parseURL env src = Some u -> host u <> LEGACY_HOST ->
  videoStep env s n w = (Ok (Some (with_url src n)), w).
Proof.
  intros Hty Hs Hu Hh. unfold videoStep, newURL. rewrite Hs.
  destruct (decide (s_type s = video)); [|done].
  rewrite (bind_lift_some _ _ _ _ _ Hu).
  destruct (decide (host u = LEGACY_HOST)); [done|]. reflexivity.
Qed.

(** A block that lets the new submission through unchanged. *)
Lemma imageStep_not_image s n w :
  s_type s <> image -> imageStep env s n w = (Ok (Some n), w).
Proof.
  intros Hty. unfold imageStep. destruct (decide (s_type s = image)); done.
Qed.

Lemma iconStep_no_icon s n w :
  truthy (s_srcIcon s) = None -> iconStep env s n w = (Ok (Some n), w).
Proof. intros Hi. unfold iconStep. now rewrite Hi. Qed.

(** A video off the legacy host that the author-icon block lets through
    is created, with the body the icon block yields. *)
Lemma carried_video_is_created s w src u n w1 :
  IdS (s_oid s) ∉ successfullyProcessed (mapping w) ->
  s_type s = video ->
  truthy (s_src s) = Some src ->
  parseURL env src = Some u ->
  host u <> LEGACY_HOST ->
  iconStep env s (with_url src (initialSubmission s w)) w = (Ok (Some n), w1) ->
  exists b w',
    migrateSubmission env s w = (Ok tt, w') /\
    trace w' = trace w1 ++ [{| ev_call := PostSubmission (s_oid s) n; ev_ok := b |}] /\
    ns_url n = Some src /\
    missing w' = missing w1 /\ fs w' = fs w1.
Proof.
  intros Hnp Hty Hs Hu Hh Hicon.
  assert (migrateSubmission env s w = createStep env s n w1) as Hrun.
  { unfold migrateSubmission. rewrite bind_get_world.
    rewrite (proj2 (includes_false _ _) Hnp).
    rewrite (or_return_some _ _ _ _ _
               (videoStep_carries s (initialSubmission s w) w src u Hty Hs Hu Hh)).
    rewrite (or_return_some _ _ _ _ _ Hicon).
    apply or_return_some, imageStep_not_image. rewrite Hty. discriminate. }
  assert (ns_url n = Some src) as Hurl.
  { now destruct (iconStep_some env s _ _ _ _ Hicon) as [-> _]. }
  destruct (http_post env (trace w1) (PostSubmission (s_oid s) n)) as [id|] eqn:Hp.
  - destruct (createStep_created env s n w1 id Hp)
      as (w' & Hc & Ht & _ & _ & _ & _ & Hm & _ & Hfs).
    exists true, w'. rewrite Hrun. auto.
  - destruct (createStep_rejected env s n w1 Hp)
      as (w' & Hc & Ht & _ & _ & Hm & _ & Hfs).
    exists false, w'. rewrite Hrun. auto.
Qed.

(** C8: a video submission (not yet processed) with a source URL.  On the
    legacy host: it is appended to the Missing list, a line is logged, and
    the function returns with nothing else changed, so no remote call is
    made and no submission is created.  Off the legacy host: the video
    block changes nothing and hands on the new submission with the source
    string itself as [url]; unless the author-icon block ends the call,
    the submission is created with that [url], by a request that comes
    right after those of the icon block, and it is not recorded as
    missing; without an author icon the creation is the one request of
    the call, and its body is the initial one with [url] set.  Whatever
    the icon block does, every creation request for the submission carries
    the source string as [url], and the only GETs issued are those of the
    author icon. *)
Theorem video_source_rejected_or_carried s w src u :
  IdS (s_oid s) ∉ successfullyProcessed (mapping w) ->
  s_type s = video ->
  truthy (s_src s) = Some src ->
  parseURL env src = Some u ->
  (host u = LEGACY_HOST ->
   migrateSubmission env s w =
     (Ok tt,
      set_console (console w ++ ["Missing video for " +:+ s_oid s])
        (set_missing (missing w ++ [s]) w))) /\
  (host u <> LEGACY_HOST ->
   (forall r w' evs,
      migrateSubmission env s w = (r, w') ->
      trace w' = trace w ++ evs ->
      (forall legacy n b,
         In {| ev_call := PostSubmission legacy n; ev_ok := b |} evs ->
         ns_url n = Some src) /\
      Forall (only_icon_get env s) evs) /\
   videoStep env s (initialSubmission s w) w =
     (Ok (Some (with_url src (initialSubmission s w))), w) /\
   (forall n w1,
      iconStep env s (with_url src (initialSubmission s w)) w = (Ok (Some n), w1) ->
      exists b w',
        migrateSubmission env s w = (Ok tt, w') /\
        trace w' = trace w1 ++ [{| ev_call := PostSubmission (s_oid s) n; ev_ok := b |}] /\
        ns_url n = Some src /\
        missing w' = missing w1 /\ fs w' = fs w1) /\
   (truthy (s_srcIcon s) = None ->
    exists b w',
      migrateSubmission env s w = (Ok tt, w') /\
      trace w' = trace w ++
        [{| ev_call := PostSubmission (s_oid s) (with_url src (initialSubmission s w));
            ev_ok := b |}] /\
      missing w' = missing w /\ fs w' = fs w)).
Proof.
  intros Hnp Hty Hs Hu. split.
  - intros Hh. unfold migrateSubmission. rewrite bind_get_world.
    rewrite (proj2 (includes_false _ _) Hnp).
    apply or_return_none. eapply videoStep_legacy; eauto.
  - intros Hh. split; [|split; [|split]].
    2: { eapply videoStep_carries; eauto. }
    2: { intros n w1 Hicon. eapply carried_video_is_created; eauto. }
    2: { intros Hi.
         destruct (carried_video_is_created s w src u _ w Hnp Hty Hs Hu Hh
                     (iconStep_no_icon s _ w Hi))
           as (b & w' & Hrun & Ht & _ & Hm & Hfs).
         exists b, w'. auto. }
    intros r w' evs Hrun Ht. split.
    + intros legacy n b Hin.
      pose proof (videoStep_carries s (initialSubmission s w) w src u Hty Hs Hu Hh) as Hvs.
      apply migrateSubmission_outcome in Hrun.
      destruct Hrun as [Hp | r w' _ Hpre | n1 w1 n' w' _ Hv Hurl HQ Ht'
                       | n1 w1 n' w' _ Hv Hurl HQ Ht'].
      * done.
      * exfalso. apply (Ext_In _ _ _ _ _ (Pre_Ext _ _ _ Hpre) Ht Hin).
      * rewrite Hvs in Hv. injection Hv as <-.
        destruct HQ as [_ (pre & Hpre & F)].
        rewrite (trace_split _ _ _ _ _ _ Hpre Ht' Ht) in Hin.
        apply in_app_or in Hin as [Hin|[Hin|[]]].
        -- exfalso. rewrite Forall_forall in F.
           apply (F _ (proj2 (list_elem_of_In _ _) Hin)).
        -- injection Hin as _ <- _. exact Hurl.
      * rewrite Hvs in Hv. injection Hv as <-.
        destruct HQ as [_ (pre & Hpre & F)].
        rewrite (trace_split _ _ _ _ _ _ Hpre Ht' Ht) in Hin.
        apply in_app_or in Hin as [Hin|[Hin|[]]].
        -- exfalso. rewrite Forall_forall in F.
           apply (F _ (proj2 (list_elem_of_In _ _) Hin)).
        -- injection Hin as _ <- _. exact Hurl.
    + eapply Ext_events; [|exact Ht].
      eapply stays_run; [|exact Hrun].
      apply stays_migrateSubmission.
      * apply icon_requests_only_icon_get.
      * split; [|intros; exact I].
        intros ? ? ? Himg. rewrite Hty in Himg. discriminate.
      * intros; exact I.
Qed.

Lemma imageStep_legacy_miss s n w u :
  s_type s = image ->
  parseURL env (bang (s_src s)) = Some u ->
  host u = LEGACY_HOST ->
  lookup_misses env (pretty (s_project s)) (lastSegment (pathname u)) w ->
  imageStep env s n w =
    (Ok None,
     set_missing (missing w ++ [s])
       (set_console (console w ++ ["Nothing found for submission: " +:+ s_oid s]) w)).
Proof.
  intros Hty Hu Hh Hmiss. unfold imageStep, newURL.
  destruct (decide (s_type s = image)); [|done].
  rewrite (bind_lift_some _ _ _ _ _ Hu).
  apply try_catch_ok. unfold imageUpload.
  destruct (decide (host u <> LEGACY_HOST)); [done|].
  rewrite (bind_ok _ _ _ _ _ (findImageInCache_miss env _ _ false w Hmiss)).
  reflexivity.
Qed.

(** C5: an image submission whose source is on the legacy host.  Whatever
    the run does, the only GETs it issues are those of an author icon off
    the legacy host: the image itself is never fetched.  When the
    submission reaches the image block and the local lookup misses there,
    the submission is appended to the Missing list and skipped; the Failed
    set and the mapping are unchanged and no further request is made. *)
Theorem legacy_image_is_only_looked_up_locally s w u :
  s_type s = image ->
  parseURL env (bang (s_src s)) = Some u ->
  host u = LEGACY_HOST ->
  (forall r w' evs,
     migrateSubmission env s w = (r, w') ->
     trace w' = trace w ++ evs ->
     Forall (only_icon_get env s) evs) /\
  (forall n w1,
     IdS (s_oid s) ∉ successfullyProcessed (mapping w) ->
     iconStep env s (initialSubmission s w) w = (Ok (Some n), w1) ->
     lookup_misses env (pretty (s_project s)) (lastSegment (pathname u)) w1 ->
     exists w',
       migrateSubmission env s w = (Ok tt, w') /\
       missing w' = missing w ++ [s] /\
       failed w' = failed w /\
       mapping w' = mapping w /\
       trace w' = trace w1).
Proof.
  intros Hty Hu Hh. split.
  - intros r w' evs Hrun Ht.
    eapply Ext_events; [|exact Ht].
    eapply stays_run; [|exact Hrun].
    apply stays_migrateSubmission.
    + apply icon_requests_only_icon_get.
    + split; [|intros; exact I].
      intros u' ? ? _ Hu' Hh'. rewrite Hu in Hu'. injection Hu' as <-. done.
    + intros; exact I.
  - intros n w1 Hnp Hicon Hmiss.
    assert (s_type s <> video) as Hnv by (rewrite Hty; discriminate).
    assert (Quiet is_media w w1) as [(Sm & Sf & Smi & Sd) _].
    { eapply stays_run; [|exact Hicon]. apply stays_iconStep, icon_requests_media. }
    eexists. split.
    + unfold migrateSubmission. rewrite bind_get_world.
      rewrite (proj2 (includes_false _ _) Hnp).
      rewrite (or_return_some _ _ _ _ _ (videoStep_not_video s _ w Hnv)).
      rewrite (or_return_some _ _ _ _ _ Hicon).
      apply or_return_none. now apply (imageStep_legacy_miss s n w1 u).
    + cbn. repeat split; congruence.
Qed.

(** C6, as amended: a submission in the Failed set whose image is off the
    legacy host, with a stale file at its cache path.  Resolving the image
    deletes the cache entry and issues a GET of the encoded source; the
    originals directory is not consulted.  When the GET fails the block
    throws with the entry deleted; when it answers [data], the cache entry
    holds [data] and it is [data] that is handed to the upload. *)
Theorem failed_image_is_refetched s n u stale enc w :
  s_oid s ∈ failed w ->
  parseURL env (bang (s_src s)) = Some u ->
  host u <> LEGACY_HOST ->
  fs w !! cachePath (pretty (s_project s)) (lastSegment (pathname u)) = Some (File stale) ->
  encodeURI env (bang (s_src s)) = Some enc ->
  let path := cachePath (pretty (s_project s)) (lastSegment (pathname u)) in
  match http_get env (trace w) enc with
  | None =>
      imageUpload env s u n w =
        (Throw AxiosError,
         set_trace (trace w ++ [{| ev_call := Get enc; ev_ok := false |}])
           (set_fs (delete path (fs w)) w))
  | Some data =>
      exists w2,
        fs w2 !! path = Some (File data) /\
        trace w2 = trace w ++ [{| ev_call := Get enc; ev_ok := true |}] /\
        Stores w w2 /\
        imageUpload env s u n w =
          bind (uploadFile env SUBMISSION_MEDIA u data)
               (fun id => ret (Some (with_media id n))) w2
  end.
Proof.
  intros Hf Hu Hh Hc He path.
  pose proof (findCacheOrFetch_forced env _ _ _ _ _ w Hu Hc He) as Hfetch.
  cbv zeta in Hfetch. fold path in Hfetch.
  unfold imageUpload.
  destruct (decide (host u <> LEGACY_HOST)); [|done].
  rewrite bind_get_world. rewrite (proj2 (includes_true _ _) Hf).
  unfold fetchAndUpload.
  destruct (http_get env (trace w) enc) as [data|].
  - destruct Hfetch as (w2 & Hrun & Hfs & Ht & HS).
    exists w2. repeat split; try done; try apply HS.
    unfold bind at 1. unfold bind at 1. now rewrite Hrun.
  - unfold bind at 1. unfold bind at 1. now rewrite Hfetch.
Qed.

End SubmissionClaims.

(** * migrateProject *)

Section Project.

Context (env : Env) (snap : Snapshot).

Lemma stays_submission_traffic s :
  stays (Ext submission_traffic) (migrateSubmission env s).
Proof.
  apply stays_migrateSubmission; try split; intros; cbn; done.
Qed.

Lemma stays_walkSubmissions p : stays (Ext submission_traffic) (walkSubmissions env snap p).
Proof.
  unfold walkSubmissions.
  repeat (apply stays_submission_traffic
          || (apply stays_quiet_ext, stays_console_log)
          || stays_step).
Qed.

Lemma stays_ogImageStep p n : stays (Quiet project_media) (ogImageStep env p n).
Proof.
  unfold ogImageStep, newURL.
  repeat ((apply stays_fetchAndUpload; intros; cbn; done) || stays_step).
Qed.

Lemma stays_mediaTask p media : stays (Quiet project_media) (mediaTask env p media).
Proof.
  unfold mediaTask, newURL.
  repeat ((apply stays_fetchAndUpload; intros; cbn; done) || stays_step).
Qed.

Lemma post_or_log_some c id w :
  http_post env (trace w) c = Some id ->
  post_or_log env c w =
    (Ok (Some id), set_trace (trace w ++ [{| ev_call := c; ev_ok := true |}]) w).
Proof.
  intros Hp. unfold post_or_log. apply try_catch_ok.
  now rewrite (bind_ok _ _ _ _ _ (axios_post_some env _ _ _ Hp)).
Qed.

Lemma post_or_log_none c w :
  http_post env (trace w) c = None ->
  post_or_log env c w =
    (Ok None,
     set_console (console w ++ [exn_name AxiosError])
       (set_trace (trace w ++ [{| ev_call := c; ev_ok := false |}]) w)).
Proof.
  intros Hp. unfold post_or_log.
  erewrite try_catch_thrown
    by (erewrite bind_thrown; [reflexivity | exact (axios_post_none env _ _ Hp)]).
  reflexivity.
Qed.

Lemma migrateProject_outcome p w r w' :
  migrateProject env snap p w = (r, w') -> project_outcome env snap p w r w'.
Proof.
  unfold migrateProject. rewrite bind_get_world.
  destruct (includes _ _) eqn:Hinc.
  { intros H. apply project_walked; [now apply includes_true | exact H]. }
  apply includes_false in Hinc. intros H.
  apply bind_inv in H as [(description & w1 & Hd & H)|(? & Hd & ->)].
  2: { apply lift_inv in Hd as [-> _]. now apply project_stopped. }
  apply lift_inv in Hd as [-> _].
  apply bind_inv in H as [(date & w1 & Hd & H)|(? & Hd & ->)].
  2: { apply lift_inv in Hd as [-> _]. now apply project_stopped. }
  apply lift_inv in Hd as [-> _].
  rewrite bind_get_world in H.
  apply or_return_inv in H as [(n1 & w1 & Ho & H)|[[Ho ->]|(? & Ho & ->)]].
  2,3: apply project_stopped; [done|];
       eapply stays_run; [apply stays_ogImageStep | exact Ho].
  assert (Quiet project_media w w1) as Q1
    by (eapply stays_run; [apply stays_ogImageStep | exact Ho]).
  apply bind_inv in H as [(media & w2 & Hm & H)|(? & Hm & ->)].
  2: { apply project_stopped; [done|]. etrans; [exact Q1|].
       eapply stays_run; [|exact Hm].
       apply stays_all_tasks; [typeclasses eauto | apply stays_mediaTask]. }
  assert (Quiet project_media w w2) as Q2.
  { etrans; [exact Q1|]. eapply stays_run; [|exact Hm].
    apply stays_all_tasks; [typeclasses eauto | apply stays_mediaTask]. }
  cbv zeta in H.
  set (c := PostProject (p_id p) (with_project_media (omap id media) n1)) in H.
  destruct (http_post env (trace w2) c) as [docid|] eqn:Hp.
  - erewrite or_return_some in H
      by (rewrite (bind_ok _ _ _ _ _ (post_or_log_some c docid w2 Hp)); reflexivity).
    unfold set_project_id in H. rewrite bind_modify in H.
    unfold push_processed in H. rewrite bind_modify in H.
    eapply project_accepted; [done | exact Q2 | | | | | | exact H];
      cbn; reflexivity.
  - erewrite or_return_none in H
      by (rewrite (bind_ok _ _ _ _ _ (post_or_log_none c w2 Hp)); reflexivity).
    injection H as <- <-.
    eapply project_rejected; [done | exact Q2 | reflexivity | repeat split].
Qed.

(** C7: when the call that creates a project is rejected, [migrateProject]
    returns with the mapping (processed list and projects entry), the
    Failed set and the Missing list as they were; the rejected call is the
    last request of the run, and the requests before it are GETs and
    uploads of the project's own media, so no submission of the project
    was migrated. *)
Theorem rejected_project_is_left_untouched p w r w' evs n :
  migrateProject env snap p w = (r, w') ->
  trace w' = trace w ++ evs ->
  In {| ev_call := PostProject (p_id p) n; ev_ok := false |} evs ->
  r = Ok tt /\
  mapping w' = mapping w /\
  failed w' = failed w /\
  missing w' = missing w /\
  (IdN (p_id p) ∉ successfullyProcessed (mapping w')) /\
  (exists pre,
     evs = pre ++ [{| ev_call := PostProject (p_id p) n; ev_ok := false |}] /\
     Forall project_media pre).
Proof.
  intros Hrun Ht Hin. apply migrateProject_outcome in Hrun.
  destruct Hrun as [r w' Hp Hwalk | r w' Hnp HQ | w1 n' w' Hnp HQ Ht' HS
                   | w1 n' id w2 r w' Hnp HQ Ht2 Hm Hf Hmi Hd Hwalk].
  - exfalso.
    assert (Ext submission_traffic w w') as HE
      by (eapply stays_run; [apply stays_walkSubmissions | exact Hwalk]).
    apply (Ext_In _ _ _ _ _ HE Ht Hin).
  - exfalso. apply (Ext_In _ _ _ _ _ (Quiet_Ext _ _ _ HQ) Ht Hin).
  - destruct HQ as [(Sm & Sf & Smi & Sd) (pre & Hpre & F)].
    destruct HS as (Sm' & Sf' & Smi' & Sd').
    rewrite (trace_split _ _ _ _ _ _ Hpre Ht' Ht) in Hin |- *.
    apply in_app_or in Hin as [Hin|[Hin|[]]].
    { exfalso. rewrite Forall_forall in F.
      apply (F _ (proj2 (list_elem_of_In _ _) Hin)). }
    injection Hin as <-.
    repeat split; try congruence.
    exists pre. split; [reflexivity | exact F].
  - exfalso.
    assert (Ext submission_traffic w2 w') as (subs & Hsubs & Fs)
      by (eapply stays_run; [apply stays_walkSubmissions | exact Hwalk]).
    destruct HQ as [_ (pre & Hpre & F)].
    rewrite Hsubs, Ht2, Hpre in Ht. rewrite <- !app_assoc in Ht.
    apply app_inv_head in Ht. subst evs.
    apply in_app_or in Hin as [Hin|Hin].
    { rewrite Forall_forall in F.
      apply (F _ (proj2 (list_elem_of_In _ _) Hin)). }
    cbn in Hin. destruct Hin as [Hin|Hin]; [discriminate|].
    rewrite Forall_forall in Fs.
    apply (Fs _ (proj2 (list_elem_of_In _ _) Hin)).
Qed.

End Project.

(** * The walk and the processed list *)

#[global] Instance Walk_preorder : PreOrder Walk.
Proof.
  split.
  - intros w. split; [done|]. exists []. split; [now rewrite app_nil_r|].
    intros e x [].
  - intros w1 w2 w3 [M1 (e1 & T1 & C1)] [M2 (e2 & T2 & C2)].
    split; [auto|]. exists (e1 ++ e2). split.
    + rewrite T2, T1. now rewrite app_assoc.
    + intros e x Hin Hc. apply in_app_or in Hin as [Hin|Hin].
      * destruct (C1 e x Hin Hc) as [Hn Hok]. split; auto.
      * destruct (C2 e x Hin Hc) as [Hn Hok]. split; auto.
Qed.

Lemma Ext_Walk (P : Event -> Prop) w w' :
  (forall e, P e -> created_id (ev_call e) = None) ->
  mapping w' = mapping w -> Ext P w w' -> Walk w w'.
Proof.
  intros HP Hm (evs & Ht & F). unfold Walk, processed. rewrite Hm.
  split; [done|]. exists evs. split; [done|].
  intros e x Hin Hc. rewrite Forall_forall in F.
  rewrite (HP e (F _ (proj2 (list_elem_of_In _ _) Hin))) in Hc. discriminate.
Qed.

Lemma is_media_no_creation e : is_media e -> created_id (ev_call e) = None.
Proof. destruct e as [[] b]; cbn; done. Qed.

Lemma project_media_no_creation e : project_media e -> created_id (ev_call e) = None.
Proof. destruct e as [[] b]; cbn; done. Qed.

Lemma Quiet_Walk (P : Event -> Prop) w w' :
  (forall e, P e -> created_id (ev_call e) = None) ->
  Quiet P w w' -> Walk w w'.
Proof. intros HP [(Hm & _) HE]. eapply Ext_Walk; eauto. Qed.

Lemma stays_quiet_walk {A} (m : M A) :
  stays (Quiet is_media) m -> stays Walk m.
Proof. apply stays_mono. intros w w'. apply Quiet_Walk, is_media_no_creation. Qed.

(** One creation call for an unprocessed id. *)
Lemma creation_Walk w w' e x :
  trace w' = trace w ++ [e] ->
  created_id (ev_call e) = Some x ->
  x ∉ processed w ->
  (forall y, y ∈ processed w -> y ∈ processed w') ->
  (ev_ok e = true -> x ∈ processed w') ->
  Walk w w'.
Proof.
  intros Ht Hc Hn Hmono Hok. split; [done|]. exists [e]. split; [done|].
  intros e' x' [<-|[]] Hc'. rewrite Hc in Hc'. injection Hc' as <-. auto.
Qed.

Section WalkLemmas.

Context (env : Env) (snap : Snapshot).

Lemma Walk_migrateSubmission s : stays Walk (migrateSubmission env s).
Proof.
  intros w. destruct (migrateSubmission env s w) as [r w'] eqn:Hrun. cbn.
  apply migrateSubmission_outcome in Hrun.
  destruct Hrun as [Hp | r w' Hnp (Hm & _ & HE) | n1 w1 n w' Hnp _ _ HQ Ht Hsp
                   | n1 w1 n w' Hnp _ _ HQ Ht Hm].
  - reflexivity.
  - eapply Ext_Walk; eauto using is_media_no_creation.
  - etrans; [eapply Quiet_Walk; eauto using is_media_no_creation|].
    assert (mapping w1 = mapping w) as Hpw by (destruct HQ as [(-> & _) _]; done).
    eapply creation_Walk; [exact Ht | reflexivity | | |]; unfold processed.
    + rewrite Hpw. exact Hnp.
    + intros y Hy. rewrite Hsp. apply elem_of_app. now left.
    + intros _. rewrite Hsp. apply elem_of_app. right. now apply list_elem_of_singleton.
  - etrans; [eapply Quiet_Walk; eauto using is_media_no_creation|].
    assert (mapping w1 = mapping w) as Hpw by (destruct HQ as [(-> & _) _]; done).
    eapply creation_Walk; [exact Ht | reflexivity | | |]; unfold processed.
    + rewrite Hpw. exact Hnp.
    + intros y Hy. now rewrite Hm.
    + cbn. discriminate.
Qed.

Lemma Walk_walkSubmissions p : stays Walk (walkSubmissions env snap p).
Proof.
  unfold walkSubmissions.
  repeat (apply Walk_migrateSubmission
          || (apply stays_quiet_walk, stays_console_log)
          || stays_step).
Qed.

Lemma migrateProject_processed p w :
  IdN (p_id p) ∈ processed w ->
  migrateProject env snap p w = walkSubmissions env snap p w.
Proof.
  intros Hp. unfold migrateProject. rewrite bind_get_world.
  now rewrite (proj2 (includes_true _ _) Hp).
Qed.

Lemma Walk_migrateProject p : stays Walk (migrateProject env snap p).
Proof.
  intros w. destruct (migrateProject env snap p w) as [r w'] eqn:Hrun. cbn.
  apply migrateProject_outcome in Hrun.
  destruct Hrun as [r w' Hp Hwalk | r w' Hnp HQ | w1 n w' Hnp HQ Ht HS
                   | w1 n id w2 r w' Hnp HQ Ht Hm Hf Hmi Hd Hwalk].
  - eapply stays_run; [apply Walk_walkSubmissions | exact Hwalk].
  - eapply Quiet_Walk; eauto using project_media_no_creation.
  - etrans; [eapply Quiet_Walk; eauto using project_media_no_creation|].
    assert (mapping w1 = mapping w) as Hpw by (destruct HQ as [(-> & _) _]; done).
    destruct HS as (Sm & _).
    eapply creation_Walk; [exact Ht | reflexivity | | |]; unfold processed.
    + rewrite Hpw. exact Hnp.
    + intros y Hy. now rewrite Sm.
    + cbn. discriminate.
  - etrans; [eapply Quiet_Walk; eauto using project_media_no_creation|].
    assert (mapping w1 = mapping w) as Hpw by (destruct HQ as [(-> & _) _]; done).
    etrans; [|eapply stays_run; [apply Walk_walkSubmissions | exact Hwalk]].
    eapply creation_Walk; [exact Ht | reflexivity | | |]; unfold processed.
    + rewrite Hpw. exact Hnp.
    + intros y Hy. rewrite Hm. cbn. apply elem_of_app. now left.
    + intros _. rewrite Hm. cbn. apply elem_of_app. right.
      now apply list_elem_of_singleton.
Qed.

Lemma Walk_migrateProjects g : stays Walk (migrateProjects env snap g).
Proof.
  unfold migrateProjects.
  repeat (apply Walk_migrateProject
          || (apply stays_quiet_walk, stays_console_log)
          || stays_step).
Qed.

Lemma migrateGuild_processed g w :
  IdS (g_id g) ∈ processed w ->
  migrateGuild env snap g w = migrateProjects env snap g w.
Proof.
  intros Hp. unfold migrateGuild. rewrite bind_get_world.
  now rewrite (proj2 (includes_true _ _) Hp).
Qed.

Lemma stays_guildIconStep g u n : stays (Quiet project_media) (guildIconStep env g u n).
Proof.
  unfold guildIconStep.
  repeat ((apply stays_fetchAndUpload; intros; cbn; done) || stays_step).
Qed.

Lemma Walk_migrateGuild g : stays Walk (migrateGuild env snap g).
Proof.
  intros w. destruct (migrateGuild env snap g w) as [r w'] eqn:H. cbn.
  revert H. unfold migrateGuild. rewrite bind_get_world.
  destruct (includes _ _) eqn:Hinc.
  { intros H. eapply stays_run; [apply Walk_migrateProjects | exact H]. }
  apply includes_false in Hinc. intros H.
  apply bind_inv in H as [(u & w1 & Hu & H)|(? & Hu & ->)].
  2: { apply lift_inv in Hu as [-> _]. reflexivity. }
  apply lift_inv in Hu as [-> _].
  apply bind_inv in H as [(date & w1 & Hd & H)|(? & Hd & ->)].
  2: { apply lift_inv in Hd as [-> _]. reflexivity. }
  apply lift_inv in Hd as [-> _]. cbv zeta in H.
  apply or_return_inv in H as [(n1 & w1 & Hi & H)|[[Hi ->]|(? & Hi & ->)]].
  2,3: eapply Quiet_Walk; [apply project_media_no_creation|];
       eapply stays_run; [apply stays_guildIconStep | exact Hi].
  assert (Quiet project_media w w1) as Q1
    by (eapply stays_run; [apply stays_guildIconStep | exact Hi]).
  assert (mapping w1 = mapping w) as Hpw by (destruct Q1 as [(-> & _) _]; done).
  etrans; [eapply Quiet_Walk; [apply project_media_no_creation | exact Q1]|].
  set (c := PostGuild (g_id g) n1) in H.
  destruct (http_post env (trace w1) c) as [docid|] eqn:Hp.
  - erewrite or_return_some in H
      by (rewrite (bind_ok _ _ _ _ _ (post_or_log_some env c docid w1 Hp)); reflexivity).
    unfold set_guild_id in H. rewrite bind_modify in H.
    unfold push_processed in H. rewrite bind_modify in H.
    etrans; [|eapply stays_run; [apply Walk_migrateProjects | exact H]].
    eapply creation_Walk; [reflexivity | reflexivity | | |]; unfold processed; cbn.
    + rewrite Hpw. exact Hinc.
    + intros y Hy. apply elem_of_app. now left.
    + intros _. apply elem_of_app. right. now apply list_elem_of_singleton.
  - erewrite or_return_none in H
      by (rewrite (bind_ok _ _ _ _ _ (post_or_log_none env c w1 Hp)); reflexivity).
    injection H as <- <-.
    eapply creation_Walk; [reflexivity | reflexivity | | |]; unfold processed; cbn.
    + rewrite Hpw. exact Hinc.
    + done.
    + discriminate.
Qed.

Lemma Walk_main : stays Walk (main env snap).
Proof.
  unfold main, writeAll.
  repeat (apply Walk_migrateGuild
          || (apply stays_quiet_walk, stays_console_log)
          || (apply stays_modify;
              intros w; eapply Ext_Walk;
              [apply is_media_no_creation | reflexivity | now apply Ext_same])
          || stays_step).
Qed.

(** The exit listeners write the accumulators as they are and touch
    neither them nor the log of remote calls. *)
Lemma emitExit_flushes w :
  let w' := emitExit w in
  idmap_json (disk w') = mapping w /\ missing_json (disk w') = missing w /\
  failed_json (disk w') = failed_json (disk w) /\
  mapping w' = mapping w /\ failed w' = failed w /\ missing w' = missing w /\
  trace w' = trace w /\ fs w' = fs w.
Proof. cbn. repeat split. Qed.

Lemma exitHandler_flushes w :
  let w' := exitHandler w in
  idmap_json (disk w') = mapping w /\ missing_json (disk w') = missing w /\
  failed_json (disk w') = failed_json (disk w) /\
  mapping w' = mapping w /\ failed w' = failed w /\ missing w' = missing w /\
  trace w' = trace w /\ fs w' = fs w.
Proof. cbn. repeat split. Qed.

Lemma runProcess_Walk w r w' :
  runProcess env snap w = (r, w') ->
  Walk w w' /\ idmap_json (disk w') = mapping w'.
Proof.
  unfold runProcess.
  destruct (main env snap w) as [[[]|e] wm] eqn:Hmain; intros [= <- <-].
  - assert (Walk w wm) as [Hmono (evs & Ht & Hc)]
      by (eapply stays_run; [apply Walk_main | exact Hmain]).
    split; [|reflexivity]. split; [exact Hmono|]. exists evs. split; [exact Ht|exact Hc].
  - assert (Walk w wm) as [Hmono (evs & Ht & Hc)]
      by (eapply stays_run; [apply Walk_main | exact Hmain]).
    split; [|reflexivity]. split; [exact Hmono|]. exists evs. split; [exact Ht|exact Hc].
Qed.

End WalkLemmas.

(** C1: idempotence of the walk.  An entity whose legacy id is in the
    processed list is not created again, and its children are walked: for
    a processed guild [migrateGuild] is the loop over its projects, for a
    processed project [migrateProject] is the loop over its submissions.
    Hence, for two invocations of the script where the second starts from
    what the first left on disk, every entity-creation call of the second
    run is for an id that is absent from the processed list the first run
    wrote, and so for no id whose creation was accepted in the first
    run. *)
Theorem second_run_creates_nothing_twice cfg env snap w0 :
  (forall g w, IdS (g_id g) ∈ processed w ->
               migrateGuild env snap g w = migrateProjects env snap g w) /\
  (forall p w, IdN (p_id p) ∈ processed w ->
               migrateProject env snap p w = walkSubmissions env snap p w) /\
  (forall evs1 evs2 e2 x,
     let w1 := (script cfg env snap w0).2 in
     let w2 := (script cfg env snap w1).2 in
     trace w1 = trace w0 ++ evs1 ->
     trace w2 = trace w1 ++ evs2 ->
     In e2 evs2 ->
     created_id (ev_call e2) = Some x ->
     (x ∉ successfullyProcessed (idmap_json (disk w1))) /\
     forall e1, In e1 evs1 -> ev_ok e1 = true -> created_id (ev_call e1) <> Some x).
Proof.
  split; [apply migrateGuild_processed|].
  split; [apply migrateProject_processed|].
  intros evs1 evs2 e2 x w1 w2 Ht1 Ht2 Hin Hc.
  subst w2. subst w1. revert Ht1 Ht2. unfold script.
  destruct (checkEnv cfg).
  2: { cbn. intros _ Ht2. rewrite <- (app_nil_r (trace w0)) in Ht2 at 1.
       apply app_inv_head in Ht2. subst. destruct Hin. }
  destruct (runProcess env snap (load w0)) as [r1 w1] eqn:Hrun1. cbn.
  destruct (runProcess env snap (load w1)) as [r2 w2] eqn:Hrun2. cbn.
  intros Ht1 Ht2.
  apply runProcess_Walk in Hrun1 as [[_ (evs1' & Ht1' & C1)] Hdisk1].
  apply runProcess_Walk in Hrun2 as [[_ (evs2' & Ht2' & C2)] _].
  change (trace (load w0)) with (trace w0) in Ht1'.
  change (trace (load w1)) with (trace w1) in Ht2'.
  rewrite Ht1 in Ht1'. apply app_inv_head in Ht1'. subst evs1'.
  rewrite Ht2 in Ht2'. apply app_inv_head in Ht2'. subst evs2'.
  destruct (C2 e2 x Hin Hc) as [Hn _].
  change (processed (load w1)) with (successfullyProcessed (idmap_json (disk w1))) in Hn.
  split; [exact Hn|].
  intros e1 Hin1 Hok1 Hc1.
  destruct (C1 e1 x Hin1 Hc1) as [_ Hp]. specialize (Hp Hok1).
  unfold processed in Hp. rewrite <- Hdisk1 in Hp. done.
Qed.

(** * An exception that leaves the walk *)

Section Escapes.

Context (env : Env) (snap : Snapshot).

Lemma migrateGuild_unparsable_icon g w :
  IdS (g_id g) ∉ processed w ->
  parseURL env (g_image g) = None ->
  migrateGuild env snap g w = (Throw InvalidURL, w).
Proof.
  intros Hnp Hu. unfold migrateGuild. rewrite bind_get_world.
  rewrite (proj2 (includes_false _ _) Hnp).
  unfold newURL. now rewrite (bind_lift_none _ _ _ _ Hu).
Qed.

(** [new URL(guild.image)] stands outside every [try]: an unprocessed
    guild whose icon does not parse ends [main] at once, whatever guilds
    come after it. *)
Lemma unparsable_guild_icon_ends_main g rest w :
  guilds snap = g :: rest ->
  IdS (g_id g) ∉ processed w ->
  parseURL env (g_image g) = None ->
  main env snap w =
    (Throw InvalidURL, set_console (console w ++ ["Starting migration"]) w).
Proof.
  intros Hg Hnp Hu. unfold main. rewrite bind_console_log, Hg. cbn [for_each].
  erewrite bind_thrown; [reflexivity|].
  erewrite bind_thrown; [reflexivity|].
  erewrite bind_thrown; [reflexivity|].
  now apply migrateGuild_unparsable_icon.
Qed.

End Escapes.

(** * What is on disk when the process ends *)

Section Flush.

Context (env : Env) (snap : Snapshot).

Lemma main_returns_flushed w w' :
  main env snap w = (Ok tt, w') ->
  idmap_json (disk w') = mapping w' /\
  missing_json (disk w') = missing w' /\
  failed_json (disk w') = failed w'.
Proof.
  unfold main, writeAll. intros H.
  apply bind_inv in H as [(? & w1 & _ & H)|(? & _ & ?)]; [|done].
  apply bind_inv in H as [(? & w2 & _ & H)|(? & _ & ?)]; [|done].
  rewrite bind_console_log, bind_modify in H.
  injection H as <-. cbn. repeat split.
Qed.

(** C4, as amended: when [main] runs to its end, the mapping, the Missing
    list and the Failed set are all on disk when the process exits.  On an
    interruption (SIGINT, SIGUSR1, SIGUSR2, an uncaught exception) at any
    point [w] of the walk, [exitHandler] writes the mapping and the
    Missing list as they are at [w]; it does not write the Failed set,
    whose file keeps its previous content. *)
Theorem flushed_on_exit_failed_only_at_the_end w :
  (forall w',
     runProcess env snap w = (Ok tt, w') ->
     idmap_json (disk w') = mapping w' /\
     missing_json (disk w') = missing w' /\
     failed_json (disk w') = failed w') /\
  (let w' := interrupt w in
   idmap_json (disk w') = mapping w /\
   missing_json (disk w') = missing w /\
   failed_json (disk w') = failed_json (disk w) /\
   mapping w' = mapping w /\ missing w' = missing w /\ failed w' = failed w).
Proof.
  split.
  - intros w'. unfold runProcess.
    destruct (main env snap w) as [[[]|e] wm] eqn:Hmain; [|discriminate].
    intros [= <-]. apply main_returns_flushed in Hmain as (Hi & Hm & Hf).
    cbn. repeat split. exact Hf.
  - cbn. repeat split.
Qed.

End Flush.

(** * Helpers on strings: the cache key and the upload name *)

Lemma append_cons (c : ascii) (a b : string) :
  String c a +:+ b = String c (a +:+ b).
Proof. reflexivity. Qed.

Lemma append_assoc (a b c : string) : (a +:+ b) +:+ c = a +:+ (b +:+ c).
Proof.
  induction a as [|x a IH]; [reflexivity|].
  rewrite !append_cons. now rewrite IH.
Qed.

Lemma has_char_app c a b :
  has_char c (a +:+ b) = has_char c a || has_char c b.
Proof.
  induction a as [|x a IH]; [reflexivity|].
  rewrite append_cons. cbn. rewrite IH. now rewrite orb_assoc.
Qed.

Lemma lastSegmentFrom_no_slash cur s :
  has_char "/" cur = false -> has_char "/" (lastSegmentFrom cur s) = false.
Proof.
  revert cur. induction s as [|c s IH]; intros cur Hcur; cbn; [done|].
  destruct (Ascii.eqb c "/") eqn:Hc.
  - now apply IH.
  - apply IH. rewrite has_char_app, Hcur. cbn. now rewrite Hc.
Qed.

Lemma lastSegmentFrom_plain cur s :
  has_char "/" s = false -> lastSegmentFrom cur s = cur +:+ s.
Proof.
  revert cur. induction s as [|c s IH]; intros cur Hs; cbn.
  - now rewrite string_app_nil_r.
  - cbn in Hs. apply orb_false_iff in Hs as [Hc Hs]. rewrite Hc.
    rewrite (IH _ Hs), append_assoc. reflexivity.
Qed.

Lemma lastSegmentFrom_after_slash cur pre name :
  has_char "/" name = false ->
  lastSegmentFrom cur (pre +:+ "/" +:+ name) = name.
Proof.
  intros Hn. revert cur. induction pre as [|c pre IH]; intros cur.
  - change ("" +:+ "/" +:+ name) with (String "/" name). cbn.
    now rewrite lastSegmentFrom_plain.
  - rewrite append_cons. cbn. destruct (Ascii.eqb c "/"); apply IH.
Qed.

(** X1: the cache key taken from a URL path, [pathSplit[pathSplit.length
    - 1]], never contains a slash; it is the part after the last slash,
    and the whole string when there is no slash. *)
Theorem lastSegment_is_the_part_after_the_last_slash :
  (forall s, has_char "/" (lastSegment s) = false) /\
  (forall pre name, has_char "/" name = false ->
                    lastSegment (pre +:+ "/" +:+ name) = name) /\
  (forall s, has_char "/" s = false -> lastSegment s = s).
Proof.
  split; [|split].
  - intros s. now apply lastSegmentFrom_no_slash.
  - intros pre name Hn. now apply lastSegmentFrom_after_slash.
  - intros s Hs. unfold lastSegment. now rewrite lastSegmentFrom_plain.
Qed.

Lemma replaceHash_no_hash s : has_char "#" (replaceHash s) = false.
Proof.
  induction s as [|c s IH]; cbn; [done|]. rewrite IH.
  destruct (Ascii.eqb c "#") eqn:Hc; cbn; [done|]. now rewrite Hc.
Qed.

(** X2: [s.replace(/#/g, '-')] leaves no [#] in the name, keeps its
    length, and changes nothing in a name without [#]. *)
Theorem replaceHash_removes_every_hash s :
  has_char "#" (replaceHash s) = false /\
  String.length (replaceHash s) = String.length s /\
  (has_char "#" s = false -> replaceHash s = s).
Proof.
  split; [apply replaceHash_no_hash|]. split.
  - induction s as [|c s IH]; cbn; [done|]. now rewrite IH.
  - induction s as [|c s IH]; cbn; [done|]. intros H.
    apply orb_false_iff in H as [Hc Hs]. rewrite Hc. now rewrite IH.
Qed.

(** * More on the image cache *)

Section CacheMore.

Context (env : Env).

Lemma cacheImage_grows folder filename file w :
  fs w !! cachePath folder filename = None ->
  exists w', cacheImage folder filename file w = (Ok tt, w') /\
             fs w' !! cachePath folder filename = Some (File file) /\
             fs w ⊆ fs w' /\
             Stores w w' /\ trace w' = trace w.
Proof.
  intros Hc. unfold cacheImage. rewrite bind_existsSync.
  assert ((exists n, fs w !! cacheDir folder = Some n) \/ fs w !! cacheDir folder = None)
    as [[n Ed]|Ed] by (destruct (fs w !! cacheDir folder); eauto).
  - rewrite (existsSync_present _ _ _ Ed). cbn.
    unfold bind, ret, writeFileSync. rewrite Hc.
    eexists. split; [reflexivity|]. cbn. rewrite lookup_insert_eq.
    repeat split. now apply insert_subseteq.
  - rewrite (existsSync_absent _ _ Ed). cbn.
    unfold bind, mkdirSync, writeFileSync. rewrite Ed. cbn.
    rewrite lookup_insert_ne by apply cacheDir_not_cachePath. rewrite Hc.
    eexists. split; [reflexivity|]. cbn. rewrite lookup_insert_eq.
    repeat split. etrans; [apply (insert_subseteq _ (cacheDir folder) Dir Ed)|].
    apply insert_subseteq.
    now rewrite lookup_insert_ne by apply cacheDir_not_cachePath.
Qed.






(** X6: when the file is nowhere on disk and the GET fails,
    [findCacheOrFetch] throws after that one request; nothing is written
    to the cache and nothing else changes. *)
Theorem failed_fetch_caches_nothing folder url u enc isFailed w :
  parseURL env url = Some u ->
  lookup_misses env folder (lastSegment (pathname u)) w ->
  encodeURI env url = Some enc ->
  http_get env (trace w) enc = None ->
  findCacheOrFetch env folder url isFailed w =
    (Throw AxiosError,
     set_trace (trace w ++ [{| ev_call := Get enc; ev_ok := false |}]) w).
Proof.
  intros Hu Hmiss He Hg.
  unfold findCacheOrFetch, newURL, encodeURI_M.
  rewrite (bind_lift_some _ _ _ _ _ Hu). cbv zeta.
  rewrite (bind_ok _ _ _ _ _ (findImageInCache_miss env _ _ isFailed w Hmiss)).
  rewrite (bind_lift_some _ _ _ _ _ He).
  now rewrite (bind_thrown _ _ _ _ _ (axios_get_none env enc w Hg)).
Qed.

Lemma forced_lookup_not_some folder filename w b w' :
  findImageInCache env folder filename true w = (Ok (Some b), w') -> False.
Proof.
  unfold findImageInCache.
  rewrite bind_existsSync. destruct (bool_decide _).
  { intros H. apply bind_inv in H as [(? & ? & _ & H)|(? & _ & ?)]; [|done].
    inversion H. }
  rewrite bind_existsSync. destruct (bool_decide _).
  { intros H. apply bind_inv in H as [(? & ? & _ & H)|(? & _ & ?)]; [|done].
    inversion H. }
  intros H. apply bind_inv in H as [(d & w1 & _ & H)|(? & _ & ?)]; [|done].
  rewrite bind_existsSync in H. destruct (bool_decide _).
  { apply bind_inv in H as [(? & ? & _ & H)|(? & _ & ?)]; [|done].
    inversion H. }
  inversion H.
Qed.

(** X7: a lookup with the force-invalidation flag never returns bytes: it
    answers not-found or throws, whatever is on disk. *)
Theorem forced_lookup_never_returns_bytes folder filename w :
  let r := (findImageInCache env folder filename true w).1 in
  r = Ok None \/ exists e, r = Throw e.
Proof.
  cbv zeta.
  destruct (findImageInCache env folder filename true w) as [[[b|]|e] w'] eqn:H; cbn.
  - exfalso. eapply forced_lookup_not_some; eauto.
  - now left.
  - right. eauto.
Qed.

(** X8: a lookup without the flag never removes or changes a file that
    exists: the image tree before is contained in the image tree after. *)
Theorem plain_lookup_keeps_every_file folder filename w :
  fs w ⊆ fs (findImageInCache env folder filename false w).2.
Proof.
  unfold findImageInCache. rewrite bind_existsSync.
  destruct (fs w !! cachePath folder filename) as [n|] eqn:Hc.
  { rewrite bool_decide_eq_true_2 by eauto. cbv beta iota.
    unfold bind, readFileSync. rewrite Hc. destruct n; reflexivity. }
  rewrite bool_decide_eq_false_2 by (intros [x Hx]; discriminate). cbv beta iota.
  assert (forall file k,
            fs w ⊆ fs (bind (cacheImage folder filename file)
                            (fun _ => ret (A:=option Buffer) k) w).2) as Hwrite.
  { intros file k.
    destruct (cacheImage_grows folder filename file w Hc) as (w' & Hw & _ & Hsub & _).
    now rewrite (bind_ok _ _ _ _ _ Hw). }
  rewrite bind_existsSync. destruct (bool_decide _).
  { unfold bind at 1. unfold readFileSync.
    destruct (fs w !! origPath folder filename) as [[b|]|]; try reflexivity.
    apply Hwrite. }
  unfold decodeURI_M. destruct (decodeURIComponent env filename) as [d|]; [|reflexivity].
  cbn [lift]. unfold bind at 1, ret at 1.
  rewrite bind_existsSync. destruct (bool_decide _); [|reflexivity].
  unfold bind at 1. unfold readFileSync.
  destruct (fs w !! origPath folder d) as [[b|]|]; try reflexivity.
  apply Hwrite.
Qed.

(** X9: a cache lookup is local: with or without the flag, whatever its
    result, it issues no remote call and leaves the mapping, the Failed
    set, the Missing list and the data files as they were. *)
Theorem cache_lookup_is_local folder filename isFailed w :
  let w' := (findImageInCache env folder filename isFailed w).2 in
  trace w' = trace w /\ mapping w' = mapping w /\ failed w' = failed w /\
  missing w' = missing w /\ disk w' = disk w.
Proof.
  intros w'.
  destruct (stays_findImageInCache env (fun _ => False) folder filename isFailed w)
    as [(Sm & Sf & Smi & Sd) (evs & Ht & F)].
  fold w' in Sm, Sf, Smi, Sd, Ht.
  destruct evs as [|e evs]; [|inversion F; contradiction].
  rewrite app_nil_r in Ht. repeat split; assumption.
Qed.

End CacheMore.

(** * More on migrateSubmission *)

Section SubmissionMore.

Context (env : Env).

Lemma same_base_refl n : same_base n n.
Proof. repeat split. Qed.

Lemma same_base_trans n1 n2 n3 : same_base n1 n2 -> same_base n2 n3 -> same_base n1 n3.
Proof.
  intros (a & b & c & d & e) (a' & b' & c' & d' & e'). repeat split; congruence.
Qed.

Lemma videoStep_base s n0 w n w' :
  videoStep env s n0 w = (Ok (Some n), w') -> same_base n n0.
Proof.
  intros H. apply videoStep_some in H as (_ & _ & _ & [->|(src & _ & _ & ->)]);
    repeat split.
Qed.

Lemma iconStep_base s n0 w n w' :
  iconStep env s n0 w = (Ok (Some n), w') -> same_base n n0.
Proof.
  unfold iconStep, newURL.
  destruct (truthy (s_srcIcon s)) as [icon|].
  2: { intros [= <- _]. apply same_base_refl. }
  intros H. apply bind_inv in H as [(u & w1 & Hu & H)|(? & _ & ?)]; [|done].
  destruct (decide (host u <> LEGACY_HOST)).
  2: { injection H as <- _. apply same_base_refl. }
  apply try_catch_inv in H as [(a & H & Ha)|(? & w2 & _ & H)].
  - apply bind_inv in H as [(id & w2 & _ & H)|(? & _ & ?)]; [|done].
    inversion H; subst. inversion Ha; subst. repeat split.
  - apply bind_inv in H as [(? & ? & _ & H)|(? & _ & ?)]; [|done].
    inversion H.
Qed.

Lemma imageUpload_base s u n0 w n w' :
  imageUpload env s u n0 w = (Ok (Some n), w') -> same_base n n0.
Proof.
  unfold imageUpload.
  destruct (decide (host u <> LEGACY_HOST)).
  - rewrite bind_get_world. intros H.
    apply bind_inv in H as [(id & w1 & _ & H)|(? & _ & ?)]; [|done].
    injection H as <- _. repeat split.
  - intros H.
    apply bind_inv in H as [(buf & w1 & _ & H)|(? & _ & ?)]; [|done].
    destruct buf as [file|].
    + apply bind_inv in H as [(id & w2 & _ & H)|(? & _ & ?)]; [|done].
      injection H as <- _. repeat split.
    + rewrite bind_console_log in H. unfold push_missing in H.
      rewrite bind_modify in H. inversion H.
Qed.

Lemma imageStep_base s n0 w n w' :
  imageStep env s n0 w = (Ok (Some n), w') -> same_base n n0.
Proof.
  unfold imageStep, newURL.
  destruct (decide (s_type s = image)).
  2: { intros [= <- _]. apply same_base_refl. }
  intros H. apply bind_inv in H as [(u & w1 & _ & H)|(? & _ & ?)]; [|done].
  apply try_catch_inv in H as [(a & H & [= <-])|(? & w2 & _ & H)].
  - eapply imageUpload_base; eauto.
  - rewrite bind_console_log in H. unfold console_error in H.
    rewrite bind_console_log in H. unfold push_failed in H.
    rewrite bind_modify in H. inversion H.
Qed.

(** A creation request in the log of a call means that the three blocks
    before the creation let the submission through. *)
Lemma migrateSubmission_reaches_creation s w r w' evs legacy n b :
  migrateSubmission env s w = (r, w') ->
  trace w' = trace w ++ evs ->
  In {| ev_call := PostSubmission legacy n; ev_ok := b |} evs ->
  legacy = s_oid s /\
  same_base n (initialSubmission s w) /\
  exists pre, evs = pre ++ [{| ev_call := PostSubmission (s_oid s) n; ev_ok := b |}] /\
              Forall is_media pre.
Proof.
  unfold migrateSubmission. rewrite bind_get_world.
  destruct (includes _ _) eqn:Hinc.
  { intros [= <- <-] Ht Hin. rewrite <- (app_nil_r (trace w)) in Ht at 1.
    apply app_inv_head in Ht. subst. destruct Hin. }
  intros H Ht Hin.
  assert (forall w0, Pre is_media w w0 -> trace w0 = trace w ++ evs -> False) as Hstop.
  { intros w0 HP Ht0. apply (Ext_In _ _ _ _ _ (Pre_Ext _ _ _ HP) Ht0 Hin). }
  apply or_return_inv in H as [(n1 & w1 & Hv & H)|[[Hv ->]|(? & Hv & ->)]].
  2,3: exfalso; apply (Hstop w'); [|exact Ht];
       eapply stays_run; [apply stays_videoStep | exact Hv].
  pose proof (videoStep_base _ _ _ _ _ Hv) as B1.
  pose proof (videoStep_some _ _ _ _ _ _ Hv) as (-> & _).
  apply or_return_inv in H as [(n2 & w2 & Hi & H)|[[Hi ->]|(? & Hi & ->)]].
  2,3: exfalso; apply (Hstop w'); [|exact Ht]; apply Quiet_Pre;
       eapply stays_run; [apply stays_iconStep, icon_requests_media | exact Hi].
  pose proof (iconStep_base _ _ _ _ _ Hi) as B2.
  assert (Quiet is_media w w2) as Q2
    by (eapply stays_run; [apply stays_iconStep, icon_requests_media | exact Hi]).
  apply or_return_inv in H as [(n3 & w3 & Hm & H)|[[Hm ->]|(? & Hm & ->)]].
  2,3: exfalso; apply (Hstop w'); [|exact Ht]; etrans; [apply Quiet_Pre, Q2|];
       eapply stays_run; [apply stays_imageStep, image_requests_media | exact Hm].
  pose proof (imageStep_base _ _ _ _ _ Hm) as B3.
  apply (imageStep_some env s is_media) in Hm as [Q3 _];
    [|apply image_requests_media].
  assert (Quiet is_media w w3) as [_ (pre & Hpre & F)] by (etrans; eauto).
  assert (exists b', trace w' = trace w3 ++
            [{| ev_call := PostSubmission (s_oid s) n3; ev_ok := b' |}]) as [b' Ht'].
  { destruct (http_post env (trace w3) (PostSubmission (s_oid s) n3)) as [id|] eqn:Hp.
    - destruct (createStep_created env s n3 w3 id Hp) as (w4 & Hc & Ht4 & _).
      rewrite Hc in H. injection H as _ <-. eauto.
    - destruct (createStep_rejected env s n3 w3 Hp) as (w4 & Hc & Ht4 & _).
      rewrite Hc in H. injection H as _ <-. eauto. }
  rewrite (trace_split _ _ _ _ _ _ Hpre Ht' Ht) in Hin |- *.
  apply in_app_or in Hin as [Hin|[Hin|[]]].
  { exfalso. rewrite Forall_forall in F.
    apply (F _ (proj2 (list_elem_of_In _ _) Hin)). }
  injection Hin as <- <- <-.
  split; [reflexivity|]. split.
  - eapply same_base_trans; [exact B3|]. eapply same_base_trans; eassumption.
  - exists pre. split; [reflexivity | exact F].
Qed.

(** X10: every creation request a call of [migrateSubmission] issues is
    for the submission's own id and is the last request of the call; its
    body carries the project id the mapping holds for the legacy project
    (possibly none), the type, the author (['Anonymous'] when absent), the
    subtype, and the message when it is not empty. *)
Theorem created_submission_carries_the_legacy_fields s w r w' evs legacy n b :
  migrateSubmission env s w = (r, w') ->
  trace w' = trace w ++ evs ->
  In {| ev_call := PostSubmission legacy n; ev_ok := b |} evs ->
  legacy = s_oid s /\
  ns_project n = m_projects (mapping w) !! s_project s /\
  ns_type n = s_type s /\
  ns_author n = default "Anonymous" (s_author s) /\
  ns_subtype n = s_subtype s /\
  ns_message n = truthy (s_message s) /\
  (exists pre, evs = pre ++ [{| ev_call := PostSubmission (s_oid s) n; ev_ok := b |}] /\
               Forall is_media pre).
Proof.
  intros Hrun Ht Hin.
  destruct (migrateSubmission_reaches_creation _ _ _ _ _ _ _ _ Hrun Ht Hin)
    as (Hl & (Bp & Bt & Ba & Bs & Bm) & Hpre).
  repeat split; try assumption.
Qed.

(** X11: a call that adds to the Missing list or to the Failed set leaves
    the mapping as it was, so the submission is not marked processed; a
    call that adds to the Missing list has issued no creation request. *)
Theorem missing_or_failed_is_not_processed s w r w' :
  migrateSubmission env s w = (r, w') ->
  missing w' <> missing w \/ failed w' <> failed w ->
  mapping w' = mapping w /\
  (missing w' <> missing w ->
   exists evs, trace w' = trace w ++ evs /\ Forall is_media evs).
Proof.
  intros Hrun Hch. apply migrateSubmission_outcome in Hrun.
  destruct Hrun as [Hp | r w' Hnp (Hm & _ & HE) | n1 w1 n w' Hnp _ _ HQ Ht Hsp Hg Hpj Hf Hmi
                   | n1 w1 n w' Hnp _ _ HQ Ht Hm Hf Hmi].
  - destruct Hch as [Hch|Hch]; done.
  - split; [exact Hm|]. intros _. exact HE.
  - exfalso. destruct HQ as [(_ & Sf & Smi & _) _].
    destruct Hch as [Hch|Hch]; apply Hch; congruence.
  - destruct HQ as [(Sm & Sf & Smi & _) _]. split; [congruence|].
    intros Hch'. exfalso. apply Hch'. congruence.
Qed.

(** X12: once the creation of a submission was accepted, a further call
    for the same submission does nothing: it returns at once and leaves
    the world as it is. *)
Theorem accepted_submission_is_skipped_afterwards s w r w' evs n :
  migrateSubmission env s w = (r, w') ->
  trace w' = trace w ++ evs ->
  In {| ev_call := PostSubmission (s_oid s) n; ev_ok := true |} evs ->
  migrateSubmission env s w' = (Ok tt, w').
Proof.
  intros Hrun Ht Hin. apply migrateSubmission_outcome in Hrun.
  assert (IdS (s_oid s) ∈ successfullyProcessed (mapping w')) as Hp.
  { destruct Hrun as [Hp | r w' Hnp Hpre | n1 w1 n' w' Hnp _ _ HQ Ht' Hsp
                     | n1 w1 n' w' Hnp _ _ HQ Ht'].
    - exact Hp.
    - exfalso. apply (Ext_In _ _ _ _ _ (Pre_Ext _ _ _ Hpre) Ht Hin).
    - rewrite Hsp. apply elem_of_app. right. now apply list_elem_of_singleton.
    - exfalso. destruct HQ as [_ (pre & Hpre & F)].
      rewrite (trace_split _ _ _ _ _ _ Hpre Ht' Ht) in Hin.
      apply in_app_or in Hin as [Hin|[Hin|[]]]; [|discriminate].
      rewrite Forall_forall in F. apply (F _ (proj2 (list_elem_of_In _ _) Hin)). }
  unfold migrateSubmission. rewrite bind_get_world.
  now rewrite (proj2 (includes_true _ _) Hp).
Qed.

Lemma imageUpload_thrown s u n w e w' :
  s_type s = image ->
  parseURL env (bang (s_src s)) = Some u ->
  imageUpload env s u n w = (Throw e, w') ->
  Quiet is_media w w'.
Proof.
  intros Hty Hu. unfold imageUpload.
  destruct (decide (host u <> LEGACY_HOST)) as [Hh|Hh].
  - intros H. eapply stays_run; [|exact H].
    repeat ((apply stays_fetchAndUpload; intros; exact I) || stays_step).
  - intros H.
    apply bind_inv in H as [(buf & w1 & Hf & H)|(? & Hf & _)].
    2: { eapply stays_run; [apply stays_findImageInCache | exact Hf]. }
    assert (Quiet is_media w w1) as Q1
      by (eapply stays_run; [apply stays_findImageInCache | exact Hf]).
    destruct buf as [file|].
    + etrans; [exact Q1|]. eapply stays_run; [|exact H].
      repeat ((apply stays_uploadFile; intros; exact I) || stays_step).
    + rewrite bind_console_log in H. unfold push_missing in H.
      rewrite bind_modify in H. inversion H.
Qed.

(** X13: an image submission that reaches the image block and whose image
    fetch, lookup or upload throws: [migrateSubmission] returns normally,
    the id is appended to the Failed set, the Missing list and the mapping
    are unchanged, and no request follows the failure, so nothing is
    created. *)
Theorem image_failure_marks_failed s w n w1 u e w2 :
  IdS (s_oid s) ∉ successfullyProcessed (mapping w) ->
  s_type s = image ->
  iconStep env s (initialSubmission s w) w = (Ok (Some n), w1) ->
  parseURL env (bang (s_src s)) = Some u ->
  imageUpload env s u n w1 = (Throw e, w2) ->
  exists w',
    migrateSubmission env s w = (Ok tt, w') /\
    failed w' = failed w ++ [s_oid s] /\
    missing w' = missing w /\
    mapping w' = mapping w /\
    trace w' = trace w2 /\
    (exists evs, trace w' = trace w ++ evs /\ Forall is_media evs).
Proof.
  intros Hnp Hty Hicon Hu Hup.
  assert (s_type s <> video) as Hnv by (rewrite Hty; discriminate).
  assert (Quiet is_media w w1) as Q1
    by (eapply stays_run; [apply stays_iconStep, icon_requests_media | exact Hicon]).
  assert (Quiet is_media w1 w2) as Q2 by (eapply imageUpload_thrown; eauto).
  assert (Quiet is_media w w2) as [(Sm & Sf & Smi & Sd) HE] by (etrans; eauto).
  eexists. split.
  - unfold migrateSubmission. rewrite bind_get_world.
    rewrite (proj2 (includes_false _ _) Hnp).
    rewrite (or_return_some _ _ _ _ _ (videoStep_not_video env s _ w Hnv)).
    rewrite (or_return_some _ _ _ _ _ Hicon).
    apply or_return_none. unfold imageStep, newURL.
    destruct (decide (s_type s = image)); [|done].
    rewrite (bind_lift_some _ _ _ _ _ Hu).
    rewrite (try_catch_thrown _ _ _ _ _ Hup). reflexivity.
  - cbn. repeat split; try congruence. exact HE.
Qed.

(** X14: a submission without author icon that is not an image and is not
    a video on the legacy host causes exactly one request, the creation
    of the submission; the image tree is not touched. *)
Theorem plain_submission_is_one_request s w :
  IdS (s_oid s) ∉ successfullyProcessed (mapping w) ->
  video_passes env s ->
  truthy (s_srcIcon s) = None ->
  s_type s <> image ->
  exists n b w',
    migrateSubmission env s w = (Ok tt, w') /\
    trace w' = trace w ++ [{| ev_call := PostSubmission (s_oid s) n; ev_ok := b |}] /\
    fs w' = fs w /\
    (b = true -> IdS (s_oid s) ∈ successfullyProcessed (mapping w')) /\
    (b = false -> s_oid s ∈ failed w').
Proof.
  intros Hnp Hv Hi Hty.
  destruct (videoStep_passes env s (initialSubmission s w) w Hv) as (n1 & Hvs).
  assert (iconStep env s n1 w = (Ok (Some n1), w)) as His
    by (unfold iconStep; now rewrite Hi).
  assert (imageStep env s n1 w = (Ok (Some n1), w)) as Hms
    by (unfold imageStep; destruct (decide (s_type s = image)); done).
  assert (migrateSubmission env s w = createStep env s n1 w) as Hrun.
  { unfold migrateSubmission. rewrite bind_get_world.
    rewrite (proj2 (includes_false _ _) Hnp).
    rewrite (or_return_some _ _ _ _ _ Hvs).
    rewrite (or_return_some _ _ _ _ _ His).
    now rewrite (or_return_some _ _ _ _ _ Hms). }
  exists n1. rewrite Hrun.
  destruct (http_post env (trace w) (PostSubmission (s_oid s) n1)) as [id|] eqn:Hp.
  - destruct (createStep_created env s n1 w id Hp)
      as (w' & Hc & Ht & Hsp & _ & _ & _ & _ & _ & Hfs).
    exists true, w'. repeat split; try assumption; [|discriminate].
    intros _. rewrite Hsp. apply elem_of_app. right. now apply list_elem_of_singleton.
  - destruct (createStep_rejected env s n1 w Hp)
      as (w' & Hc & Ht & _ & Hf & _ & _ & Hfs).
    exists false, w'. repeat split; try assumption; [discriminate|].
    intros _. rewrite Hf. apply elem_of_app. right. now apply list_elem_of_singleton.
Qed.

End SubmissionMore.

(** * Relations kept by the whole walk *)

(** A preorder on worlds that contains every step which leaves the
    accumulators alone, and the five updates of the accumulators, is kept
    by the walk over any list of guilds. *)
Section AccumulatorWalk.

Context (env : Env) (snap : Snapshot).
Context (R : relation World) `{!PreOrder R}.

Hypothesis R_quiet : forall (P : Event -> Prop) w w', Quiet P w w' -> R w w'.
Hypothesis R_missing : forall s, stays R (push_missing s).
Hypothesis R_failed : forall oid, stays R (push_failed oid).
Hypothesis R_processed : forall x, stays R (push_processed x).
Hypothesis R_project : forall legacy id, stays R (set_project_id legacy id).
Hypothesis R_guild : forall legacy id, stays R (set_guild_id legacy id).

Lemma kept_quiet {A} (P : Event -> Prop) (m : M A) :
  stays (Quiet P) m -> stays R m.
Proof. apply stays_mono. intros w w'. apply R_quiet. Qed.

Lemma kept_console_log line : stays R (console_log line).
Proof. apply (kept_quiet is_media), stays_console_log. Qed.

Lemma kept_console_error line e : stays R (console_error line e).
Proof. apply kept_console_log. Qed.

Lemma stays_post_or_log (P : Event -> Prop) c :
  (forall b, P {| ev_call := c; ev_ok := b |}) ->
  stays (Quiet P) (post_or_log env c).
Proof.
  intros HP. unfold post_or_log.
  repeat first [ apply stays_axios_post; exact HP | stays_step ].
Qed.

Lemma kept_videoStep s n : stays R (videoStep env s n).
Proof.
  unfold videoStep, newURL.
  repeat first [ apply R_missing | apply kept_console_log | stays_step ].
Qed.

Lemma kept_iconStep s n : stays R (iconStep env s n).
Proof. apply (kept_quiet is_media), stays_iconStep, icon_requests_media. Qed.

Lemma kept_imageUpload s u n : stays R (imageUpload env s u n).
Proof.
  unfold imageUpload.
  destruct (decide (host u <> LEGACY_HOST)).
  - apply (kept_quiet is_media).
    repeat first [ apply stays_fetchAndUpload; intros; exact I | stays_step ].
  - apply stays_bind; [typeclasses eauto| |intros [file|]].
    + apply (kept_quiet is_media), stays_findImageInCache.
    + apply (kept_quiet is_media).
      repeat first [ apply stays_uploadFile; intros; exact I | stays_step ].
    + repeat first [ apply R_missing | apply kept_console_log | stays_step ].
Qed.

Lemma kept_imageStep s n : stays R (imageStep env s n).
Proof.
  unfold imageStep, newURL.
  repeat first
    [ apply kept_imageUpload | apply R_failed
    | apply kept_console_log | apply kept_console_error | stays_step ].
Qed.

Lemma kept_createStep s n : stays R (createStep env s n).
Proof.
  unfold createStep.
  repeat first
    [ apply R_failed | apply R_processed
    | apply kept_console_log | apply kept_console_error
    | apply (kept_quiet (fun _ => True)), stays_axios_post; intros; exact I
    | stays_step ].
Qed.

Lemma kept_migrateSubmission s : stays R (migrateSubmission env s).
Proof.
  unfold migrateSubmission.
  repeat first
    [ apply kept_videoStep | apply kept_iconStep | apply kept_imageStep
    | apply kept_createStep | stays_step ].
Qed.

Lemma kept_walkSubmissions p : stays R (walkSubmissions env snap p).
Proof.
  unfold walkSubmissions.
  repeat first [ apply kept_migrateSubmission | apply kept_console_log | stays_step ].
Qed.

Lemma kept_migrateProject p : stays R (migrateProject env snap p).
Proof.
  unfold migrateProject.
  repeat first
    [ apply kept_migrateSubmission
    | apply kept_console_log
    | apply R_project | apply R_processed
    | apply (kept_quiet project_media), stays_ogImageStep
    | apply (kept_quiet project_media), stays_all_tasks;
      [typeclasses eauto | apply stays_mediaTask]
    | apply (kept_quiet (fun _ => True)), stays_post_or_log; intros; exact I
    | stays_step ].
Qed.

Lemma kept_migrateProjects g : stays R (migrateProjects env snap g).
Proof.
  unfold migrateProjects.
  repeat first [ apply kept_migrateProject | apply kept_console_log | stays_step ].
Qed.

Lemma kept_migrateGuild g : stays R (migrateGuild env snap g).
Proof.
  unfold migrateGuild.
  repeat first
    [ apply kept_migrateProjects
    | apply kept_console_log
    | apply R_guild | apply R_processed
    | apply (kept_quiet project_media), stays_guildIconStep
    | apply (kept_quiet (fun _ => True)), stays_post_or_log; intros; exact I
    | stays_step ].
Qed.

(** The loop of [main] (lines 625-628). *)
Lemma kept_guild_loop gs :
  stays R (for_each (fun guild =>
                       migrateGuild env snap guild ;;
                       console_log ("Migrated guild " +:+ g_name guild)) gs).
Proof.
  repeat first [ apply kept_migrateGuild | apply kept_console_log | stays_step ].
Qed.

End AccumulatorWalk.

(** ** The accumulators only grow *)

#[global] Instance Grow_preorder : PreOrder Grow.
Proof.
  split.
  - intros w. repeat split; reflexivity.
  - intros w1 w2 w3 (a & b & c & d & e & f) (a' & b' & c' & d' & e' & f').
    repeat split; etrans; eauto.
Qed.

Lemma Quiet_Grow P w w' : Quiet P w w' -> Grow w w'.
Proof.
  intros [(Sm & Sf & Smi & _) (evs & Ht & _)].
  unfold Grow. rewrite Sm, Sf, Smi, Ht.
  repeat split; try reflexivity. now apply prefix_app_r.
Qed.

Lemma Grow_push_missing s : stays Grow (push_missing s).
Proof. intros w. repeat split; try reflexivity. now apply prefix_app_r. Qed.

Lemma Grow_push_failed oid : stays Grow (push_failed oid).
Proof. intros w. repeat split; try reflexivity. now apply prefix_app_r. Qed.

Lemma Grow_push_processed x : stays Grow (push_processed x).
Proof. intros w. repeat split; try reflexivity. cbn. now apply prefix_app_r. Qed.

Lemma Grow_set_project_id legacy id : stays Grow (set_project_id legacy id).
Proof.
  intros w. repeat split; try reflexivity. cbn.
  rewrite dom_insert_L. set_solver.
Qed.

Lemma Grow_set_guild_id legacy id : stays Grow (set_guild_id legacy id).
Proof.
  intros w. repeat split; try reflexivity. cbn.
  rewrite dom_insert_L. set_solver.
Qed.

Ltac grow_side :=
  first [ typeclasses eauto | exact Quiet_Grow | exact Grow_push_missing
        | exact Grow_push_failed | exact Grow_push_processed
        | exact Grow_set_project_id | exact Grow_set_guild_id ].

Lemma Grow_migrateProjects env snap g : stays Grow (migrateProjects env snap g).
Proof.
  apply kept_migrateProjects; grow_side.
Qed.

Lemma Grow_walkSubmissions env snap p : stays Grow (walkSubmissions env snap p).
Proof.
  apply kept_walkSubmissions; grow_side.
Qed.

Lemma Grow_guild_loop env snap gs :
  stays Grow (for_each (fun guild =>
                          migrateGuild env snap guild ;;
                          console_log ("Migrated guild " +:+ g_name guild)) gs).
Proof.
  apply kept_guild_loop; grow_side.
Qed.

(** X15: over a whole walk nothing is ever taken back: the Failed set, the
    Missing list and the processed list are extended at their end, the
    guild and project maps keep every key they had, and the log of
    requests is extended; this holds whether [main] returns or throws. *)
Theorem accumulators_only_grow env snap w :
  Grow w (main env snap w).2.
Proof.
  revert w. change (stays Grow (main env snap)). unfold main, writeAll.
  repeat first
    [ apply Grow_guild_loop
    | apply (stays_mono (Quiet is_media)); [apply Quiet_Grow | apply stays_console_log]
    | apply stays_modify; intros w; repeat split; reflexivity
    | stays_step ].
Qed.

(** ** The data files are written at the end only *)

#[global] Instance SameDisk_preorder : PreOrder SameDisk.
Proof.
  split.
  - intros w. reflexivity.
  - intros w1 w2 w3 H1 H2. unfold SameDisk in *. congruence.
Qed.

Lemma SameDisk_guild_loop env snap gs :
  stays SameDisk (for_each (fun guild =>
                              migrateGuild env snap guild ;;
                              console_log ("Migrated guild " +:+ g_name guild)) gs).
Proof.
  apply kept_guild_loop; try typeclasses eauto; try (intros; intros w; reflexivity).
  intros P w w' [(_ & _ & _ & Sd) _]. exact Sd.
Qed.

(** X16: a run that ends on an exception: [idmap.json] and [missing.json]
    hold the mapping and the Missing list as they were when the exception
    was thrown, and [failed.json] is exactly as the run found it, since
    the walk writes no data file before its end. *)
Theorem exception_flushes_mapping_and_missing env snap w e w' :
  runProcess env snap w = (Throw e, w') ->
  idmap_json (disk w') = mapping w' /\
  missing_json (disk w') = missing w' /\
  failed_json (disk w') = failed_json (disk w).
Proof.
  unfold runProcess.
  destruct (main env snap w) as [[[]|e0] wm] eqn:Hmain; [discriminate|].
  intros [= -> <-]. cbn. repeat split.
  revert Hmain. unfold main, writeAll. rewrite bind_console_log. intros H.
  apply bind_inv in H as [([] & w2 & Hloop & H)|(? & Hloop & _)].
  - rewrite bind_console_log, bind_modify in H. discriminate.
  - apply (stays_run _ _ _ _ _ (SameDisk_guild_loop env snap _)) in Hloop.
    unfold SameDisk in Hloop. cbn in Hloop. now rewrite Hloop.
Qed.

(** * Processed projects are mapped *)

#[global] Instance Linked_preorder : PreOrder Linked.
Proof.
  split.
  - intros w Hi. split; [exact Hi | reflexivity].
  - intros w1 w2 w3 H1 H2 Hi.
    destruct (H1 Hi) as [Hi2 E1]. destruct (H2 Hi2) as [Hi3 E2].
    split; [exact Hi3 | etrans; eauto].
Qed.

#[global] Instance LinkedTo_preorder pid : PreOrder (LinkedTo pid).
Proof.
  split.
  - intros w Hi. split; [exact Hi | reflexivity].
  - intros w1 w2 w3 H1 H2 Hi.
    destruct (H1 Hi) as [Hi2 E1]. destruct (H2 Hi2) as [Hi3 E2].
    split; [exact Hi3 | etrans; eauto].
Qed.

Lemma media_has_project e : is_media e -> has_project e.
Proof. destruct e as [[] b]; cbn; done. Qed.

Lemma project_media_has_project e : project_media e -> has_project e.
Proof. destruct e as [[] b]; cbn; done. Qed.

Lemma Quiet_Linked (P : Event -> Prop) w w' :
  (forall e, P e -> has_project e) -> Quiet P w w' -> Linked w w'.
Proof.
  intros HP [(Sm & _) HE] Hi. split.
  - unfold ProjInv. rewrite Sm. exact Hi.
  - eapply Ext_mono; eauto.
Qed.

Lemma Quiet_LinkedTo (P : Event -> Prop) pid w w' :
  (forall e, P e -> has_project e) -> Quiet P w w' -> LinkedTo pid w w'.
Proof.
  intros HP [(Sm & _) HE] [Hi Hp]. split.
  - unfold ProjInv. rewrite Sm. split; assumption.
  - eapply Ext_mono; eauto.
Qed.

Lemma stays_for_each_in {A} (R : relation World) `{!PreOrder R}
    (f : A -> M unit) (xs : list A) :
  (forall x, x ∈ xs -> stays R (f x)) -> stays R (for_each f xs).
Proof.
  induction xs as [|x xs IH]; intros Hf; cbn.
  - apply stays_ret; typeclasses eauto.
  - apply stays_bind; [typeclasses eauto | apply Hf; left |].
    intros _. apply IH. intros y Hy. apply Hf. now right.
Qed.

Section LinkedLemmas.

Context (env : Env) (snap : Snapshot).

Lemma LinkedTo_migrateSubmission s :
  stays (LinkedTo (s_project s)) (migrateSubmission env s).
Proof.
  intros w. destruct (migrateSubmission env s w) as [r w'] eqn:Hrun. cbn.
  intros [Hi Hp].
  pose proof (migrateSubmission_outcome env _ _ _ _ Hrun) as Hout.
  destruct Hout as [Hpr | r w' Hnp (Hm & _ & HE)
                   | n1 w1 n w' Hnp _ _ HQ Ht Hsp Hg Hpj
                   | n1 w1 n w' Hnp _ _ HQ Ht Hm].
  - split; [split; assumption | reflexivity].
  - split; [unfold ProjInv; rewrite Hm; split; assumption|].
    eapply Ext_mono; [apply media_has_project | exact HE].
  - destruct HQ as [(Sm & _) (pre & Hpre & F)].
    assert (trace w' = trace w ++ (pre ++
              [{| ev_call := PostSubmission (s_oid s) n; ev_ok := true |}])) as Htr
      by (rewrite Ht, Hpre; now rewrite app_assoc).
    assert (In {| ev_call := PostSubmission (s_oid s) n; ev_ok := true |}
              (pre ++ [{| ev_call := PostSubmission (s_oid s) n; ev_ok := true |}]))
      as Hin by (apply in_or_app; right; now left).
    destruct (migrateSubmission_reaches_creation env _ _ _ _ _ _ _ _ Hrun Htr Hin)
      as (_ & (Bp & _) & _).
    split; [split|].
    + intros k Hk. rewrite Hsp in Hk. apply elem_of_app in Hk as [Hk|Hk].
      * rewrite Hpj, Sm. apply Hi. now rewrite <- Sm.
      * apply list_elem_of_singleton in Hk. discriminate.
    + rewrite Hsp, Sm. apply elem_of_app. now left.
    + exists (pre ++ [{| ev_call := PostSubmission (s_oid s) n; ev_ok := true |}]).
      split; [exact Htr|]. apply Forall_app. split.
      * eapply Forall_impl; [exact F | apply media_has_project].
      * repeat constructor. cbn. rewrite Bp. cbn. now apply Hi.
  - destruct HQ as [(Sm & _) (pre & Hpre & F)].
    assert (trace w' = trace w ++ (pre ++
              [{| ev_call := PostSubmission (s_oid s) n; ev_ok := false |}])) as Htr
      by (rewrite Ht, Hpre; now rewrite app_assoc).
    assert (In {| ev_call := PostSubmission (s_oid s) n; ev_ok := false |}
              (pre ++ [{| ev_call := PostSubmission (s_oid s) n; ev_ok := false |}]))
      as Hin by (apply in_or_app; right; now left).
    destruct (migrateSubmission_reaches_creation env _ _ _ _ _ _ _ _ Hrun Htr Hin)
      as (_ & (Bp & _) & _).
    split; [split|].
    + unfold ProjInv. rewrite Hm, Sm. exact Hi.
    + rewrite Hm, Sm. exact Hp.
    + exists (pre ++ [{| ev_call := PostSubmission (s_oid s) n; ev_ok := false |}]).
      split; [exact Htr|]. apply Forall_app. split.
      * eapply Forall_impl; [exact F | apply media_has_project].
      * repeat constructor. cbn. rewrite Bp. cbn. now apply Hi.
Qed.

Lemma LinkedTo_walkSubmissions p :
  stays (LinkedTo (p_id p)) (walkSubmissions env snap p).
Proof.
  unfold walkSubmissions.
  apply stays_bind; [typeclasses eauto| |intros _].
  - apply stays_for_each_in; [typeclasses eauto|].
    intros s Hs. unfold qualifyingSubmissions in Hs.
    apply list_elem_of_filter in Hs as [<- _]. apply LinkedTo_migrateSubmission.
  - eapply stays_mono; [|apply (stays_console_log is_media)].
    intros w w'. apply Quiet_LinkedTo, media_has_project.
Qed.

Lemma Linked_migrateProject p : stays Linked (migrateProject env snap p).
Proof.
  intros w. destruct (migrateProject env snap p w) as [r w'] eqn:Hrun. cbn.
  apply migrateProject_outcome in Hrun.
  destruct Hrun as [r w' Hp Hwalk | r w' Hnp HQ | w1 n w' Hnp HQ Ht HS
                   | w1 n id w2 r w' Hnp HQ Ht Hm Hf Hmi Hd Hwalk].
  - intros Hi.
    destruct (stays_run _ _ _ _ _ (LinkedTo_walkSubmissions p) Hwalk (conj Hi Hp))
      as [[Hi' _] HE].
    split; assumption.
  - apply (Quiet_Linked project_media); [apply project_media_has_project | exact HQ].
  - etrans; [apply (Quiet_Linked project_media);
             [apply project_media_has_project | exact HQ]|].
    intros Hi. destruct HS as (Sm & _). split.
    + unfold ProjInv. rewrite Sm. exact Hi.
    + exists [{| ev_call := PostProject (p_id p) n; ev_ok := false |}].
      split; [exact Ht|]. repeat constructor.
  - etrans; [apply (Quiet_Linked project_media);
             [apply project_media_has_project | exact HQ]|].
    intros Hi.
    assert (ProjInv w2 /\ IdN (p_id p) ∈ successfullyProcessed (mapping w2)) as Hi2.
    { split.
      - intros k Hk. rewrite Hm in Hk |- *. cbn in Hk |- *.
        apply elem_of_app in Hk as [Hk|Hk].
        + destruct (decide (p_id p = k)) as [->|Hne].
          * rewrite lookup_insert_eq. eauto.
          * rewrite lookup_insert_ne by done. now apply Hi.
        + apply list_elem_of_singleton in Hk. injection Hk as ->.
          rewrite lookup_insert_eq. eauto.
      - rewrite Hm. cbn. apply elem_of_app. right. now apply list_elem_of_singleton. }
    destruct (stays_run _ _ _ _ _ (LinkedTo_walkSubmissions p) Hwalk Hi2)
      as [[Hi' _] HE].
    split; [exact Hi'|].
    etrans; [|exact HE].
    exists [{| ev_call := PostProject (p_id p) n; ev_ok := true |}].
    split; [exact Ht|]. repeat constructor.
Qed.

Lemma Linked_console_log line : stays Linked (console_log line).
Proof.
  eapply stays_mono; [|apply (stays_console_log is_media)].
  intros w w'. apply Quiet_Linked, media_has_project.
Qed.

Lemma Linked_migrateProjects g : stays Linked (migrateProjects env snap g).
Proof.
  unfold migrateProjects.
  repeat first [ apply Linked_migrateProject | apply Linked_console_log | stays_step ].
Qed.

Lemma Linked_migrateGuild g : stays Linked (migrateGuild env snap g).
Proof.
  intros w. destruct (migrateGuild env snap g w) as [r w'] eqn:H. cbn.
  revert H. unfold migrateGuild. rewrite bind_get_world.
  destruct (includes _ _) eqn:Hinc.
  { intros H. eapply stays_run; [apply Linked_migrateProjects | exact H]. }
  intros H.
  apply bind_inv in H as [(u & w1 & Hu & H)|(? & Hu & ->)].
  2: { apply lift_inv in Hu as [-> _]. reflexivity. }
  apply lift_inv in Hu as [-> _].
  apply bind_inv in H as [(date & w1 & Hd & H)|(? & Hd & ->)].
  2: { apply lift_inv in Hd as [-> _]. reflexivity. }
  apply lift_inv in Hd as [-> _]. cbv zeta in H.
  apply or_return_inv in H as [(n1 & w1 & Hi & H)|[[Hi ->]|(? & Hi & ->)]].
  2,3: eapply Quiet_Linked; [apply project_media_has_project|];
       eapply stays_run; [apply stays_guildIconStep | exact Hi].
  assert (Quiet project_media w w1) as Q1
    by (eapply stays_run; [apply stays_guildIconStep | exact Hi]).
  etrans; [eapply Quiet_Linked; [apply project_media_has_project | exact Q1]|].
  set (c := PostGuild (g_id g) n1) in H.
  destruct (http_post env (trace w1) c) as [docid|] eqn:Hp.
  - erewrite or_return_some in H
      by (rewrite (bind_ok _ _ _ _ _ (post_or_log_some env c docid w1 Hp)); reflexivity).
    unfold set_guild_id in H. rewrite bind_modify in H.
    unfold push_processed in H. rewrite bind_modify in H.
    etrans; [|eapply stays_run; [apply Linked_migrateProjects | exact H]].
    intros Hinv. split.
    + intros k Hk. cbn in Hk |- *. apply elem_of_app in Hk as [Hk|Hk].
      * now apply Hinv.
      * apply list_elem_of_singleton in Hk. discriminate.
    + exists [{| ev_call := c; ev_ok := true |}]. split; [reflexivity|].
      repeat constructor.
  - erewrite or_return_none in H
      by (rewrite (bind_ok _ _ _ _ _ (post_or_log_none env c w1 Hp)); reflexivity).
    injection H as <- <-.
    intros Hinv. split; [exact Hinv|].
    exists [{| ev_call := c; ev_ok := false |}]. split; [reflexivity|].
    repeat constructor.
Qed.

(** X17: a walk that starts from a mapping in which every processed
    project id has an entry in [mapping.projects] (an empty id map, for
    one) ends in such a mapping, and every request it issues to create a
    submission names a project: [project] is never undefined in the body. *)
Theorem created_submissions_name_their_project w :
  ProjInv w ->
  ProjInv (main env snap w).2 /\
  exists evs, trace (main env snap w).2 = trace w ++ evs /\ Forall has_project evs.
Proof.
  revert w. change (stays Linked (main env snap)). unfold main, writeAll.
  repeat first
    [ apply Linked_migrateGuild | apply Linked_console_log
    | apply stays_modify; intros w Hi;
      (split; [exact Hi | now apply Ext_same])
    | stays_step ].
Qed.

End LinkedLemmas.

(** * More on projects and guilds *)

Section GuildMore.

Context (env : Env) (snap : Snapshot).

Lemma no_guild_submission s :
  stays (Ext not_guild_creation) (migrateSubmission env s).
Proof. apply stays_migrateSubmission; try split; intros; exact I. Qed.

Lemma no_guild_console_log line : stays (Ext not_guild_creation) (console_log line).
Proof. apply stays_quiet_ext, stays_console_log. Qed.

Lemma no_guild_modify (f : World -> World) :
  (forall w, trace (f w) = trace w) -> stays (Ext not_guild_creation) (modify f).
Proof. intros Hf. apply stays_modify. intros w. now apply Ext_same. Qed.

Lemma no_guild_migrateProject p :
  stays (Ext not_guild_creation) (migrateProject env snap p).
Proof.
  unfold migrateProject, set_project_id, push_processed.
  repeat first
    [ apply no_guild_submission
    | apply no_guild_console_log
    | apply no_guild_modify; intros; reflexivity
    | apply stays_quiet_ext;
      first [ apply (stays_mono (Quiet project_media));
                [intros ? ?; apply Quiet_mono; intros [[] ?]; cbn; done|];
              first [ apply stays_ogImageStep
                    | apply stays_all_tasks; [typeclasses eauto | apply stays_mediaTask] ]
            | apply stays_post_or_log; intros; exact I ]
    | stays_step ].
Qed.

Lemma no_guild_migrateProjects g :
  stays (Ext not_guild_creation) (migrateProjects env snap g).
Proof.
  unfold migrateProjects.
  repeat first
    [ apply no_guild_migrateProject | apply no_guild_console_log | stays_step ].
Qed.

(** X18: when the call that creates a guild is rejected, [migrateGuild]
    returns with the mapping, the Failed set and the Missing list as they
    were; the rejected call is the last request of the run and the
    requests before it are those of the guild icon, so no project and no
    submission of the guild was looked at. *)
Theorem rejected_guild_is_left_untouched g w r w' evs n :
  migrateGuild env snap g w = (r, w') ->
  trace w' = trace w ++ evs ->
  In {| ev_call := PostGuild (g_id g) n; ev_ok := false |} evs ->
  r = Ok tt /\
  mapping w' = mapping w /\
  failed w' = failed w /\
  missing w' = missing w /\
  (exists pre,
     evs = pre ++ [{| ev_call := PostGuild (g_id g) n; ev_ok := false |}] /\
     Forall project_media pre).
Proof.
  unfold migrateGuild. rewrite bind_get_world.
  destruct (includes _ _) eqn:Hinc.
  { intros H Ht Hin. exfalso.
    assert (Ext not_guild_creation w w') as HE
      by (eapply stays_run; [apply no_guild_migrateProjects | exact H]).
    apply (Ext_In _ _ _ _ _ HE Ht Hin). }
  intros H Ht Hin.
  assert (forall w0, Quiet project_media w w0 -> trace w0 = trace w ++ evs -> False)
    as Hstop.
  { intros w0 HQ Ht0. apply (Ext_In _ _ _ _ _ (Quiet_Ext _ _ _ HQ) Ht0 Hin). }
  apply bind_inv in H as [(u & w1 & Hu & H)|(? & Hu & ->)].
  2: { apply lift_inv in Hu as [-> _]. exfalso. now apply (Hstop w). }
  apply lift_inv in Hu as [-> _].
  apply bind_inv in H as [(date & w1 & Hd & H)|(? & Hd & ->)].
  2: { apply lift_inv in Hd as [-> _]. exfalso. now apply (Hstop w). }
  apply lift_inv in Hd as [-> _]. cbv zeta in H.
  apply or_return_inv in H as [(n1 & w1 & Hi & H)|[[Hi ->]|(? & Hi & ->)]].
  2,3: exfalso; apply (Hstop w'); [|exact Ht];
       eapply stays_run; [apply stays_guildIconStep | exact Hi].
  assert (Quiet project_media w w1) as [(Sm & Sf & Smi & Sd) (pre & Hpre & F)]
    by (eapply stays_run; [apply stays_guildIconStep | exact Hi]).
  set (c := PostGuild (g_id g) n1) in H.
  destruct (http_post env (trace w1) c) as [docid|] eqn:Hp.
  - exfalso.
    erewrite or_return_some in H
      by (rewrite (bind_ok _ _ _ _ _ (post_or_log_some env c docid w1 Hp)); reflexivity).
    unfold set_guild_id in H. rewrite bind_modify in H.
    unfold push_processed in H. rewrite bind_modify in H.
    assert (Ext not_guild_creation _ w') as (rest & Hrest & Fr)
      by (eapply stays_run; [apply no_guild_migrateProjects | exact H]).
    cbn in Hrest. rewrite Hpre, <- !app_assoc in Hrest. rewrite Hrest in Ht.
    apply app_inv_head in Ht. subst evs.
    apply in_app_or in Hin as [Hin|Hin].
    { rewrite Forall_forall in F. apply (F _ (proj2 (list_elem_of_In _ _) Hin)). }
    cbn in Hin. destruct Hin as [Hin|Hin]; [discriminate|].
    rewrite Forall_forall in Fr. apply (Fr _ (proj2 (list_elem_of_In _ _) Hin)).
  - erewrite or_return_none in H
      by (rewrite (bind_ok _ _ _ _ _ (post_or_log_none env c w1 Hp)); reflexivity).
    injection H as <- <-. cbn in Ht. rewrite Hpre, <- app_assoc in Ht.
    apply app_inv_head in Ht. subst evs.
    apply in_app_or in Hin as [Hin|[Hin|[]]].
    { exfalso. rewrite Forall_forall in F.
      apply (F _ (proj2 (list_elem_of_In _ _) Hin)). }
    injection Hin as <-. cbn. repeat split; try assumption.
    exists pre. split; [reflexivity | exact F].
Qed.

(** X19: a guild that is not processed, whose icon is on the legacy host
    and whose debut date converts, is created first thing: the first
    request of the call is the creation of the guild, with the default
    media id as icon and the name, description, invite and converted date
    of the legacy record. *)
Theorem legacy_hosted_guild_icon_is_the_default g u date w :
  IdS (g_id g) ∉ successfullyProcessed (mapping w) ->
  parseURL env (g_image g) = Some u ->
  host u = LEGACY_HOST ->
  toISOString env (g_debutDate g) = Some date ->
  exists b rest,
    trace (migrateGuild env snap g w).2 =
      trace w ++
      {| ev_call :=
           PostGuild (g_id g)
             {| ng_name := g_name g; ng_description := g_description g;
                ng_debutDate := date; ng_invite := g_invite g;
                ng_icon := DEFAULT_MEDIA env |};
         ev_ok := b |} :: rest.
Proof.
  intros Hnp Hu Hh Hd. unfold migrateGuild. rewrite bind_get_world.
  rewrite (proj2 (includes_false _ _) Hnp). unfold newURL.
  rewrite (bind_lift_some _ _ _ _ _ Hu), (bind_lift_some _ _ _ _ _ Hd). cbv zeta.
  set (body := {| ng_name := g_name g; ng_description := g_description g;
                  ng_debutDate := date; ng_invite := g_invite g;
                  ng_icon := DEFAULT_MEDIA env |}).
  assert (guildIconStep env g u body w = (Ok (Some body), w)) as Hicon.
  { unfold guildIconStep. destruct (decide (host u <> LEGACY_HOST)); done. }
  rewrite (or_return_some _ _ _ _ _ Hicon).
  set (c := PostGuild (g_id g) body).
  destruct (http_post env (trace w) c) as [docid|] eqn:Hp.
  - erewrite or_return_some
      by (rewrite (bind_ok _ _ _ _ _ (post_or_log_some env c docid w Hp)); reflexivity).
    unfold set_guild_id. rewrite bind_modify.
    unfold push_processed. rewrite bind_modify.
    match goal with |- context [migrateProjects env snap g ?w0] =>
      destruct (no_guild_migrateProjects g w0) as (rest & Hrest & _) end.
    exists true, rest. rewrite Hrest. cbn. now rewrite <- app_assoc.
  - erewrite or_return_none
      by (rewrite (bind_ok _ _ _ _ _ (post_or_log_none env c w Hp)); reflexivity).
    exists false, []. reflexivity.
Qed.



Lemma mediaTask_returns p media w :
  (md_type media = image -> is_Some (parseURL env (bang (md_src media)))) ->
  exists res, (mediaTask env p media w).1 = Ok res.
Proof.
  intros Hu. unfold mediaTask, newURL.
  destruct (md_type media); [|eexists; reflexivity..].
  destruct (Hu eq_refl) as [u Hp]. rewrite (bind_lift_some _ _ _ _ _ Hp).
  destruct (decide (host u <> LEGACY_HOST)); [|eexists; reflexivity].
  unfold try_catch.
  destruct (bind (fetchAndUpload env MEDIA (pretty (p_id p)) (bang (md_src media)) u false)
              _ w) as [[a|e] w1]; eexists; reflexivity.
Qed.

(** X22: a media item whose fetch or upload fails does not stop the
    project: when the source of every image item parses as a URL, the
    batch of media tasks returns one result per item, and the media list
    kept for the new project is at most as long as the legacy list. *)
Theorem media_failures_do_not_abort p medias w :
  Forall (fun media => md_type media = image ->
                       is_Some (parseURL env (bang (md_src media)))) medias ->
  exists results,
    (all_tasks (mediaTask env p) medias w).1 = Ok results /\
    length results = length medias /\
    length (omap id results) <= length medias.
Proof.
  intros H. revert w. induction H as [|media medias Hm _ IH]; intros w.
  - exists []. repeat split. cbn. lia.
  - cbn [all_tasks]. destruct (mediaTask_returns p media w Hm) as (res & Hres).
    unfold bind at 1. destruct (mediaTask env p media w) as [r w1].
    cbn in Hres. subst r.
    destruct (IH w1) as (results & Hrs & Hlen & Hle).
    unfold bind at 1. destruct (all_tasks (mediaTask env p) medias w1) as [rs w2].
    cbn in Hrs. subst rs. exists (res :: results). cbn.
    repeat split; [now rewrite Hlen|].
    destruct res; cbn; lia.
Qed.

(** X23: when the call that creates a guild is accepted, the guild's id is
    in the processed list and has an entry in [mapping.guilds] when
    [migrateGuild] ends, however the walk over its projects went. *)
Theorem accepted_guild_is_mapped g w r w' evs n :
  migrateGuild env snap g w = (r, w') ->
  trace w' = trace w ++ evs ->
  In {| ev_call := PostGuild (g_id g) n; ev_ok := true |} evs ->
  IdS (g_id g) ∈ successfullyProcessed (mapping w') /\
  is_Some (m_guilds (mapping w') !! g_id g).
Proof.
  unfold migrateGuild. rewrite bind_get_world.
  destruct (includes _ _) eqn:Hinc.
  { intros H Ht Hin. exfalso.
    assert (Ext not_guild_creation w w') as HE
      by (eapply stays_run; [apply no_guild_migrateProjects | exact H]).
    apply (Ext_In _ _ _ _ _ HE Ht Hin). }
  intros H Ht Hin.
  assert (forall w0, Quiet project_media w w0 -> trace w0 = trace w ++ evs -> False)
    as Hstop.
  { intros w0 HQ Ht0. apply (Ext_In _ _ _ _ _ (Quiet_Ext _ _ _ HQ) Ht0 Hin). }
  apply bind_inv in H as [(u & w1 & Hu & H)|(? & Hu & ->)].
  2: { apply lift_inv in Hu as [-> _]. exfalso. now apply (Hstop w). }
  apply lift_inv in Hu as [-> _].
  apply bind_inv in H as [(date & w1 & Hd & H)|(? & Hd & ->)].
  2: { apply lift_inv in Hd as [-> _]. exfalso. now apply (Hstop w). }
  apply lift_inv in Hd as [-> _]. cbv zeta in H.
  apply or_return_inv in H as [(n1 & w1 & Hi & H)|[[Hi ->]|(? & Hi & ->)]].
  2,3: exfalso; apply (Hstop w'); [|exact Ht];
       eapply stays_run; [apply stays_guildIconStep | exact Hi].
  assert (Quiet project_media w w1) as [_ (pre & Hpre & F)]
    by (eapply stays_run; [apply stays_guildIconStep | exact Hi]).
  set (c := PostGuild (g_id g) n1) in H.
  destruct (http_post env (trace w1) c) as [docid|] eqn:Hp.
  - erewrite or_return_some in H
      by (rewrite (bind_ok _ _ _ _ _ (post_or_log_some env c docid w1 Hp)); reflexivity).
    unfold set_guild_id in H. rewrite bind_modify in H.
    unfold push_processed in H. rewrite bind_modify in H.
    apply (stays_run _ _ _ _ _ (Grow_migrateProjects env snap g)) in H.
    destruct H as (_ & _ & Hpr & Hdg & _). cbn in Hpr, Hdg. split.
    + eapply elem_of_prefix; [|exact Hpr].
      apply elem_of_app. right. now apply list_elem_of_singleton.
    + apply elem_of_dom. apply Hdg. rewrite dom_insert_L. set_solver.
  - exfalso.
    erewrite or_return_none in H
      by (rewrite (bind_ok _ _ _ _ _ (post_or_log_none env c w1 Hp)); reflexivity).
    injection H as <- <-. cbn in Ht. rewrite Hpre, <- app_assoc in Ht.
    apply app_inv_head in Ht. subst evs.
    apply in_app_or in Hin as [Hin|[Hin|[]]]; [|discriminate].
    rewrite Forall_forall in F. apply (F _ (proj2 (list_elem_of_In _ _) Hin)).
Qed.

(** X24: when the call that creates a project is accepted, the project's
    id is in the processed list and has an entry in [mapping.projects]
    when [migrateProject] ends, however the walk over its submissions
    went. *)
Theorem accepted_project_is_mapped p w r w' evs n :
  migrateProject env snap p w = (r, w') ->
  trace w' = trace w ++ evs ->
  In {| ev_call := PostProject (p_id p) n; ev_ok := true |} evs ->
  IdN (p_id p) ∈ successfullyProcessed (mapping w') /\
  is_Some (m_projects (mapping w') !! p_id p).
Proof.
  intros Hrun Ht Hin. apply migrateProject_outcome in Hrun.
  destruct Hrun as [r w' Hp Hwalk | r w' Hnp HQ | w1 n' w' Hnp HQ Ht' HS
                   | w1 n' id w2 r w' Hnp HQ Ht2 Hm Hf Hmi Hd Hwalk].
  - exfalso.
    assert (Ext submission_traffic w w') as HE
      by (eapply stays_run; [apply stays_walkSubmissions | exact Hwalk]).
    apply (Ext_In _ _ _ _ _ HE Ht Hin).
  - exfalso. apply (Ext_In _ _ _ _ _ (Quiet_Ext _ _ _ HQ) Ht Hin).
  - exfalso. destruct HQ as [_ (pre & Hpre & F)].
    rewrite (trace_split _ _ _ _ _ _ Hpre Ht' Ht) in Hin.
    apply in_app_or in Hin as [Hin|[Hin|[]]]; [|discriminate].
    rewrite Forall_forall in F. apply (F _ (proj2 (list_elem_of_In _ _) Hin)).
  - apply (stays_run _ _ _ _ _ (Grow_walkSubmissions env snap p)) in Hwalk.
    destruct Hwalk as (_ & _ & Hpr & _ & Hdp & _). rewrite Hm in Hpr, Hdp.
    cbn in Hpr, Hdp. split.
    + eapply elem_of_prefix; [|exact Hpr].
      apply elem_of_app. right. now apply list_elem_of_singleton.
    + apply elem_of_dom. apply Hdp. rewrite dom_insert_L. set_solver.
Qed.

End GuildMore.

(** * Worked examples *)

Module Examples.

Import Sample.

(** ** C10 *)

Lemma forced_lookup_of_original_throws :
  findImageInCache acceptingEnv "7" "a.png" true origOnlyWorld
  = (Throw ENOENT, origOnlyWorld).
Proof.
  apply findImageInCache_forced_orig_only_throws.
  - vm_compute. reflexivity.
  - left. vm_compute. eauto.
Defined.

(** ** C3: a rejected creation *)

(** A first run over [snapshot1] in which the creation of the text
    submission is rejected: the id is in the Failed set that the run
    writes, and it is not processed. *)
Lemma rejected_text_submission_is_in_failed :
  let w' := (script config rejectingEnv snapshot1 freshWorld).2 in
  (exists n, In {| ev_call := PostSubmission "64a0" n; ev_ok := false |} (trace w')) /\
  failed_json (disk freshWorld) = [] /\
  failed w' = ["64a0"] /\
  failed_json (disk w') = ["64a0"] /\
  successfullyProcessed (mapping w') = [IdS "g1"; IdN 7].
Proof.
  vm_compute. split; [|repeat split]. eexists. right. right. left. reflexivity.
Qed.

Lemma rejected_text_submission_witness :
  let w' := (migrateSubmission rejectingEnv textSubmission freshWorld).2 in
  failed w' = failed freshWorld ++ ["64a0"] /\
  mapping w' = mapping freshWorld.
Proof.
  intros w'.
  destruct (rejected_creation_marks_failed rejectingEnv textSubmission freshWorld
              (Ok tt) w' (trace w')
              (initialSubmission textSubmission freshWorld))
    as (_ & Hf & Hm & _).
  - vm_compute. reflexivity.
  - reflexivity.
  - vm_compute. left. reflexivity.
  - split; assumption.
Defined.

(** ** C1: the second run retries the rejected submission only *)

Lemma second_run_witness :
  let w1 := (script config flakyEnv snapshot1 freshWorld).2 in
  (IdS "64a0" ∉ successfullyProcessed (idmap_json (disk w1))) /\
  forall e1, In e1 (trace w1) -> ev_ok e1 = true ->
             created_id (ev_call e1) <> Some (IdS "64a0").
Proof.
  intros w1.
  apply (proj2 (proj2 (second_run_creates_nothing_twice
                         config flakyEnv snapshot1 freshWorld))
           (trace w1) [acceptedSubmission] acceptedSubmission (IdS "64a0")).
  - reflexivity.
  - vm_compute. reflexivity.
  - left. reflexivity.
  - reflexivity.
Defined.

(** ** C2: one malformed record ends the run *)

(** C2, on two failing inputs: a guild whose icon is not a URL ends the
    walk before the guild after it is looked at, although that guild
    migrates without error when it is alone; an image submission without
    [src] ends the walk before its sibling is looked at.  In both runs
    [new URL] throws outside every [try] block. *)
Lemma malformed_url_aborts_the_run :
  (let r := script config acceptingEnv snapshot2 freshWorld in
   r.1 = Throw InvalidURL /\ trace r.2 = []) /\
  (let r := script config acceptingEnv snapshot1 freshWorld in
   r.1 = Ok tt /\
   exists n, In {| ev_call := PostGuild "g1" n; ev_ok := true |} (trace r.2)) /\
  (let r := script config acceptingEnv snapshot3 freshWorld in
   r.1 = Throw InvalidURL /\
   forall n b, ~ In {| ev_call := PostSubmission "64a0" n; ev_ok := b |} (trace r.2)).
Proof.
  split; [|split].
  - vm_compute. split; reflexivity.
  - vm_compute. split; [reflexivity|]. eexists. left. reflexivity.
  - vm_compute. split; [reflexivity|].
    intros n b [H|[H|[]]]; discriminate.
Qed.

(** ** C4: an interruption after a rejected submission *)

(** A signal that arrives at [midWalk]: the id of the rejected submission
    is in the Failed set, [failed.json] is still empty, and the mapping
    is on disk. *)
Lemma interrupt_does_not_write_failed :
  let w' := interrupt midWalk in
  failed midWalk = ["64a0"] /\
  failed w' = ["64a0"] /\ failed_json (disk w') = [] /\
  idmap_json (disk w') = mapping w'.
Proof. vm_compute. repeat split. Qed.

Lemma flushed_on_exit_witness :
  let w' := (runProcess acceptingEnv snapshot1 freshWorld).2 in
  idmap_json (disk w') = mapping w' /\
  missing_json (disk w') = missing w' /\
  failed_json (disk w') = failed w'.
Proof.
  intros w'.
  apply (proj1 (flushed_on_exit_failed_only_at_the_end
                  acceptingEnv snapshot1 freshWorld)).
  vm_compute. reflexivity.
Defined.

(** ** C5: a legacy-hosted image that is not in the cache *)

Lemma legacy_image_witness :
  exists w',
    migrateSubmission acceptingEnv legacyImage freshWorld = (Ok tt, w') /\
    missing w' = missing freshWorld ++ [legacyImage] /\
    failed w' = failed freshWorld /\
    mapping w' = mapping freshWorld /\
    trace w' = trace freshWorld.
Proof.
  destruct (legacy_image_is_only_looked_up_locally acceptingEnv legacyImage
              freshWorld
              {| host := "s3.fr-par.scw.cloud"; pathname := "/hefw/a.png" |})
    as [_ H].
  - reflexivity.
  - vm_compute. reflexivity.
  - reflexivity.
  - apply (H (initialSubmission legacyImage freshWorld) freshWorld).
    + intros Hin. inversion Hin.
    + vm_compute. reflexivity.
    + split; [vm_compute; reflexivity|].
      split; [vm_compute; reflexivity|].
      exists "a.png". split; vm_compute; reflexivity.
Defined.

(** ** C6: stale cache entries *)

(** A run that resumes from [resumedWorld] over [snapshot5]: the image of
    [64a1] is on the legacy host, its id is in the Failed set, and the
    stale bytes of the cache are what is uploaded; no GET is issued and
    the cache entry is still there afterwards. *)
Lemma legacy_image_serves_stale_bytes :
  let w' := (script config fetchingEnv snapshot5 resumedWorld).2 in
  "64a1" ∈ failed (load resumedWorld) /\
  fs resumedWorld !! cachePath "7" "a.png" = Some (File stale) /\
  fs w' !! cachePath "7" "a.png" = Some (File stale) /\
  (exists n,
     trace w' =
       [{| ev_call := PostMedia SUBMISSION_MEDIA "a.png" stale; ev_ok := true |};
        {| ev_call := PostSubmission "64a1" n; ev_ok := true |}]).
Proof.
  split; [left|]. vm_compute. repeat split. eexists. reflexivity.
Qed.

Lemma failed_image_witness :
  exists w2,
    fs w2 !! cachePath "7" "b.png" = Some (File fresh) /\
    trace w2 = trace staleWorld ++
               [{| ev_call := Get "https://cdn.example.org/pics/b.png"; ev_ok := true |}] /\
    Stores staleWorld w2 /\
    imageUpload fetchingEnv remoteImage
      {| host := "cdn.example.org"; pathname := "/pics/b.png" |}
      (initialSubmission remoteImage staleWorld) staleWorld =
    bind (uploadFile fetchingEnv SUBMISSION_MEDIA
            {| host := "cdn.example.org"; pathname := "/pics/b.png" |} fresh)
         (fun id => ret (Some (with_media id (initialSubmission remoteImage staleWorld))))
         w2.
Proof.
  apply (failed_image_is_refetched fetchingEnv remoteImage
           (initialSubmission remoteImage staleWorld)
           {| host := "cdn.example.org"; pathname := "/pics/b.png" |}
           stale "https://cdn.example.org/pics/b.png" staleWorld).
  - right. left.
  - vm_compute. reflexivity.
  - vm_compute. discriminate.
  - vm_compute. reflexivity.
  - vm_compute. reflexivity.
Defined.

(** ** C7: a rejected project *)

Lemma rejected_project_witness :
  let w' := (migrateProject projectRejectingEnv snapshot1 project7 freshWorld).2 in
  mapping w' = mapping freshWorld /\
  failed w' = failed freshWorld /\
  missing w' = missing freshWorld /\
  IdN 7 ∉ successfullyProcessed (mapping w').
Proof.
  intros w'.
  destruct (rejected_project_is_left_untouched projectRejectingEnv snapshot1
              project7 freshWorld (Ok tt) w' (trace w') project7Body)
    as (_ & Hm & Hf & Hmi & Hp & _).
  - vm_compute. reflexivity.
  - reflexivity.
  - vm_compute. left. reflexivity.
  - repeat split; assumption.
Defined.

(** ** C8: a video on the legacy host and a video hosted elsewhere *)

Lemma video_source_witness :
  migrateSubmission acceptingEnv legacyVideo freshWorld =
    (Ok tt,
     set_console (console freshWorld ++ ["Missing video for 64a3"])
       (set_missing (missing freshWorld ++ [legacyVideo]) freshWorld)) /\
  exists b w',
    migrateSubmission acceptingEnv remoteVideo freshWorld = (Ok tt, w') /\
    trace w' = trace freshWorld ++
      [{| ev_call :=
            PostSubmission (s_oid remoteVideo)
              (with_url "https://video.example.org/watch/v1"
                 (initialSubmission remoteVideo freshWorld));
          ev_ok := b |}] /\
    missing w' = missing freshWorld /\ fs w' = fs freshWorld.
Proof.
  split.
  - apply (proj1 (video_source_rejected_or_carried acceptingEnv legacyVideo freshWorld
                    "https://s3.fr-par.scw.cloud/hefw/v.mp4"
                    {| host := "s3.fr-par.scw.cloud"; pathname := "/hefw/v.mp4" |}
                    ltac:(intros Hin; inversion Hin)
                    eq_refl
                    ltac:(vm_compute; reflexivity)
                    ltac:(vm_compute; reflexivity))).
    reflexivity.
  - destruct (proj2 (video_source_rejected_or_carried acceptingEnv remoteVideo freshWorld
                       "https://video.example.org/watch/v1"
                       {| host := "video.example.org"; pathname := "/watch/v1" |}
                       ltac:(intros Hin; inversion Hin)
                       eq_refl
                       ltac:(vm_compute; reflexivity)
                       ltac:(vm_compute; reflexivity))
                ltac:(vm_compute; discriminate))
      as (_ & _ & _ & Hcreated).
    apply Hcreated. reflexivity.
Defined.

(** ** C9: an author icon that cannot be fetched *)

Lemma icon_failure_witness :
  exists w',
    migrateSubmission acceptingEnv textWithIcon freshWorld = (Ok tt, w') /\
    failed w' = failed freshWorld /\
    missing w' = missing freshWorld /\
    mapping w' = mapping freshWorld /\
    (IdS "64a4" ∉ successfullyProcessed (mapping w')) /\
    (exists evs, trace w' = trace freshWorld ++ evs /\
                 Forall (fun ev => created_id (ev_call ev) = None) evs).
Proof.
  apply (icon_failure_skips_silently acceptingEnv textWithIcon freshWorld
           "https://cdn.example.org/icons/i.png"
           {| host := "cdn.example.org"; pathname := "/icons/i.png" |}
           AxiosError
           (iconUpload acceptingEnv textWithIcon
              "https://cdn.example.org/icons/i.png"
              {| host := "cdn.example.org"; pathname := "/icons/i.png" |}
              freshWorld).2).
  - intros Hin. inversion Hin.
  - exact I.
  - vm_compute. reflexivity.
  - vm_compute. reflexivity.
  - vm_compute. discriminate.
  - vm_compute. reflexivity.
Defined.

End Examples.

(** * Worked examples of the further properties *)

Module MoreExamples.

Import Sample Cases.

(** ** File names *)

Lemma last_segment_witness :
  lastSegment ("/hefw/7" +:+ "/" +:+ "a.png") = "a.png".
Proof.
  apply (proj1 (proj2 lastSegment_is_the_part_after_the_last_slash)).
  reflexivity.
Defined.

Lemma replace_hash_witness :
  replaceHash "a.png" = "a.png".
Proof.
  apply (proj2 (proj2 (replaceHash_removes_every_hash "a.png"))).
  reflexivity.
Defined.

(** ** The image cache *)




Lemma failed_fetch_witness :
  findCacheOrFetch acceptingEnv "7" "https://cdn.example.org/pics/b.png" false
    freshWorld
  = (Throw AxiosError,
     set_trace (trace freshWorld ++
                [{| ev_call := Get "https://cdn.example.org/pics/b.png";
                    ev_ok := false |}]) freshWorld).
Proof.
  apply (failed_fetch_caches_nothing
           acceptingEnv "7" "https://cdn.example.org/pics/b.png"
           {| host := "cdn.example.org"; pathname := "/pics/b.png" |}
           "https://cdn.example.org/pics/b.png" false freshWorld).
  - vm_compute. reflexivity.
  - split; [|split].
    + vm_compute. reflexivity.
    + vm_compute. reflexivity.
    + exists "b.png". split; vm_compute; reflexivity.
  - vm_compute. reflexivity.
  - vm_compute. reflexivity.
Defined.

(** ** Submissions *)

Lemma created_text_submission_witness :
  "64a0" = s_oid textSubmission /\
  ns_project textBody = m_projects (mapping resumedStart) !! s_project textSubmission /\
  ns_type textBody = s_type textSubmission /\
  ns_author textBody = default "Anonymous" (s_author textSubmission) /\
  ns_subtype textBody = s_subtype textSubmission /\
  ns_message textBody = truthy (s_message textSubmission) /\
  (exists pre,
     trace (migrateSubmission acceptingEnv textSubmission resumedStart).2
     = pre ++ [{| ev_call := PostSubmission (s_oid textSubmission) textBody;
                  ev_ok := true |}] /\
     Forall is_media pre).
Proof.
  apply (created_submission_carries_the_legacy_fields
           acceptingEnv textSubmission resumedStart (Ok tt)
           (migrateSubmission acceptingEnv textSubmission resumedStart).2).
  - vm_compute. reflexivity.
  - reflexivity.
  - vm_compute. left. reflexivity.
Defined.

Lemma missing_video_witness :
  let w' := (migrateSubmission acceptingEnv legacyVideo freshWorld).2 in
  mapping w' = mapping freshWorld /\
  exists evs, trace w' = trace freshWorld ++ evs /\ Forall is_media evs.
Proof.
  intros w'.
  destruct (missing_or_failed_is_not_processed
              acceptingEnv legacyVideo freshWorld (Ok tt) w') as [Hm Ht].
  - vm_compute. reflexivity.
  - left. vm_compute. discriminate.
  - split; [exact Hm|]. apply Ht. vm_compute. discriminate.
Defined.

Lemma accepted_submission_witness :
  let w' := (migrateSubmission acceptingEnv textSubmission resumedStart).2 in
  migrateSubmission acceptingEnv textSubmission w' = (Ok tt, w').
Proof.
  intros w'.
  apply (accepted_submission_is_skipped_afterwards
           acceptingEnv textSubmission resumedStart (Ok tt) w' (trace w') textBody).
  - vm_compute. reflexivity.
  - reflexivity.
  - vm_compute. left. reflexivity.
Defined.

Lemma image_failure_witness :
  exists w',
    migrateSubmission acceptingEnv remoteImage freshWorld = (Ok tt, w') /\
    failed w' = failed freshWorld ++ [s_oid remoteImage] /\
    missing w' = missing freshWorld /\
    mapping w' = mapping freshWorld /\
    trace w' =
      trace (imageUpload acceptingEnv remoteImage
               {| host := "cdn.example.org"; pathname := "/pics/b.png" |}
               (initialSubmission remoteImage freshWorld) freshWorld).2 /\
    (exists evs, trace w' = trace freshWorld ++ evs /\ Forall is_media evs).
Proof.
  apply (image_failure_marks_failed
           acceptingEnv remoteImage freshWorld
           (initialSubmission remoteImage freshWorld) freshWorld
           {| host := "cdn.example.org"; pathname := "/pics/b.png" |}
           AxiosError).
  - intros Hin. inversion Hin.
  - reflexivity.
  - vm_compute. reflexivity.
  - vm_compute. reflexivity.
  - vm_compute. reflexivity.
Defined.

Lemma plain_submission_witness :
  exists n b w',
    migrateSubmission acceptingEnv textSubmission freshWorld = (Ok tt, w') /\
    trace w' = trace freshWorld ++
               [{| ev_call := PostSubmission (s_oid textSubmission) n; ev_ok := b |}] /\
    fs w' = fs freshWorld /\
    (b = true -> IdS (s_oid textSubmission) ∈ successfullyProcessed (mapping w')) /\
    (b = false -> s_oid textSubmission ∈ failed w').
Proof.
  apply plain_submission_is_one_request.
  - intros Hin. inversion Hin.
  - exact I.
  - reflexivity.
  - discriminate.
Defined.

(** ** The walk *)

Lemma exception_flush_witness :
  let w' := (runProcess acceptingEnv snapshot6 (load freshWorld)).2 in
  idmap_json (disk w') = mapping w' /\
  missing_json (disk w') = missing w' /\
  failed_json (disk w') = failed_json (disk (load freshWorld)).
Proof.
  intros w'.
  apply (exception_flushes_mapping_and_missing
           acceptingEnv snapshot6 (load freshWorld) InvalidURL w').
  vm_compute. reflexivity.
Defined.

Lemma first_run_names_projects_witness :
  ProjInv (main acceptingEnv snapshot1 freshWorld).2 /\
  exists evs, trace (main acceptingEnv snapshot1 freshWorld).2
              = trace freshWorld ++ evs /\
              Forall has_project evs.
Proof.
  apply created_submissions_name_their_project.
  intros n Hin. inversion Hin.
Defined.

(** ** Guilds and projects *)

Lemma rejected_guild_witness :
  let w' := (migrateGuild guildRejectingEnv snapshot1 guild1 freshWorld).2 in
  Ok tt = Ok tt /\
  mapping w' = mapping freshWorld /\
  failed w' = failed freshWorld /\
  missing w' = missing freshWorld /\
  (exists pre,
     trace w' = pre ++ [{| ev_call := PostGuild (g_id guild1) guild1Body;
                           ev_ok := false |}] /\
     Forall project_media pre).
Proof.
  intros w'.
  apply (rejected_guild_is_left_untouched
           guildRejectingEnv snapshot1 guild1 freshWorld (Ok tt) w' (trace w')
           guild1Body).
  - vm_compute. reflexivity.
  - reflexivity.
  - vm_compute. left. reflexivity.
Defined.

Lemma legacy_guild_icon_witness :
  exists b rest,
    trace (migrateGuild acceptingEnv snapshot1 guild1 freshWorld).2 =
      trace freshWorld ++
      {| ev_call :=
           PostGuild (g_id guild1)
             {| ng_name := g_name guild1; ng_description := g_description guild1;
                ng_debutDate := "2021-01-01T00:00:00.000Z";
                ng_invite := g_invite guild1;
                ng_icon := DEFAULT_MEDIA acceptingEnv |};
         ev_ok := b |} :: rest.
Proof.
  apply (legacy_hosted_guild_icon_is_the_default
           acceptingEnv snapshot1 guild1
           {| host := "s3.fr-par.scw.cloud"; pathname := "/hefw/g1.png" |}).
  - intros Hin. inversion Hin.
  - vm_compute. reflexivity.
  - reflexivity.
  - vm_compute. reflexivity.
Defined.


Lemma media_failure_witness :
  exists results,
    (all_tasks (mediaTask acceptingEnv project7) [picture1; clip1] freshWorld).1
    = Ok results /\
    length results = length [picture1; clip1] /\
    length (omap id results) <= length [picture1; clip1].
Proof.
  apply media_failures_do_not_abort.
  constructor; [intros _; vm_compute; eauto|].
  constructor; [intros H; discriminate H|].
  constructor.
Defined.

Lemma accepted_guild_witness :
  let w' := (migrateGuild acceptingEnv snapshot1 guild1 freshWorld).2 in
  IdS (g_id guild1) ∈ successfullyProcessed (mapping w') /\
  is_Some (m_guilds (mapping w') !! g_id guild1).
Proof.
  intros w'.
  apply (accepted_guild_is_mapped
           acceptingEnv snapshot1 guild1 freshWorld (Ok tt) w' (trace w') guild1Body).
  - vm_compute. reflexivity.
  - reflexivity.
  - vm_compute. left. reflexivity.
Defined.

Lemma accepted_project_witness :
  let w' := (migrateProject acceptingEnv snapshot1 project7 freshWorld).2 in
  IdN (p_id project7) ∈ successfullyProcessed (mapping w') /\
  is_Some (m_projects (mapping w') !! p_id project7).
Proof.
  intros w'.
  apply (accepted_project_is_mapped
           acceptingEnv snapshot1 project7 freshWorld (Ok tt) w' (trace w')
           project7Body).
  - vm_compute. reflexivity.
  - reflexivity.
  - vm_compute. left. reflexivity.
Defined.

End MoreExamples.
